(** * Blue/green log comparison and heuristic error scoring

    A shallow embedding of the two engines of the repository:
    - [src/logComparator.js]: the field exclusion filter
      ([shouldIgnoreField], [removeIgnoredFields]) and the positional
      structural comparator ([compareLogEntries], [compareWorkflowLogs]);
    - [src/rag/ragAnalyzer.js]: the pattern catalog, the error scorer
      ([analyzeLogForErrors]) and the key/value extractor
      ([extractKeyValuePairs], [isNullOrErrorValue]).

    Conventions of the embedding.
    - A JavaScript string is a [string] whose characters are the code
      units U+0000..U+00FF.
    - A JavaScript value read from CSV/JSON is a [value]; numbers that are
      only carried around are binary64 [spec_float]s.
    - A call that may throw returns a [completion].
    - The scorer adds small integers, which stay exact in binary64 and
      are kept in [Z], and multiplies the sum by binary64 multipliers. A
      finite binary64 number is read as the rational it denotes ([Q]); a
      decimal literal and a product are rounded to the nearest binary64
      number, ties to the even significand ([binary64], [times]), and
      [Math.round] is the rounding to the nearest integer, halves
      upwards. *)

From Stdlib Require Import ZArith QArith Qround Qpower Ascii String Lia.
From Stdlib Require Import Floats.SpecFloat.
From Stdlib Require Import Sorting.Sorted Sorting.Permutation.
From stdpp Require Import base option list strings gmap pretty.

Local Open Scope Z_scope.
Set Warnings "-register-all".

(** ** Completions: normal return or thrown exception *)

Inductive exn := TypeError (msg : string) | SyntaxError (msg : string).

Inductive completion (A : Type) :=
| Normal (a : A)
| Throw (e : exn).
Arguments Normal {A} a.
Arguments Throw {A} e.

Global Instance completion_ret : MRet completion := @Normal.
Global Instance completion_bind : MBind completion := fun A B f c =>
  match c with
  | Normal a => f a
  | Throw e => Throw e
  end.

(** [try { body } catch (e) { handler }] *)
Definition try_catch {A} (body : completion A) (handler : exn -> completion A) : completion A :=
  match body with
  | Normal a => Normal a
  | Throw e => handler e
  end.

Definition returns {A} (c : completion A) : Prop := exists a, c = Normal a.

(** ** Strings *)

Module Str.

Definition code (c : ascii) : nat := nat_of_ascii c.

Definition between (lo hi : nat) (c : ascii) : bool :=
  (lo <=? code c)%nat && (code c <=? hi)%nat.

(** [String.prototype.toLowerCase] on the code units U+0000..U+00FF. *)
Definition lower_char (c : ascii) : ascii :=
  if between 65 90 c || (between 192 222 c && negb (code c =? 215)%nat)
  then ascii_of_nat (code c + 32) else c.

(** [String.prototype.toUpperCase], used by the source only on keys of the
    level table, which are ASCII. *)
Definition upper_char (c : ascii) : ascii :=
  if between 97 122 c then ascii_of_nat (code c - 32) else c.

Fixpoint map (f : ascii -> ascii) (s : string) : string :=
  match s with
  | EmptyString => EmptyString
  | String c s' => String (f c) (map f s')
  end.

Definition toLowerCase : string -> string := map lower_char.
Definition toUpperCase : string -> string := map upper_char.

(** White space and line terminators, as [trim] and the regular
    expression class [\s] see them. *)
Definition is_space (c : ascii) : bool :=
  between 9 13 c || (code c =? 32)%nat || (code c =? 160)%nat.

Fixpoint trimStart (s : string) : string :=
  match s with
  | String c s' => if is_space c then trimStart s' else s
  | EmptyString => EmptyString
  end.

Fixpoint trimEnd (s : string) : string :=
  match s with
  | EmptyString => EmptyString
  | String c s' =>
      match trimEnd s' with
      | EmptyString => if is_space c then EmptyString else String c EmptyString
      | t => String c t
      end
  end.

Definition trim (s : string) : string := trimEnd (trimStart s).

Definition startsWith (s p : string) : bool := String.prefix p s.

(** [s.includes(p)] *)
Fixpoint includes (s p : string) : bool :=
  String.prefix p s ||
  match s with
  | EmptyString => false
  | String _ s' => includes s' p
  end.

(** [s.split(sep)] for a one-character separator: never empty. *)
Fixpoint split_aux (sep : ascii) (cur : string) (s : string) : list string :=
  match s with
  | EmptyString => [String.rev cur]
  | String c s' =>
      if Ascii.eqb c sep then String.rev cur :: split_aux sep EmptyString s'
      else split_aux sep (String c cur) s'
  end.

Definition split (sep : ascii) (s : string) : list string :=
  split_aux sep EmptyString s.

(** [arr.includes(s)] on an array of strings *)
Definition mem (s : string) (l : list string) : bool :=
  existsb (String.eqb s) l.

Definition dquote : string := String (ascii_of_nat 34) EmptyString.

End Str.


(** ** Regular expressions

    The JavaScript regular expressions of the catalog, as syntax trees.
    [RegExp.parse] reads the pattern text of the source; [RegExp.test] and
    [RegExp.exec] are the backtracking matcher of the language
    specification, restricted to the syntax the repository uses. *)

Module RegExp.

Inductive class_item :=
| CChar (c : ascii)
| CRange (lo hi : ascii)
| CSpace (positive : bool)      (* \s, \S *)
| CWord (positive : bool)       (* \w, \W *)
| CDigit (positive : bool).     (* \d, \D *)

Inductive regex :=
| Empty
| Char (c : ascii)
| AnyChar                                   (* . *)
| Class (negated : bool) (items : list class_item)
| WordBoundary (negated : bool)             (* \b, \B *)
| InputStart                                (* ^ *)
| InputEnd                                  (* $ *)
| Seq (r1 r2 : regex)
| Alt (r1 r2 : regex)
| Group (index : option nat) (r : regex)    (* ( ) and (?: ) *)
| Repeat (r : regex) (min : nat) (max : option nat) (greedy : bool).

(** *** Parsing the pattern text *)

Definition is_digit (c : ascii) : bool := Str.between 48 57 c.
Definition is_word (c : ascii) : bool :=
  Str.between 48 57 c || Str.between 65 90 c || Str.between 97 122 c
  || (Str.code c =? 95)%nat.
Definition is_line_terminator (c : ascii) : bool :=
  (Str.code c =? 10)%nat || (Str.code c =? 13)%nat.

Definition digit_val (c : ascii) : nat := Str.code c - 48.

Fixpoint read_nat (inp : list ascii) (acc : option nat) : option nat * list ascii :=
  match inp with
  | c :: rest =>
      if is_digit c then read_nat rest (Some (10 * default 0%nat acc + digit_val c)%nat)
      else (acc, inp)
  | [] => (acc, inp)
  end.

(** [{n}], [{n,}] and [{n,m}] after the opening brace. *)
Definition read_braces (inp : list ascii) : option (nat * option nat * list ascii) :=
  match read_nat inp None with
  | (Some n, "}"%char :: rest) => Some (n, Some n, rest)
  | (Some n, ","%char :: rest) =>
      match read_nat rest None with
      | (None, "}"%char :: rest') => Some (n, None, rest')
      | (Some m, "}"%char :: rest') => Some (n, Some m, rest')
      | _ => None
      end
  | _ => None
  end.

Definition control_escape (c : ascii) : option ascii :=
  match c with
  | "n"%char => Some (ascii_of_nat 10)
  | "r"%char => Some (ascii_of_nat 13)
  | "t"%char => Some (ascii_of_nat 9)
  | "v"%char => Some (ascii_of_nat 11)
  | "f"%char => Some (ascii_of_nat 12)
  | "0"%char => Some (ascii_of_nat 0)
  | _ => None
  end.

Definition class_escape (c : ascii) : option class_item :=
  match c with
  | "s"%char => Some (CSpace true)
  | "S"%char => Some (CSpace false)
  | "w"%char => Some (CWord true)
  | "W"%char => Some (CWord false)
  | "d"%char => Some (CDigit true)
  | "D"%char => Some (CDigit false)
  | _ => None
  end.

(** One class atom: a character, an escaped character or a class escape. *)
Definition class_atom (inp : list ascii) : option (class_item * list ascii) :=
  match inp with
  | "\"%char :: c :: rest =>
      match class_escape c with
      | Some it => Some (it, rest)
      | None =>
          match control_escape c with
          | Some a => Some (CChar a, rest)
          | None =>
              if Ascii.eqb c "b" then Some (CChar (ascii_of_nat 8), rest)
              else if is_word c then None
              else Some (CChar c, rest)
          end
      end
  | "\"%char :: [] => None
  | c :: rest => Some (CChar c, rest)
  | [] => None
  end.

Fixpoint class_items (fuel : nat) (inp : list ascii) : option (list class_item * list ascii) :=
  match fuel with
  | O => None
  | S fuel' =>
      match inp with
      | [] => None
      | "]"%char :: rest => Some ([], rest)
      | _ =>
          '(a, inp1) ← class_atom inp;
          match a, inp1 with
          | CChar lo, "-"%char :: ("]"%char :: _) =>
              '(items, rest) ← class_items fuel' inp1; Some (a :: items, rest)
          | CChar lo, "-"%char :: inp2 =>
              '(b, inp3) ← class_atom inp2;
              match b with
              | CChar hi =>
                  if (Str.code lo <=? Str.code hi)%nat then
                    '(items, rest) ← class_items fuel' inp3;
                    Some (CRange lo hi :: items, rest)
                  else None
              | _ => None
              end
          | _, _ => '(items, rest) ← class_items fuel' inp1; Some (a :: items, rest)
          end
      end
  end.

Definition quantifier (inp : list ascii) : option (nat * option nat * list ascii) :=
  match inp with
  | "*"%char :: rest => Some (0%nat, None, rest)
  | "+"%char :: rest => Some (1%nat, None, rest)
  | "?"%char :: rest => Some (0%nat, Some 1%nat, rest)
  | "{"%char :: rest => read_braces rest
  | _ => None
  end.

(** An atom followed by its optional quantifier and laziness mark. *)
Definition quantified (r : regex) (inp : list ascii) : option (regex * list ascii) :=
  match quantifier inp with
  | None => Some (r, inp)
  | Some (mn, mx, rest) =>
      if match mx with Some m => (m <? mn)%nat | None => false end then None
      else
        match rest with
        | "?"%char :: rest' => Some (Repeat r mn mx false, rest')
        | _ => Some (Repeat r mn mx true, rest)
        end
  end.

Definition pstate : Type := regex * list ascii * nat.

Fixpoint disjunction (fuel : nat) (inp : list ascii) (g : nat) : option pstate :=
  match fuel with
  | O => None
  | S fuel' =>
      '(a, inp1, g1) ← alternative fuel' inp g;
      match inp1 with
      | "|"%char :: inp2 =>
          '(d, inp3, g3) ← disjunction fuel' inp2 g1; Some (Alt a d, inp3, g3)
      | _ => Some (a, inp1, g1)
      end
  end
with alternative (fuel : nat) (inp : list ascii) (g : nat) : option pstate :=
  match fuel with
  | O => None
  | S fuel' =>
      match inp with
      | [] => Some (Empty, inp, g)
      | "|"%char :: _ => Some (Empty, inp, g)
      | ")"%char :: _ => Some (Empty, inp, g)
      | _ =>
          '(t, inp1, g1) ← term fuel' inp g;
          '(a, inp2, g2) ← alternative fuel' inp1 g1;
          Some (match a with Empty => t | _ => Seq t a end, inp2, g2)
      end
  end
with term (fuel : nat) (inp : list ascii) (g : nat) : option pstate :=
  match fuel with
  | O => None
  | S fuel' =>
      match inp with
      | [] => None
      | "^"%char :: rest => Some (InputStart, rest, g)
      | "$"%char :: rest => Some (InputEnd, rest, g)
      | "\"%char :: "b"%char :: rest => Some (WordBoundary false, rest, g)
      | "\"%char :: "B"%char :: rest => Some (WordBoundary true, rest, g)
      | "("%char :: "?"%char :: ":"%char :: rest =>
          '(d, inp1, g1) ← disjunction fuel' rest g;
          match inp1 with
          | ")"%char :: inp2 =>
              '(q, inp3) ← quantified (Group None d) inp2; Some (q, inp3, g1)
          | _ => None
          end
      | "("%char :: "?"%char :: _ => None
      | "("%char :: rest =>
          '(d, inp1, g1) ← disjunction fuel' rest (S g);
          match inp1 with
          | ")"%char :: inp2 =>
              '(q, inp3) ← quantified (Group (Some g) d) inp2; Some (q, inp3, g1)
          | _ => None
          end
      | "["%char :: "^"%char :: rest =>
          '(items, inp1) ← class_items (S (length rest)) rest;
          '(q, inp2) ← quantified (Class true items) inp1; Some (q, inp2, g)
      | "["%char :: rest =>
          '(items, inp1) ← class_items (S (length rest)) rest;
          '(q, inp2) ← quantified (Class false items) inp1; Some (q, inp2, g)
      | "."%char :: rest =>
          '(q, inp1) ← quantified AnyChar rest; Some (q, inp1, g)
      | "\"%char :: c :: rest =>
          '(atom) ←
            match class_escape c with
            | Some it => Some (Class false [it])
            | None =>
                match control_escape c with
                | Some a => Some (Char a)
                | None => if is_word c then None else Some (Char c)
                end
            end;
          '(q, inp1) ← quantified atom rest; Some (q, inp1, g)
      | "\"%char :: [] => None
      | "*"%char :: _ => None
      | "+"%char :: _ => None
      | "?"%char :: _ => None
      | "{"%char :: rest =>
          match read_braces rest with
          | Some _ => None
          | None => '(q, inp1) ← quantified (Char "{") rest; Some (q, inp1, g)
          end
      | c :: rest =>
          '(q, inp1) ← quantified (Char c) rest; Some (q, inp1, g)
      end
  end.

(** [parse src]: the tree of a pattern, [None] where [new RegExp(src)]
    raises a [SyntaxError] (or uses syntax outside this fragment). *)
Definition parse (src : string) : option regex :=
  let inp := list_ascii_of_string src in
  match disjunction (3 * length inp + 3) inp 1 with
  | Some (r, [], _) => Some r
  | _ => None
  end.

(** *** Matching *)

(** A position of the matcher: the character before it, the rest of the
    input, and the text captured by each group so far. *)
Record mstate := MState {
  prev : option ascii;
  rest : list ascii;
  captures : list (nat * string)
}.

Definition advance (st : mstate) : option (ascii * mstate) :=
  match rest st with
  | c :: tl => Some (c, MState (Some c) tl (captures st))
  | [] => None
  end.

(** Canonicalisation under the [i] flag. *)
Definition canon (ic : bool) (c : ascii) : ascii :=
  if ic then Str.upper_char c else c.

Definition item_has (it : class_item) (c : ascii) : bool :=
  match it with
  | CChar a => Ascii.eqb a c
  | CRange lo hi => (Str.code lo <=? Str.code c)%nat && (Str.code c <=? Str.code hi)%nat
  | CSpace pos => Bool.eqb pos (Str.is_space c)
  | CWord pos => Bool.eqb pos (is_word c)
  | CDigit pos => Bool.eqb pos (is_digit c)
  end.

(** Some member of the item has the canonical form of [c]. *)
Definition item_matches (ic : bool) (it : class_item) (c : ascii) : bool :=
  item_has it c || (ic && (item_has it (Str.upper_char c) || item_has it (Str.lower_char c))).

Definition at_word_boundary (st : mstate) : bool :=
  let a := match prev st with Some c => is_word c | None => false end in
  let b := match rest st with c :: _ => is_word c | [] => false end in
  xorb a b.

Definition text_between (from to : mstate) : string :=
  string_of_list_ascii (take (length (rest from) - length (rest to)) (rest from)).

Definition set_capture (n : nat) (s : string) (st : mstate) : mstate :=
  MState (prev st) (rest st) ((n, s) :: filter (fun p => negb (fst p =? n)%nat) (captures st)).

Definition or_else {A} (a b : option A) : option A :=
  match a with Some x => Some x | None => b end.

(** [m ic r st k]: match [r] at [st], then continue with [k]; alternatives
    are tried in the priority order of the language (left alternative
    first, greedy quantifiers longest first, lazy ones shortest first). *)
Fixpoint m (ic : bool) (r : regex) (st : mstate) (k : mstate -> option mstate)
  {struct r} : option mstate :=
  match r with
  | Empty => k st
  | Char c =>
      match advance st with
      | Some (a, st') => if Ascii.eqb (canon ic a) (canon ic c) then k st' else None
      | None => None
      end
  | AnyChar =>
      match advance st with
      | Some (a, st') => if is_line_terminator a then None else k st'
      | None => None
      end
  | Class negated items =>
      match advance st with
      | Some (a, st') =>
          if xorb negated (existsb (fun it => item_matches ic it a) items) then k st' else None
      | None => None
      end
  | WordBoundary negated => if xorb negated (at_word_boundary st) then k st else None
  | InputStart => match prev st with None => k st | Some _ => None end
  | InputEnd => match rest st with [] => k st | _ => None end
  | Seq r1 r2 => m ic r1 st (fun st' => m ic r2 st' k)
  | Alt r1 r2 => or_else (m ic r1 st k) (m ic r2 st k)
  | Group None r1 => m ic r1 st k
  | Group (Some n) r1 => m ic r1 st (fun st' => k (set_capture n (text_between st st') st'))
  | Repeat r1 mn mx greedy =>
      (fix loop (fuel : nat) (mn : nat) (mx : option nat) (st : mstate) {struct fuel}
         : option mstate :=
         match fuel with
         | O => None
         | S fuel' =>
             match mx with
             | Some O => k st
             | _ =>
                 let again := fun st' =>
                   if (mn =? 0)%nat && (length (rest st') =? length (rest st))%nat then None
                   else loop fuel' (pred mn) (pred <$> mx) st' in
                 if (0 <? mn)%nat then m ic r1 st again
                 else if greedy then or_else (m ic r1 st again) (k st)
                 else or_else (k st) (m ic r1 st again)
             end
         end) (S (mn + length (rest st))) mn mx st
  end.

(** A compiled regular expression: its tree and its [i] flag. *)
Record t := Make { tree : regex; ignoreCase : bool }.

Record result := Result {
  index : nat;          (* where the match starts *)
  lastIndex : nat;      (* where it ends *)
  groups : list (nat * string)
}.

(** The leftmost match starting at position [pos] or later; [before] is
    the character in front of [inp]. *)
Fixpoint search (re : t) (pos : nat) (before : option ascii) (inp : list ascii)
  : option result :=
  let start := MState before inp [] in
  match m (ignoreCase re) (tree re) start Some with
  | Some fin => Some (Result pos (pos + (length inp - length (rest fin))) (captures fin))
  | None =>
      match inp with
      | [] => None
      | c :: inp' => search re (S pos) (Some c) inp'
      end
  end.

Definition last_of (l : list ascii) : option ascii := last l.

(** [re.exec(s)] with [re.lastIndex = from]. *)
Definition exec (re : t) (s : string) (from : nat) : option result :=
  let inp := list_ascii_of_string s in
  if (length inp <? from)%nat then None
  else search re from (last_of (take from inp)) (drop from inp).

(** [re.test(s)] for a regular expression without the [g] flag. *)
Definition test (re : t) (s : string) : bool :=
  match exec re s 0 with Some _ => true | None => false end.

Definition group (n : nat) (r : result) : option string :=
  snd <$> List.find (fun p => (fst p =? n)%nat) (groups r).

(** A regular expression literal [/src/] or [/src/i] of the source. *)
Definition literal (src : string) (ic : bool) : t :=
  Make (default (Class false []) (parse src)) ic.

End RegExp.

(** ** Objects as lists of entries *)

(** The own property [key] of an object. *)
Fixpoint own_property {A} (key : string) (entries : list (string * A)) : option A :=
  match entries with
  | [] => None
  | (k, v) :: rest => if String.eqb k key then Some v else own_property key rest
  end.

(** [obj[k] = v] on the entries of an object: a repeated key keeps its
    place and takes the new value. *)
Fixpoint set_property {A} (k : string) (v : A) (entries : list (string * A)) : list (string * A) :=
  match entries with
  | [] => [(k, v)]
  | (k', v') :: rest =>
      if String.eqb k' k then (k', v) :: rest else (k', v') :: set_property k v rest
  end.

(** [Object.entries] of an object literal written with the given
    properties, in source order. *)
Definition object_literal {A} (props : list (string * A)) : list (string * A) :=
  fold_left (fun acc kv => set_property (fst kv) (snd kv) acc) props [].

(** ** JavaScript values *)

Inductive value :=
| VUndefined
| VNull
| VBool (b : bool)
| VNum (x : spec_float)
| VStr (s : string)
| VArr (items : list value)
| VObj (fields : list (string * value)).
(** [VObj fields] lists the own properties in the order of
    [Object.entries]; the keys of an object are pairwise distinct. *)

Definition truthy_number (x : spec_float) : bool :=
  match x with
  | S754_zero _ | S754_nan => false
  | _ => true
  end.

(** [!v] is [negb (truthy v)]. *)
Definition truthy (v : value) : bool :=
  match v with
  | VUndefined | VNull => false
  | VBool b => b
  | VNum x => truthy_number x
  | VStr s => negb (String.eqb s "")
  | VArr _ | VObj _ => true
  end.

(** [a || b] *)
Definition js_or (a b : value) : value := if truthy a then a else b.

(** [v.key] for a property name that no prototype defines; [v] is neither
    [null] nor [undefined]. *)
Definition get (v : value) (key : string) : value :=
  match v with
  | VObj fields => default VUndefined (own_property key fields)
  | _ => VUndefined
  end.

Section value_induction.
Variable P : value -> Prop.
Hypothesis Hundefined : P VUndefined.
Hypothesis Hnull : P VNull.
Hypothesis Hbool : forall b, P (VBool b).
Hypothesis Hnum : forall x, P (VNum x).
Hypothesis Hstr : forall s, P (VStr s).
Hypothesis Harr : forall items, Forall P items -> P (VArr items).
Hypothesis Hobj : forall fields, Forall (fun kv => P (snd kv)) fields -> P (VObj fields).

Fixpoint value_nested_ind (v : value) : P v :=
  match v with
  | VUndefined => Hundefined
  | VNull => Hnull
  | VBool b => Hbool b
  | VNum x => Hnum x
  | VStr s => Hstr s
  | VArr items =>
      Harr items
        ((fix go (l : list value) : Forall P l :=
            match l with
            | [] => @List.Forall_nil _ P
            | x :: l' => @List.Forall_cons _ P x l' (value_nested_ind x) (go l')
            end) items)
  | VObj fields =>
      Hobj fields
        ((fix go (l : list (string * value)) : Forall (fun kv => P (snd kv)) l :=
            match l with
            | [] => @List.Forall_nil _ _
            | kv :: l' => @List.Forall_cons _ _ kv l' (value_nested_ind (snd kv)) (go l')
            end) fields)
  end.
End value_induction.

(** ** The regular expression engine seen by the comparator

    [shouldIgnoreField] compiles patterns supplied by the user, so the
    comparator is stated over any engine: [RegExp_new] is [new RegExp(p)],
    which returns a regular expression or throws, and [RegExp_test] is
    [regex.test(s)]. *)

Class RegExpEngine := {
  regexp : Type;
  RegExp_new : string -> completion regexp;
  RegExp_test : regexp -> string -> bool
}.

(** The engine of this file, for the syntax [RegExp.parse] reads. *)
Definition reference_engine : RegExpEngine := {|
  regexp := RegExp.t;
  RegExp_new := fun pattern =>
    match RegExp.parse pattern with
    | Some r => Normal (RegExp.Make r false)
    | None => Throw (SyntaxError "Invalid regular expression")
    end;
  RegExp_test := RegExp.test
|}.

(** ** Reports of the comparator

    The records are shared by the two readings of the comparator below:
    [V] is [value] when records are read as trees, and a reference-carrying
    value when the object store is explicit. *)

(** What [deep-diff] reports: [kind] is N (new), D (deleted), E (edited) or
    A (array change). *)
Inductive DiffKind := KindN | KindD | KindE | KindA.

Inductive pathElem := PKey (key : string) | PIdx (i : nat).

Set Implicit Arguments.

Record DiffItem (V : Type) := { item_kind : DiffKind; item_lhs : V; item_rhs : V }.

Record Diff (V : Type) := {
  d_kind : DiffKind;
  d_path : option (list pathElem);
  d_lhs : V;
  d_rhs : V;
  d_index : option nat;
  d_item : option (DiffItem V)
}.

Record DiffEntry (V : Type) := {
  kind : DiffKind;
  path : string;
  blueValue : V;
  greenValue : V;
  index : option nat;
  item : option (DiffItem V)
}.

Record Comparison (V : Type) := {
  hasDifferences : bool;
  differences : list (DiffEntry V)
}.

Record OneSided (V : Type) := { os_index : nat; os_log : V }.

Record LogDifference (V : Type) := {
  ld_index : nat;
  ld_blueLog : V;
  ld_greenLog : V;
  ld_differences : list (DiffEntry V)
}.

Record Summary := {
  blueLogCount : nat;
  greenLogCount : nat;
  matchedCount : nat;
  mismatchedCount : nat;
  blueOnlyCount : nat;
  greenOnlyCount : nat
}.

Record Report (V : Type) := {
  summary : Summary;
  countMismatch : bool;
  sequenceDifferences : list V;
  logDifferences : list (LogDifference V);
  blueOnlyLogs : list (OneSided V);
  greenOnlyLogs : list (OneSided V);
  ignoredFields : list string;
  ignoredPatterns : list string
}.

Unset Implicit Arguments.

Record Config := { cfg_ignoreFields : list string; cfg_ignorePatterns : list string }.

Record Options := {
  opt_ignoreFields : option (list string);
  opt_ignorePatterns : option (list string);
  opt_matchField : option string
}.

Definition incr_matched (s : Summary) : Summary :=
  {| blueLogCount := blueLogCount s; greenLogCount := greenLogCount s;
     matchedCount := S (matchedCount s); mismatchedCount := mismatchedCount s;
     blueOnlyCount := blueOnlyCount s; greenOnlyCount := greenOnlyCount s |}.
Definition incr_mismatched (s : Summary) : Summary :=
  {| blueLogCount := blueLogCount s; greenLogCount := greenLogCount s;
     matchedCount := matchedCount s; mismatchedCount := S (mismatchedCount s);
     blueOnlyCount := blueOnlyCount s; greenOnlyCount := greenOnlyCount s |}.
Definition incr_blueOnly (s : Summary) : Summary :=
  {| blueLogCount := blueLogCount s; greenLogCount := greenLogCount s;
     matchedCount := matchedCount s; mismatchedCount := mismatchedCount s;
     blueOnlyCount := S (blueOnlyCount s); greenOnlyCount := greenOnlyCount s |}.
Definition incr_greenOnly (s : Summary) : Summary :=
  {| blueLogCount := blueLogCount s; greenLogCount := greenLogCount s;
     matchedCount := matchedCount s; mismatchedCount := mismatchedCount s;
     blueOnlyCount := blueOnlyCount s; greenOnlyCount := S (greenOnlyCount s) |}.

Section ReportUpdates.
Context {V : Type}.

(** [report.summary.<counter>++] *)
Definition with_summary (f : Summary -> Summary) (r : Report V) : Report V := {|
  summary := f (summary r);
  countMismatch := countMismatch r;
  sequenceDifferences := sequenceDifferences r;
  logDifferences := logDifferences r;
  blueOnlyLogs := blueOnlyLogs r;
  greenOnlyLogs := greenOnlyLogs r;
  ignoredFields := ignoredFields r;
  ignoredPatterns := ignoredPatterns r
|}.

(** [report.greenOnlyLogs.push(e)] *)
Definition push_greenOnly (e : OneSided V) (r : Report V) : Report V := {|
  summary := summary r; countMismatch := countMismatch r;
  sequenceDifferences := sequenceDifferences r; logDifferences := logDifferences r;
  blueOnlyLogs := blueOnlyLogs r; greenOnlyLogs := greenOnlyLogs r ++ [e];
  ignoredFields := ignoredFields r; ignoredPatterns := ignoredPatterns r |}.

(** [report.blueOnlyLogs.push(e)] *)
Definition push_blueOnly (e : OneSided V) (r : Report V) : Report V := {|
  summary := summary r; countMismatch := countMismatch r;
  sequenceDifferences := sequenceDifferences r; logDifferences := logDifferences r;
  blueOnlyLogs := blueOnlyLogs r ++ [e]; greenOnlyLogs := greenOnlyLogs r;
  ignoredFields := ignoredFields r; ignoredPatterns := ignoredPatterns r |}.

(** [report.logDifferences.push(e)] *)
Definition push_logDifference (e : LogDifference V) (r : Report V) : Report V := {|
  summary := summary r; countMismatch := countMismatch r;
  sequenceDifferences := sequenceDifferences r; logDifferences := logDifferences r ++ [e];
  blueOnlyLogs := blueOnlyLogs r; greenOnlyLogs := greenOnlyLogs r;
  ignoredFields := ignoredFields r; ignoredPatterns := ignoredPatterns r |}.

Definition initial_report (blueLength greenLength : nat) (ignoreFields ignorePatterns : list string)
  : Report V := {|
  summary := {|
    blueLogCount := blueLength;
    greenLogCount := greenLength;
    matchedCount := 0;
    mismatchedCount := 0;
    blueOnlyCount := 0;
    greenOnlyCount := 0
  |};
  countMismatch := negb (blueLength =? greenLength)%nat;
  sequenceDifferences := [];
  logDifferences := [];
  blueOnlyLogs := [];
  greenOnlyLogs := [];
  ignoredFields := ignoreFields;
  ignoredPatterns := ignorePatterns
|}.

End ReportUpdates.

(** [p1 ? `${p1}.${key}` : key] *)
Definition join_path (parentPath key : string) : string :=
  if String.eqb parentPath "" then key else parentPath +:+ "." +:+ key.

(** [`${parentPath}[${index}]`] *)
Definition index_path (parentPath : string) (i : nat) : string :=
  parentPath +:+ "[" +:+ pretty i +:+ "]".

Definition path_step (i : nat) (p : pathElem) : string :=
  match p with
  | PIdx n => "[" +:+ pretty n +:+ "]"
  | PKey k => if (i =? 0)%nat then k else "." +:+ k
  end.

Definition pathToString (pathArray : option (list pathElem)) : string :=
  match pathArray with
  | None => ""
  | Some ps => String.concat "" (imap path_step ps)
  end.

(** [differences.map((d) => ({ kind: d.kind, path: pathToString(d.path), ... }))] *)
Definition to_entry {V} (d : Diff V) : DiffEntry V := {|
  kind := d_kind d;
  path := pathToString (d_path d);
  blueValue := d_lhs d;
  greenValue := d_rhs d;
  index := d_index d;
  item := d_item d
|}.

(** ** src/logComparator.js: the exclusion rules *)

Section ShouldIgnoreField.
Context {engine : RegExpEngine}.

(** The body of the [try] block for one pattern. *)
Definition pattern_hits (fieldPath : string) (pathParts : list string) (pattern : string)
  : completion bool :=
  regex ← RegExp_new pattern;
  mret (RegExp_test regex fieldPath || existsb (RegExp_test regex) pathParts).

(** The loop over [ignorePatterns]: an invalid pattern is caught and
    skipped. *)
Fixpoint check_patterns (fieldPath : string) (pathParts : list string)
  (ignorePatterns : list string) : completion bool :=
  match ignorePatterns with
  | [] => mret false
  | pattern :: rest =>
      hit ← try_catch (pattern_hits fieldPath pathParts pattern) (fun _ => mret false);
      if hit : bool then mret true else check_patterns fieldPath pathParts rest
  end.

Definition shouldIgnoreField (fieldPath : string) (ignoreFields ignorePatterns : list string)
  : completion bool :=
  if Str.mem fieldPath ignoreFields then mret true
  else
    let pathParts := Str.split "." fieldPath in
    if existsb (fun part => Str.mem part ignoreFields) pathParts then mret true
    else check_patterns fieldPath pathParts ignorePatterns.

End ShouldIgnoreField.

(** ** src/logComparator.js: records as trees *)

Section LogComparator.
Context {engine : RegExpEngine}.

Fixpoint removeIgnoredFields (obj : value) (ignoreFields ignorePatterns : list string)
  (parentPath : string) {struct obj} : completion value :=
  match obj with
  | VArr items =>
      mapped ←
        (fix map_items (items : list value) (i : nat) : completion (list value) :=
           match items with
           | [] => mret []
           | item :: rest =>
               item' ← removeIgnoredFields item ignoreFields ignorePatterns
                         (index_path parentPath i);
               rest' ← map_items rest (S i);
               mret (item' :: rest')
           end) items 0%nat;
      mret (VArr mapped)
  | VObj fields =>
      result ←
        (fix entries (fields : list (string * value)) : completion (list (string * value)) :=
           match fields with
           | [] => mret []
           | (key, v) :: rest =>
               let fullPath := join_path parentPath key in
               ignore ← shouldIgnoreField fullPath ignoreFields ignorePatterns;
               if ignore : bool then entries rest
               else
                 v' ← removeIgnoredFields v ignoreFields ignorePatterns fullPath;
                 rest' ← entries rest;
                 mret ((key, v') :: rest')
           end) fields;
      mret (VObj result)
  | _ => mret obj
  end.

(** [diff] of the [deep-diff] package: [None] is its [undefined] result
    for equal operands. *)
Variable diff : value -> value -> option (list (Diff value)).

Definition compareLogEntries (blueLog greenLog : value) (ignoreFields ignorePatterns : list string)
  : completion (Comparison value) :=
  filteredBlue ← removeIgnoredFields blueLog ignoreFields ignorePatterns "";
  filteredGreen ← removeIgnoredFields greenLog ignoreFields ignorePatterns "";
  let differences := default [] (diff filteredBlue filteredGreen) in
  mret {|
    hasDifferences := (0 <? length differences)%nat;
    differences := List.map to_entry differences
  |}.

(** What [loadDefaultIgnoreFields()] returns: the configuration file, or
    empty lists when it cannot be read. *)
Variable loadDefaultIgnoreFields : Config.

(** [arr[i]]: [undefined] past the end. *)
Definition at_index (arr : list value) (i : nat) : value :=
  default VUndefined (arr !! i).

(** One iteration of the loop of [compareWorkflowLogs]. *)
Definition compare_at (blueLogs greenLogs : list value) (ignoreFields ignorePatterns : list string)
  (i : nat) (report : Report value) : completion (Report value) :=
  let blueLog := at_index blueLogs i in
  let greenLog := at_index greenLogs i in
  if negb (truthy blueLog) then
    mret (with_summary incr_greenOnly
            (push_greenOnly {| os_index := i; os_log := greenLog |} report))
  else if negb (truthy greenLog) then
    mret (with_summary incr_blueOnly
            (push_blueOnly {| os_index := i; os_log := blueLog |} report))
  else
    comparison ← compareLogEntries blueLog greenLog ignoreFields ignorePatterns;
    if hasDifferences comparison then
      let report := with_summary incr_mismatched report in
      fb ← removeIgnoredFields blueLog ignoreFields ignorePatterns "";
      fg ← removeIgnoredFields greenLog ignoreFields ignorePatterns "";
      mret (push_logDifference
              {| ld_index := i; ld_blueLog := fb; ld_greenLog := fg;
                 ld_differences := differences comparison |} report)
    else mret (with_summary incr_matched report).

(** [for (let i = from; i < from + n; i++)] *)
Fixpoint compare_loop (blueLogs greenLogs : list value) (ignoreFields ignorePatterns : list string)
  (from n : nat) (report : Report value) : completion (Report value) :=
  match n with
  | O => mret report
  | S n' =>
      report' ← compare_at blueLogs greenLogs ignoreFields ignorePatterns from report;
      compare_loop blueLogs greenLogs ignoreFields ignorePatterns (S from) n' report'
  end.

Definition compareWorkflowLogs (blueLogs greenLogs : list value) (options : Options)
  : completion (Report value) :=
  let defaultConfig := loadDefaultIgnoreFields in
  let ignoreFields := cfg_ignoreFields defaultConfig ++ default [] (opt_ignoreFields options) in
  let ignorePatterns := cfg_ignorePatterns defaultConfig ++ default [] (opt_ignorePatterns options) in
  let matchField := default "log.level" (opt_matchField options) in
  let report := initial_report (length blueLogs) (length greenLogs) ignoreFields ignorePatterns in
  let maxLength := Nat.max (length blueLogs) (length greenLogs) in
  compare_loop blueLogs greenLogs ignoreFields ignorePatterns 0 maxLength report.

End LogComparator.

(** ** src/logComparator.js: records in an object store

    The same functions with the objects of the program in a store: a value
    is a primitive or a reference, an assignment [result[key] = v] updates
    the object the reference names, and [{}] and [Array.prototype.map]
    allocate. The recursion of [removeIgnoredFields] is bounded by [fuel],
    the depth of the call stack. *)

Module Store.

Inductive hvalue :=
| HUndefined
| HNull
| HBool (b : bool)
| HNum (x : spec_float)
| HStr (s : string)
| HRef (l : nat).

Inductive hobject :=
| HArray (items : list hvalue)
| HObject (fields : list (string * hvalue)).

Abbreviation store := (gmap nat hobject).

Definition truthy (v : hvalue) : bool :=
  match v with
  | HUndefined | HNull => false
  | HBool b => b
  | HNum x => truthy_number x
  | HStr s => negb (String.eqb s "")
  | HRef _ => true
  end.

(** A computation on the store: [None] when the fuel runs out or a
    reference names no object. *)
Definition M (A : Type) : Type := store -> option (completion A * store).

Definition ret {A} (a : A) : M A := fun σ => Some (Normal a, σ).

Definition bind {A B} (c : M A) (f : A -> M B) : M B := fun σ =>
  match c σ with
  | None => None
  | Some (Throw e, σ') => Some (Throw e, σ')
  | Some (Normal a, σ') => f a σ'
  end.

Definition lift {A} (c : completion A) : M A := fun σ => Some (c, σ).

Definition stuck {A} : M A := fun _ => None.

(** A new object. *)
Definition alloc (o : hobject) : M nat := fun σ =>
  let l := fresh (dom σ) in Some (Normal l, <[l := o]> σ).

(** [result[key] = v] *)
Definition assign (l : nat) (key : string) (v : hvalue) : M unit := fun σ =>
  match σ !! l with
  | Some (HObject fields) => Some (Normal tt, <[l := HObject (set_property key v fields)]> σ)
  | _ => None
  end.

(** [a.push(v)] while [map] fills its result. *)
Definition append (l : nat) (v : hvalue) : M unit := fun σ =>
  match σ !! l with
  | Some (HArray items) => Some (Normal tt, <[l := HArray (items ++ [v])]> σ)
  | _ => None
  end.

Definition load (l : nat) : M hobject := fun σ =>
  match σ !! l with
  | Some o => Some (Normal o, σ)
  | None => None
  end.

Section StoreComparator.
Context {engine : RegExpEngine}.

Fixpoint removeIgnoredFields (fuel : nat) (obj : hvalue) (ignoreFields ignorePatterns : list string)
  (parentPath : string) {struct fuel} : M hvalue :=
  match fuel with
  | O => stuck
  | S fuel' =>
      match obj with
      | HRef l =>
          bind (load l) (fun o =>
          match o with
          | HArray items =>
              bind (alloc (HArray [])) (fun mapped =>
              bind ((fix map_items (items : list hvalue) (i : nat) : M unit :=
                       match items with
                       | [] => ret tt
                       | item :: rest =>
                           bind (removeIgnoredFields fuel' item ignoreFields ignorePatterns
                                   (index_path parentPath i)) (fun item' =>
                           bind (append mapped item') (fun _ =>
                           map_items rest (S i)))
                       end) items 0%nat) (fun _ =>
              ret (HRef mapped)))
          | HObject fields =>
              bind (alloc (HObject [])) (fun result =>
              bind ((fix entries (fields : list (string * hvalue)) : M unit :=
                       match fields with
                       | [] => ret tt
                       | (key, v) :: rest =>
                           let fullPath := join_path parentPath key in
                           bind (lift (shouldIgnoreField fullPath ignoreFields ignorePatterns))
                             (fun ignore : bool =>
                           if ignore then entries rest
                           else
                             bind (removeIgnoredFields fuel' v ignoreFields ignorePatterns fullPath)
                               (fun v' =>
                             bind (assign result key v') (fun _ =>
                             entries rest)))
                       end) fields) (fun _ =>
              ret (HRef result)))
          end)
      | _ => ret obj
      end
  end.

(** [diff] of the [deep-diff] package: it reads its operands in the store
    and changes nothing. *)
Variable diff : store -> hvalue -> hvalue -> option (list (Diff hvalue)).

Definition compareLogEntries (fuel : nat) (blueLog greenLog : hvalue)
  (ignoreFields ignorePatterns : list string) : M (Comparison hvalue) :=
  bind (removeIgnoredFields fuel blueLog ignoreFields ignorePatterns "") (fun filteredBlue =>
  bind (removeIgnoredFields fuel greenLog ignoreFields ignorePatterns "") (fun filteredGreen =>
  fun σ =>
    let differences := default [] (diff σ filteredBlue filteredGreen) in
    ret {|
      hasDifferences := (0 <? length differences)%nat;
      differences := List.map to_entry differences
    |} σ)).

Variable loadDefaultIgnoreFields : Config.

Definition at_index (arr : list hvalue) (i : nat) : hvalue :=
  default HUndefined (arr !! i).

Definition compare_at (fuel : nat) (blueLogs greenLogs : list hvalue)
  (ignoreFields ignorePatterns : list string) (i : nat) (report : Report hvalue)
  : M (Report hvalue) :=
  let blueLog := at_index blueLogs i in
  let greenLog := at_index greenLogs i in
  if negb (truthy blueLog) then
    ret (with_summary incr_greenOnly
           (push_greenOnly {| os_index := i; os_log := greenLog |} report))
  else if negb (truthy greenLog) then
    ret (with_summary incr_blueOnly
           (push_blueOnly {| os_index := i; os_log := blueLog |} report))
  else
    bind (compareLogEntries fuel blueLog greenLog ignoreFields ignorePatterns) (fun comparison =>
    if hasDifferences comparison then
      let report := with_summary incr_mismatched report in
      bind (removeIgnoredFields fuel blueLog ignoreFields ignorePatterns "") (fun fb =>
      bind (removeIgnoredFields fuel greenLog ignoreFields ignorePatterns "") (fun fg =>
      ret (push_logDifference
             {| ld_index := i; ld_blueLog := fb; ld_greenLog := fg;
                ld_differences := differences comparison |} report)))
    else ret (with_summary incr_matched report)).

Fixpoint compare_loop (fuel : nat) (blueLogs greenLogs : list hvalue)
  (ignoreFields ignorePatterns : list string) (from n : nat) (report : Report hvalue)
  : M (Report hvalue) :=
  match n with
  | O => ret report
  | S n' =>
      bind (compare_at fuel blueLogs greenLogs ignoreFields ignorePatterns from report)
        (fun report' =>
      compare_loop fuel blueLogs greenLogs ignoreFields ignorePatterns (S from) n' report')
  end.

(** [blueLogs] and [greenLogs] are the elements of the two arrays, which
    the function reads through [length] and indexing only. *)
Definition compareWorkflowLogs (fuel : nat) (blueLogs greenLogs : list hvalue) (options : Options)
  : M (Report hvalue) :=
  let defaultConfig := loadDefaultIgnoreFields in
  let ignoreFields := cfg_ignoreFields defaultConfig ++ default [] (opt_ignoreFields options) in
  let ignorePatterns := cfg_ignorePatterns defaultConfig ++ default [] (opt_ignorePatterns options) in
  let report := initial_report (length blueLogs) (length greenLogs) ignoreFields ignorePatterns in
  let maxLength := Nat.max (length blueLogs) (length greenLogs) in
  compare_loop fuel blueLogs greenLogs ignoreFields ignorePatterns 0 maxLength report.

End StoreComparator.

(** The tree a value of the store stands for, read to depth [n]. *)
Fixpoint read (n : nat) (σ : store) (v : hvalue) : option value :=
  match v with
  | HUndefined => Some VUndefined
  | HNull => Some VNull
  | HBool b => Some (VBool b)
  | HNum x => Some (VNum x)
  | HStr s => Some (VStr s)
  | HRef l =>
      match n with
      | O => None
      | S n' =>
          match σ !! l with
          | None => None
          | Some (HArray items) => VArr <$> mapM (read n' σ) items
          | Some (HObject fields) =>
              VObj <$> mapM (fun kv => (fun t => (fst kv, t)) <$> read n' σ (snd kv)) fields
          end
      end
  end.

End Store.


(** ** A reference [diff]

    Modelled from the spec: the [deep-diff] package is not among the
    sources. [reference_diff] follows §4.2 of the specification (Added: a
    key present in green and absent in blue; Deleted: a key present in
    blue and absent in green; Edited: values that differ at an identical
    path; ArrayChanged: the index and the item of an array that grew or
    shrank), in the order in which the package visits its operands. The
    comparator takes [diff] as a parameter: this one instantiates it in the
    examples. *)

Inductive jstype := TUndefined | TNull | TBoolean | TNumber | TString | TArray | TObject.

Definition realTypeOf (v : value) : jstype :=
  match v with
  | VUndefined => TUndefined
  | VNull => TNull
  | VBool _ => TBoolean
  | VNum _ => TNumber
  | VStr _ => TString
  | VArr _ => TArray
  | VObj _ => TObject
  end.

Definition jstype_eqb (a b : jstype) : bool :=
  match a, b with
  | TUndefined, TUndefined | TNull, TNull | TBoolean, TBoolean | TNumber, TNumber
  | TString, TString | TArray, TArray | TObject, TObject => true
  | _, _ => false
  end.

(** [a === b] on primitives; two [NaN]s count as equal for the diff. *)
Definition same_primitive (a b : value) : bool :=
  match a, b with
  | VUndefined, VUndefined | VNull, VNull => true
  | VBool x, VBool y => Bool.eqb x y
  | VNum S754_nan, VNum S754_nan => true
  | VNum x, VNum y => SFeqb x y
  | VStr x, VStr y => String.eqb x y
  | _, _ => false
  end.

Definition diff_path (p : list pathElem) : option (list pathElem) :=
  match p with
  | [] => None
  | _ => Some p
  end.

Definition DiffNew (p : list pathElem) (rhs : value) : Diff value :=
  {| d_kind := KindN; d_path := diff_path p; d_lhs := VUndefined; d_rhs := rhs;
     d_index := None; d_item := None |}.
Definition DiffDeleted (p : list pathElem) (lhs : value) : Diff value :=
  {| d_kind := KindD; d_path := diff_path p; d_lhs := lhs; d_rhs := VUndefined;
     d_index := None; d_item := None |}.
Definition DiffEdit (p : list pathElem) (lhs rhs : value) : Diff value :=
  {| d_kind := KindE; d_path := diff_path p; d_lhs := lhs; d_rhs := rhs;
     d_index := None; d_item := None |}.
Definition DiffArray (p : list pathElem) (i : nat) (it : DiffItem value) : Diff value :=
  {| d_kind := KindA; d_path := diff_path p; d_lhs := VUndefined; d_rhs := VUndefined;
     d_index := Some i; d_item := Some it |}.

(** The items an array has beyond the length of the other, last first. *)
Definition array_tail (p : list pathElem) (k : DiffKind) (longer : list value) (shorter : nat)
  : list (Diff value) :=
  List.map
    (fun i =>
       let v := default VUndefined (longer !! i) in
       DiffArray p i
         (match k with
          | KindD => {| item_kind := KindD; item_lhs := v; item_rhs := VUndefined |}
          | _ => {| item_kind := KindN; item_lhs := VUndefined; item_rhs := v |}
          end))
    (rev (seq shorter (length longer - shorter))).

Fixpoint deepDiff (lhs rhs : value) (ldefined rdefined : bool) (currentPath : list pathElem)
  {struct lhs} : list (Diff value) :=
  if negb ldefined && rdefined then [DiffNew currentPath rhs]
  else if negb rdefined && ldefined then [DiffDeleted currentPath lhs]
  else if negb (jstype_eqb (realTypeOf lhs) (realTypeOf rhs)) then [DiffEdit currentPath lhs rhs]
  else
    match lhs, rhs with
    | VArr la, VArr ra =>
        array_tail currentPath KindN ra (length la)
        ++ array_tail currentPath KindD la (length ra)
        ++ concat (rev
             ((fix elems (la ra : list value) (i : nat) : list (list (Diff value)) :=
                 match la, ra with
                 | x :: la', y :: ra' =>
                     deepDiff x y true true (currentPath ++ [PIdx i]) :: elems la' ra' (S i)
                 | _, _ => []
                 end) la ra 0%nat))
    | VObj fa, VObj fb =>
        (fix akeys (fa : list (string * value)) : list (Diff value) :=
           match fa with
           | [] => []
           | (k, v) :: rest =>
               match own_property k fb with
               | Some w => deepDiff v w true true (currentPath ++ [PKey k])
               | None => deepDiff v VUndefined true false (currentPath ++ [PKey k])
               end ++ akeys rest
           end) fa
        ++ flat_map
             (fun kw =>
                match own_property (fst kw) fa with
                | Some _ => []
                | None =>
                    if String.eqb (fst kw) "" then []
                    else [DiffNew (currentPath ++ [PKey (fst kw)]) (snd kw)]
                end) fb
    | _, _ => if same_primitive lhs rhs then [] else [DiffEdit currentPath lhs rhs]
    end.

Definition is_undefined (v : value) : bool :=
  match v with
  | VUndefined => true
  | _ => false
  end.

Definition reference_diff (lhs rhs : value) : option (list (Diff value)) :=
  match deepDiff lhs rhs (negb (is_undefined lhs)) (negb (is_undefined rhs)) [] with
  | [] => None
  | changes => Some changes
  end.

Definition no_config : Config := {| cfg_ignoreFields := []; cfg_ignorePatterns := [] |}.
Definition no_options : Options :=
  {| opt_ignoreFields := None; opt_ignorePatterns := None; opt_matchField := None |}.
(** ** src/rag/ragAnalyzer.js: the pattern catalog *)

(** The values [result.score] takes: an integer, or [NaN] once
    [undefined] has been added to it. *)
Inductive number := Int (n : Z) | NaN.

(** [a + x], where [None] is [undefined]. *)
Definition plus (a : number) (x : option Z) : number :=
  match a, x with
  | Int n, Some z => Int (n + z)
  | _, _ => NaN
  end.

(** *** Binary64 numbers

    [2 ^ e], and the [e] with [2 ^ e <= x < 2 ^ (e + 1)] for a positive
    [x]. *)
Definition pow2 (e : Z) : Q := (2 ^ e)%Q.

Definition log2_floor (x : Q) : Z :=
  let k := Z.log2 (Qnum x) - Z.log2 (Zpos (Qden x)) in
  if Qle_bool (pow2 k) x then k else k - 1.

(** The nearest integer, a half going to the even one. *)
Definition round_half_even (x : Q) : Z :=
  let f := Qfloor x in
  match (x - inject_Z f ?= 1 # 2)%Q with
  | Lt => f
  | Gt => f + 1
  | Eq => if Z.even f then f else f + 1
  end.

(** The nearest number with a significand of 53 bits, for a positive [x]. *)
Definition nearest64 (x : Q) : Q :=
  let e := log2_floor x - 52 in
  (inject_Z (round_half_even (x / pow2 e)) * pow2 e)%Q.

(** The binary64 number nearest to [x]. The exponent is not bounded: the
    multipliers and the scores stay far inside the normal range. *)
Definition binary64 (x : Q) : Q :=
  match (x ?= 0)%Q with
  | Eq => 0%Q
  | Gt => Qred (nearest64 x)
  | Lt => Qred (- nearest64 (- x))
  end.

(** [x * y] on binary64 numbers. *)
Definition times (x y : Q) : Q := binary64 (x * y).

(** The number a finite [spec_float] denotes. *)
Definition SF2Q (f : spec_float) : Q :=
  match f with
  | S754_finite s m e => ((if s then - 1 else 1) * inject_Z (Zpos m) * pow2 e)%Q
  | _ => 0%Q
  end.

(** [Math.round(x)]: the nearest integer, halves upwards. *)
Definition Math_round (x : Q) : Z := Qfloor (x + (1 # 2)).

(** [Math.round(a * modifier)] *)
Definition round_times (a : number) (modifier : Q) : number :=
  match a with
  | Int n => Int (Math_round (times (inject_Z n) modifier))
  | NaN => NaN
  end.

(** [a >= k] *)
Definition at_least (a : number) (k : Z) : bool :=
  match a with
  | Int n => k <=? n
  | NaN => false
  end.

Record LevelInfo := level_info { li_score : Z; li_category : string }.

Definition LOG_LEVEL_SEVERITY : list (string * LevelInfo) := [
  ("fatal", level_info 100 "FATAL");
  ("critical", level_info 100 "CRITICAL");
  ("emergency", level_info 100 "EMERGENCY");
  ("panic", level_info 100 "PANIC");
  ("error", level_info 80 "ERROR");
  ("err", level_info 80 "ERROR");
  ("severe", level_info 80 "SEVERE");
  ("alert", level_info 75 "ALERT");
  ("warn", level_info 50 "WARNING");
  ("warning", level_info 50 "WARNING");
  ("caution", level_info 45 "WARNING");
  ("notice", level_info 20 "NOTICE");
  ("notic", level_info 20 "NOTICE")
].

(** The names every object literal inherits from [Object.prototype]. *)
Definition Object_prototype_properties : list string := [
  "constructor"; "__defineGetter__"; "__defineSetter__"; "hasOwnProperty";
  "__lookupGetter__"; "__lookupSetter__"; "isPrototypeOf"; "propertyIsEnumerable";
  "toString"; "valueOf"; "__proto__"; "toLocaleString"
].

(** What [LOG_LEVEL_SEVERITY[logLevel]] evaluates to: an entry of the
    table, a member of [Object.prototype] (truthy, without [score] and
    [category]), or [undefined]. *)
Inductive LevelLookup := Own (info : LevelInfo) | Inherited | Missing.


Definition lookup_level (logLevel : string) : LevelLookup :=
  match own_property logLevel LOG_LEVEL_SEVERITY with
  | Some info => Own info
  | None => if Str.mem logLevel Object_prototype_properties then Inherited else Missing
  end.



Definition NEGATIVE_ACTION_KEYWORDS_literal : list (string * Z) := [
  ("failed", 15);
  ("failure", 15);
  ("fail", 12);
  ("failing", 12);
  ("error", 15);
  ("errors", 15);
  ("errored", 15);
  ("exception", 20);
  ("exceptions", 20);
  ("threw", 15);
  ("thrown", 15);
  ("throw", 12);
  ("unable", 12);
  ("cannot", 12);
  ("can't", 12);
  ("couldn't", 12);
  ("could not", 12);
  ("won't", 10);
  ("wouldn't", 10);
  ("would not", 10);
  ("should not", 8);
  ("must not", 10);
  ("missing", 12);
  ("absent", 10);
  ("not found", 15);
  ("notfound", 15);
  ("no such", 12);
  ("does not exist", 12);
  ("doesn't exist", 12);
  ("nonexistent", 10);
  ("not set", 12);
  ("unset", 10);
  ("not defined", 12);
  ("not available", 12);
  ("unavailable", 12);
  ("undefined", 18);
  ("null", 15);
  ("nil", 12);
  ("none", 10);
  ("n/a", 12);
  ("empty", 10);
  ("blank", 8);
  ("invalid", 12);
  ("malformed", 12);
  ("corrupt", 15);
  ("corrupted", 15);
  ("broken", 12);
  ("bad", 8);
  ("illegal", 12);
  ("incorrect", 10);
  ("wrong", 8);
  ("mismatch", 10);
  ("inconsistent", 12);
  ("timeout", 15);
  ("timed out", 15);
  ("timedout", 15);
  ("expired", 10);
  ("expiration", 8);
  ("deadline exceeded", 15);
  ("refused", 15);
  ("refused connection", 18);
  ("connection refused", 18);
  ("disconnected", 12);
  ("disconnect", 10);
  ("unreachable", 15);
  ("connection failed", 18);
  ("connection error", 18);
  ("network error", 15);
  ("connection lost", 15);
  ("connection reset", 12);
  ("connection closed", 10);
  ("denied", 12);
  ("forbidden", 12);
  ("unauthorized", 12);
  ("unauthenticated", 12);
  ("permission denied", 15);
  ("access denied", 15);
  ("not permitted", 12);
  ("not allowed", 10);
  ("crash", 20);
  ("crashed", 20);
  ("abort", 15);
  ("aborted", 15);
  ("terminated", 12);
  ("killed", 12);
  ("segfault", 25);
  ("segmentation fault", 25);
  ("core dump", 20);
  ("panic", 20);
  ("fatal", 20);
  ("retry", 8);
  ("retrying", 8);
  ("retried", 8);
  ("recovering", 8);
  ("recovery", 8);
  ("fallback", 8);
  ("degraded", 10);
  ("rejected", 12);
  ("reject", 10);
  ("declined", 10);
  ("refused", 12);
  ("unsuccessful", 15);
  ("incomplete", 10);
  ("partial", 8);
  ("skipped", 8);
  ("ignored", 6);
  ("dropped", 12);
  ("lost", 12);
  ("blocked", 10);
  ("stuck", 10);
  ("hung", 12);
  ("frozen", 12);
  ("unresponsive", 15)
].

Definition NEGATIVE_ACTION_KEYWORDS : list (string * Z) :=
  object_literal NEGATIVE_ACTION_KEYWORDS_literal.

Definition NULL_VALUE_INDICATORS : list string := [
  "undefined";
  "null";
  "nil";
  "none";
  "empty";
  "n/a";
  "na";
  "not available";
  "not set";
  "unset";
  "missing";
  "absent";
  "void";
  "blank";
  (Str.dquote +:+ Str.dquote);
  "''";
  "[]";
  "{}";
  "<null>";
  "<undefined>";
  "<empty>";
  "<none>";
  "[null]";
  "[undefined]";
  "(null)";
  "(undefined)";
  "NaN";
  "unknown";
  "not defined"
].

Definition FAILURE_STATUS_INDICATORS : list string := [
  "failed";
  "failure";
  "error";
  "err";
  "unsuccessful";
  "rejected";
  "denied";
  "refused";
  "timeout";
  "timed out";
  "expired";
  "invalid";
  "broken";
  "corrupt";
  "disconnected";
  "unreachable";
  "unavailable";
  "down";
  "offline";
  "stopped";
  "terminated";
  "aborted";
  "crashed";
  "killed";
  "dead";
  "exception";
  "fault";
  "bad";
  "wrong";
  "incorrect";
  "mismatch";
  "conflict";
  "blocked";
  "stuck";
  "hung";
  "frozen";
  "unresponsive";
  "skipped";
  "ignored";
  "dropped";
  "lost"
].

Record Pattern := { regex : RegExp.t; p_score : Z; category : string }.

(** [{ regex: /src/i, score, category }] *)
Definition pattern_i (src : string) (score : Z) (cat : string) : Pattern :=
  {| regex := RegExp.literal src true; p_score := score; category := cat |}.

(** [v.replace(/[.*+?^${}()|[\]\\]/g, '\\$&')] *)
Definition is_special (c : ascii) : bool :=
  existsb (Ascii.eqb c) (list_ascii_of_string ".*+?^${}()|[]\").

Fixpoint escapeRegExp (s : string) : string :=
  match s with
  | EmptyString => EmptyString
  | String c s' =>
      if is_special c then String "\" (String c (escapeRegExp s'))
      else String c (escapeRegExp s')
  end.

Definition buildFieldValuePatterns : list Pattern :=
  let nullValueRegex := String.concat "|" (List.map escapeRegExp NULL_VALUE_INDICATORS) in
  let failureRegex := String.concat "|" (List.map escapeRegExp FAILURE_STATUS_INDICATORS) in
  [ pattern_i ("[A-Za-z][A-Za-z0-9_ ]*:\s*(" +:+ nullValueRegex +:+ ")\s*($|[,;\]\)\}])")
      28 "NULL_VALUE_ASSIGNMENT";
    pattern_i ("[A-Za-z][A-Za-z0-9_]*\s*=\s*(" +:+ nullValueRegex +:+ ")\s*($|[,;\]\)\}])")
      28 "NULL_VALUE_ASSIGNMENT";
    pattern_i ("\b(is|was|are|were|became|becomes)\s+(" +:+ nullValueRegex +:+ ")\b")
      25 "NULL_STATE";
    pattern_i ("\b(got|received|returned|yielded|produced|gave|gives)\s+(" +:+ nullValueRegex +:+ ")\b")
      25 "NULL_RETURN";
    pattern_i ("[A-Za-z][A-Za-z0-9_ ]*:\s*(" +:+ failureRegex +:+ ")\s*($|[,;\]\)\}])")
      25 "STATUS_FAILURE";
    pattern_i ("[A-Za-z][A-Za-z0-9_]*\s*=\s*(" +:+ failureRegex +:+ ")\s*($|[,;\]\)\}])")
      25 "STATUS_FAILURE" ].

Definition STRUCTURAL_PATTERNS_static : list Pattern := [
  pattern_i ("->?\s*(undefined|null|nil|none|false|empty|0|" +:+ Str.dquote +:+ Str.dquote +:+ "|''|\[\]|\{\}|N\/A)\s*($|[,;])") 28 "NULL_STATE";
  pattern_i "=>\s*(undefined|null|nil|none|false|empty|N\/A)\s*($|[,;])" 28 "NULL_STATE";
  pattern_i "[A-Za-z][A-Za-z0-9_ ]*:\s*undefined\s*($|[,;)\]}])" 30 "UNDEFINED_VALUE";
  pattern_i "[A-Za-z][A-Za-z0-9_ ]*:\s*null\s*($|[,;)\]}])" 28 "NULL_VALUE";
  pattern_i "[A-Za-z][A-Za-z0-9_ ]*:\s*N\/A\s*($|[,;)\]}])" 25 "NOT_AVAILABLE";
  pattern_i "[A-Za-z][A-Za-z0-9_ ]*:\s*(empty|none|nil|missing)\s*($|[,;)\]}])" 25 "EMPTY_VALUE";
  pattern_i "[A-Za-z][A-Za-z0-9_ ]*:\s*(failed|failure|error|timeout)\s*($|[,;)\]}])" 28 "STATUS_FAILURE";
  pattern_i "[A-Za-z][A-Za-z0-9_]*\s*=\s*undefined\b" 28 "UNDEFINED_VALUE";
  pattern_i "[A-Za-z][A-Za-z0-9_]*\s*=\s*null\b" 26 "NULL_VALUE";
  pattern_i "[A-Za-z][A-Za-z0-9_]*\s*=\s*N\/A\b" 24 "NOT_AVAILABLE";
  pattern_i "\b\w+\s+(is|was|are|were)\s+(undefined|null|empty|missing|invalid|unavailable)\b" 25 "STATE_INVALID";
  pattern_i "returned?\s+(undefined|null|nil|none|nothing|empty|false)" 25 "NULL_RETURN";
  pattern_i "returns?\s+(undefined|null|nil|none|nothing|empty|false)" 25 "NULL_RETURN";
  pattern_i "result\s*(is|was|:)?\s*(undefined|null|empty|none|invalid)" 25 "NULL_RETURN";
  pattern_i "(got|received|yields?|gives?|gave)\s+(undefined|null|empty|nothing|false)" 24 "NULL_RETURN";
  pattern_i "\b\w+\s+not\s+found\b" 22 "NOT_FOUND";
  pattern_i "\bnot\s+found\s*[:\-]" 24 "NOT_FOUND";
  pattern_i "\b(could|can)n?'?t?\s+(find|locate|get|retrieve|fetch|load|access)\b" 20 "NOT_FOUND";
  pattern_i "\b(no|zero|0)\s+(results?|records?|rows?|entries?|items?|data)\s+(found|returned|available)" 20 "EMPTY_RESULT";
  pattern_i "\bdoes\s*n'?o?t?\s+exist\b" 22 "NOT_FOUND";
  pattern_i "\b\w+\s+failed\s*(to|with|:|$)" 22 "OPERATION_FAILED";
  pattern_i "\bfailed\s+to\s+\w+" 22 "OPERATION_FAILED";
  pattern_i "\bfailure\s+(in|on|at|during|while|of)\b" 20 "OPERATION_FAILED";
  pattern_i "\b(operation|request|call|action|process)\s+(failed|unsuccessful|rejected)" 22 "OPERATION_FAILED";
  pattern_i "\bexception\s*:" 28 "EXCEPTION";
  pattern_i "\b(throw|threw|thrown|raising?|raised?)\s+\w*exception" 28 "EXCEPTION";
  pattern_i "\b\w+exception\b" 22 "EXCEPTION";
  pattern_i "\b\w+error\b" 18 "ERROR_TYPE";
  pattern_i "\berror\s*:\s*.+" 22 "ERROR_MESSAGE";
  pattern_i "\b(fatal|critical|severe)\s+(error|exception|failure)" 30 "CRITICAL_ERROR";
  pattern_i "\b(get|fetch|retrieve|load|read)\s+\w+\s*(variable|value|data|config|setting|property).*[:\-=>\s]+(undefined|null|empty|missing)" 32 "STATE_RETRIEVAL_FAILURE";
  pattern_i "\b(session|context|state)\s+\w*\s*(not\s+found|undefined|null|expired|invalid|missing|empty)" 30 "SESSION_ERROR";
  pattern_i "\bvariable\s+(not\s+found|undefined|null|missing|empty)" 28 "STATE_RETRIEVAL_FAILURE";
  pattern_i "\b(user|account|profile|session)\s*(id|ID|Id)?\s*[:\-=>]?\s*(undefined|null|missing|not\s+found|N\/A)" 30 "IDENTITY_ERROR";
  pattern_i "\bcache\s+(miss|failure|error|expired|empty|invalid)" 24 "CACHE_ERROR";
  pattern_i "\b(lookup|search|query)\s+(failed|returned\s+nothing|no\s+results?)" 22 "LOOKUP_FAILURE";
  pattern_i "\b(sql|database|db|query|transaction)\s*(error|exception|failure|failed)" 26 "DATABASE_ERROR";
  pattern_i "\bquery\s+(failed|error|timeout)" 24 "DATABASE_ERROR";
  pattern_i "\bdeadlock\b" 28 "DATABASE_ERROR";
  pattern_i "\bduplicate\s+(key|entry|record)" 22 "DATABASE_ERROR";
  pattern_i "\bforeign\s+key\s+(violation|constraint|error)" 24 "DATABASE_ERROR";
  pattern_i "\bconnection\s+(to\s+)?(database|db)\s*(failed|refused|timeout|lost)" 26 "DATABASE_ERROR";
  pattern_i "\b(http|api|rest|graphql)\s*(error|failure|failed|exception)" 22 "API_ERROR";
  pattern_i "\bstatus\s*[=:]?\s*(4\d{2}|5\d{2})\b" 24 "HTTP_ERROR";
  pattern_i "\b(4\d{2}|5\d{2})\s+(error|response|status)" 24 "HTTP_ERROR";
  pattern_i "\bresponse\s*(is|was|:)?\s*(empty|null|undefined|invalid|malformed)" 24 "API_ERROR";
  pattern_i "\bapi\s+(call|request)\s+(failed|timeout|rejected)" 24 "API_ERROR";
  pattern_i "\bconnection\s+(failed|refused|reset|timeout|closed|lost|dropped)" 26 "CONNECTION_ERROR";
  pattern_i "\b(network|socket|tcp|udp)\s*(error|failure|timeout|unreachable)" 24 "NETWORK_ERROR";
  pattern_i "\bhost\s+(unreachable|unknown|not\s+found)" 24 "NETWORK_ERROR";
  pattern_i "\bdns\s+(error|failure|timeout|not\s+found)" 24 "NETWORK_ERROR";
  pattern_i "\bout\s+of\s+(memory|space|disk|resources|handles|connections)" 32 "RESOURCE_ERROR";
  pattern_i "\bmemory\s+(leak|overflow|exhausted|allocation\s+failed)" 30 "MEMORY_ERROR";
  pattern_i "\bheap\s+(overflow|exhausted|full|out\s+of)" 30 "MEMORY_ERROR";
  pattern_i "\bstack\s+(overflow|exhausted)" 32 "MEMORY_ERROR";
  pattern_i "\b(resource|handle|file|socket)\s+(limit|exhausted|leak)" 26 "RESOURCE_ERROR";
  pattern_i "\b(assertion|assert)\s+(failed|error|failure)" 28 "ASSERTION_FAILURE";
  pattern_i "\bvalidation\s+(failed|error|failure|unsuccessful)" 22 "VALIDATION_ERROR";
  pattern_i "\binvalid\s+\w+\s*(format|type|value|input|data|syntax|schema)" 20 "VALIDATION_ERROR";
  pattern_i "\b(schema|format|type)\s+(mismatch|error|invalid|violation)" 22 "VALIDATION_ERROR";
  pattern_i "\brequired\s+(field|parameter|argument|property)\s+(missing|not\s+provided|undefined|null)" 26 "VALIDATION_ERROR";
  pattern_i "\b(auth|authentication|authorization|authz?|login)\s*(failed|failure|error|denied|rejected|invalid)" 24 "AUTH_ERROR";
  pattern_i "\btoken\s+(expired|invalid|missing|rejected|revoked|not\s+found)" 24 "AUTH_ERROR";
  pattern_i "\bcredentials?\s+(invalid|expired|rejected|failed|incorrect|wrong)" 24 "AUTH_ERROR";
  pattern_i "\b(access|permission)\s+(denied|forbidden|refused|unauthorized)" 24 "AUTH_ERROR";
  pattern_i "\bunauthorized\s+(access|request|operation)" 24 "AUTH_ERROR";
  pattern_i "\bconfig(uration)?\s*(error|missing|invalid|not\s+found|failed|undefined)" 22 "CONFIG_ERROR";
  pattern_i "\bmissing\s+(required\s+)?(config|setting|parameter|argument|env|environment)" 22 "CONFIG_ERROR";
  pattern_i "\benvironment\s+variable\s+(not\s+set|missing|undefined|empty)" 24 "CONFIG_ERROR";
  pattern_i "\b(timeout|timed?\s*out)\s*(error|exception|failure|occurred|reached|exceeded)?" 24 "TIMEOUT";
  pattern_i "\b(operation|request|connection|query)\s+timed?\s*out" 24 "TIMEOUT";
  pattern_i "\bexceeded\s+(timeout|time\s*limit|deadline)" 24 "TIMEOUT";
  pattern_i "\b(parse|parsing|deserialize|unmarshal)\s*(error|failed|failure|exception)" 22 "PARSE_ERROR";
  pattern_i "\b(json|xml|yaml|csv)\s*(parse|parsing)?\s*(error|failed|invalid|malformed)" 22 "PARSE_ERROR";
  pattern_i "\bsyntax\s+error" 24 "PARSE_ERROR";
  pattern_i "\bmalformed\s+(data|input|request|response|message|payload)" 22 "PARSE_ERROR";
  pattern_i "\bmessage\s+(processing|handling)\s+(failed|error|rejected)" 24 "MESSAGE_ERROR";
  pattern_i "\b(event|message|request)\s+(dropped|lost|rejected|undelivered|unprocessed)" 24 "MESSAGE_ERROR";
  pattern_i "\bqueue\s+(full|overflow|blocked|error)" 22 "QUEUE_ERROR";
  pattern_i "\b(data|record|entry)\s+(corrupt|corrupted|inconsistent|invalid|missing)" 26 "DATA_INTEGRITY";
  pattern_i "\bchecksum\s+(mismatch|error|failed|invalid)" 26 "DATA_INTEGRITY";
  pattern_i "\bintegrity\s+(check|violation|error|failed)" 26 "DATA_INTEGRITY";
  pattern_i "\b(lock|mutex|semaphore)\s+(timeout|failed|error|conflict|deadlock)" 26 "CONCURRENCY_ERROR";
  pattern_i "\brace\s+condition" 26 "CONCURRENCY_ERROR";
  pattern_i "\bconcurrent\s+(access|modification)\s+(error|conflict|violation)" 24 "CONCURRENCY_ERROR"
].

Definition STRUCTURAL_PATTERNS : list Pattern :=
  STRUCTURAL_PATTERNS_static ++ buildFieldValuePatterns.

Record Modifier := { m_regex : RegExp.t; multiplier : Q }.

(** A modifier with the flag [i]; [mult] is the decimal literal of the
    source. *)
Definition modifier_i (src : string) (mult : Q) : Modifier :=
  {| m_regex := RegExp.literal src true; multiplier := binary64 mult |}.

Definition amplifiers : list Modifier := [
  modifier_i "\b(critical|severe|fatal|serious|major)\b" (15 # 10);
  modifier_i "\bunexpected\b" (13 # 10);
  modifier_i "\bunhandled\b" (14 # 10);
  modifier_i "\buncaught\b" (14 # 10)
].

Definition dampeners : list Modifier := [
  modifier_i "\b(no\s+error|without\s+error|error\s+free|successfully)\b" (3 # 10);
  modifier_i "\b(checking\s+for|looking\s+for|searching\s+for)\b" (5 # 10);
  modifier_i "\bif\s+.*\s+(error|fail|null|undefined)\b" (4 # 10);
  modifier_i "\b(test|mock|stub|fake|dummy)\b" (5 # 10);
  modifier_i "\bdebug(ging)?\b" (7 # 10)
].

Definition ERROR_SCORE_THRESHOLD : Z := 25.
Definition HIGH_CONFIDENCE_THRESHOLD : Z := 50.

(** ** src/rag/ragAnalyzer.js: the error scorer *)

Inductive Confidence := LOW | MEDIUM | HIGH.

Record ErrorAnalysis := {
  score : number;
  categories : list (option string);     (* [None] is a pushed [undefined] *)
  reasons : list string;
  isError : bool;
  confidence : Confidence
}.

Definition set_score (s : number) (r : ErrorAnalysis) : ErrorAnalysis :=
  {| score := s; categories := categories r; reasons := reasons r;
     isError := isError r; confidence := confidence r |}.
Definition push_category (c : option string) (r : ErrorAnalysis) : ErrorAnalysis :=
  {| score := score r; categories := categories r ++ [c]; reasons := reasons r;
     isError := isError r; confidence := confidence r |}.
Definition push_reason (s : string) (r : ErrorAnalysis) : ErrorAnalysis :=
  {| score := score r; categories := categories r; reasons := reasons r ++ [s];
     isError := isError r; confidence := confidence r |}.
Definition set_isError (b : bool) (r : ErrorAnalysis) : ErrorAnalysis :=
  {| score := score r; categories := categories r; reasons := reasons r;
     isError := b; confidence := confidence r |}.
Definition set_confidence (c : Confidence) (r : ErrorAnalysis) : ErrorAnalysis :=
  {| score := score r; categories := categories r; reasons := reasons r;
     isError := isError r; confidence := c |}.

Definition initial_result : ErrorAnalysis :=
  {| score := Int 0; categories := []; reasons := []; isError := false; confidence := LOW |}.

(** [v.toLowerCase()]: only a string has the method. *)
Definition toLowerCase_method (v : value) : completion string :=
  match v with
  | VStr s => mret (Str.toLowerCase s)
  | _ => Throw (TypeError "toLowerCase is not a function")
  end.

(** [v?.key] *)
Definition optional_get (v : value) (key : string) : value :=
  match v with
  | VUndefined | VNull => VUndefined
  | _ => get v key
  end.

(** 1. the log level *)
Definition score_level (logLevel : string) (result : ErrorAnalysis) : ErrorAnalysis :=
  if String.eqb logLevel "" then result
  else
    match lookup_level logLevel with
    | Missing => result
    | Own levelInfo =>
        push_reason ("Log level: " +:+ Str.toUpperCase logLevel)
          (push_category (Some (li_category levelInfo))
             (set_score (plus (score result) (Some (li_score levelInfo))) result))
    | Inherited =>
        push_reason ("Log level: " +:+ Str.toUpperCase logLevel)
          (push_category None (set_score (plus (score result) None) result))
    end.

(** 2. the negative action keywords *)
Definition score_keyword (messageLower : string) (result : ErrorAnalysis) (kw : string * Z)
  : ErrorAnalysis :=
  let '(keyword, sc) := kw in
  if Str.includes messageLower keyword then
    push_reason ("Keyword: " +:+ Str.dquote +:+ keyword +:+ Str.dquote)
      (set_score (plus (score result) (Some sc)) result)
  else result.

(** 3. the structural patterns *)
Definition score_pattern (message : string) (result : ErrorAnalysis) (pattern : Pattern)
  : ErrorAnalysis :=
  if RegExp.test (regex pattern) message then
    let r1 := set_score (plus (score result) (Some (p_score pattern))) result in
    let r2 :=
      if existsb (fun c => match c with Some s => String.eqb s (category pattern) | None => false end)
           (categories r1)
      then r1 else push_category (Some (category pattern)) r1 in
    push_reason ("Pattern: " +:+ category pattern) r2
  else result.

(** 4. the context modifiers: the state is the running [modifier] and the
    result whose reasons grow. *)
Definition apply_modifier (why : string) (message : string) (st : Q * ErrorAnalysis) (md : Modifier)
  : Q * ErrorAnalysis :=
  if RegExp.test (m_regex md) message then
    (times (fst st) (multiplier md), push_reason why (snd st))
  else st.

Definition analyzeLogForErrors (log : value) : completion ErrorAnalysis :=
  let result := initial_result in
  if negb (truthy log) then mret result
  else
    let message := js_or (get log "message") (VStr "") in
    lowered ← toLowerCase_method
                (js_or (js_or (optional_get (get log "log") "level") (get log "level")) (VStr ""));
    let logLevel := Str.trim lowered in
    let result := score_level logLevel result in
    messageLower ← toLowerCase_method message;
    let result := fold_left (score_keyword messageLower) NEGATIVE_ACTION_KEYWORDS result in
    let message := match message with VStr s => s | _ => "" end in
    let result := fold_left (score_pattern message) STRUCTURAL_PATTERNS result in
    let '(modifier, result) :=
      fold_left (apply_modifier "Amplifier: severity increased" message) amplifiers (1%Q, result) in
    let '(modifier, result) :=
      fold_left (apply_modifier "Dampener: possible false positive" message) dampeners
        (modifier, result) in
    let result := set_score (round_times (score result) modifier) result in
    let result := set_isError (at_least (score result) ERROR_SCORE_THRESHOLD) result in
    let result :=
      if at_least (score result) HIGH_CONFIDENCE_THRESHOLD then set_confidence HIGH result
      else if at_least (score result) ERROR_SCORE_THRESHOLD then set_confidence MEDIUM result
      else result in
    let result :=
      if (length (categories result) =? 0)%nat && isError result
      then push_category (Some "GENERAL_ERROR") result else result in
    mret result.

(** ** src/rag/ragAnalyzer.js: key/value extraction *)

Definition nullIndicators : list string := [
  "undefined";
  "null";
  "nil";
  "none";
  "n/a";
  "na";
  "empty";
  "blank";
  (Str.dquote +:+ Str.dquote);
  "''";
  "[]";
  "{}";
  "<null>";
  "<undefined>";
  "<empty>";
  "<none>";
  "[null]";
  "[undefined]";
  "(null)";
  "(undefined)";
  "nan";
  "unknown";
  "not defined";
  "not set";
  "unset";
  "missing";
  "absent";
  "void";
  "failed";
  "failure";
  "error";
  "timeout";
  "unavailable"
].

Definition isNullOrErrorValue (v : string) : bool :=
  if String.eqb v "" then true
  else
    let lowerValue := Str.trim (Str.toLowerCase v) in
    existsb (fun ind => String.eqb lowerValue ind || Str.startsWith lowerValue ind) nullIndicators.

Record KVEntry := { kv_value : string; isInvalid : bool; count : nat }.

(** [/src/g] *)
Definition kvPatterns : list RegExp.t := [
  RegExp.literal "([A-Za-z][A-Za-z0-9_ ]*?)\s*:\s*([^\s,;)\]]+)" false;
  RegExp.literal "([A-Za-z][A-Za-z0-9_]*)\s*=\s*([^\s,;)\]]+)" false;
  RegExp.literal "([A-Za-z][A-Za-z0-9_ ]*?)\s*->\s*([^\s,;)\]]+)" false;
  RegExp.literal "([A-Za-z][A-Za-z0-9_]*)\s*=>\s*([^\s,;)\]]+)" false
].

(** The body of the [while] loop for one match: [key] and [value] are
    [match[1].trim().toLowerCase()] and [match[2].trim()]. *)
Definition store_pair (kvMap : gmap string KVEntry) (key value : string) : gmap string KVEntry :=
  if (String.length key <? 3)%nat || Str.mem key ["the"; "and"; "for"; "with"] then kvMap
  else
    let isInvalidValue := isNullOrErrorValue value in
    match kvMap !! key with
    | None => <[key := {| kv_value := value; isInvalid := isInvalidValue; count := 1 |}]> kvMap
    | Some existing =>
        let counted := {| kv_value := kv_value existing; isInvalid := isInvalid existing;
                          count := S (count existing) |} in
        if isInvalid counted && negb isInvalidValue then
          <[key := {| kv_value := value; isInvalid := false; count := count counted |}]> kvMap
        else <[key := counted]> kvMap
    end.

(** The successive results of [pattern.exec(message)] from [lastIndex] on,
    until it returns [null]; [None] when the loop does not end (an empty
    match leaves [lastIndex] where it is). *)
Fixpoint exec_loop (fuel : nat) (pattern : RegExp.t) (message : string) (lastIndex : nat)
  : option (list RegExp.result) :=
  match fuel with
  | O => None
  | S fuel' =>
      match RegExp.exec pattern message lastIndex with
      | None => Some []
      | Some r => (fun rs => r :: rs) <$> exec_loop fuel' pattern message (RegExp.lastIndex r)
      end
  end.

Definition exec_all (pattern : RegExp.t) (message : string) : option (list RegExp.result) :=
  exec_loop (S (String.length message)) pattern message 0.

Definition pair_of_match (r : RegExp.result) : string * string :=
  (Str.toLowerCase (Str.trim (default "" (RegExp.group 1 r))),
   Str.trim (default "" (RegExp.group 2 r))).

Section KeyValuePairs.

(** [String(x)] for a number, as the language defines it. *)
Variable Number_toString : spec_float -> string.

(** The string [pattern.exec(message)] works on. *)
Fixpoint ToString (v : value) : string :=
  match v with
  | VUndefined => "undefined"
  | VNull => "null"
  | VBool true => "true"
  | VBool false => "false"
  | VNum x => Number_toString x
  | VStr s => s
  | VArr items =>
      String.concat ","
        ((fix each (l : list value) : list string :=
            match l with
            | [] => []
            | VUndefined :: l' => "" :: each l'
            | VNull :: l' => "" :: each l'
            | x :: l' => ToString x :: each l'
            end) items)
  | VObj _ => "[object Object]"
  end.

(** [log.message]: reading a property of [null] or [undefined] throws. *)
Definition message_of (log : value) : completion value :=
  match log with
  | VUndefined | VNull => Throw (TypeError "Cannot read properties of null or undefined")
  | _ => mret (js_or (get log "message") (VStr ""))
  end.

(** The pairs the four patterns extract from one message, in the order the
    loops visit them. *)
Fixpoint pairs_of_message (patterns : list RegExp.t) (message : string)
  : option (list (string * string)) :=
  match patterns with
  | [] => Some []
  | pattern :: rest =>
      ms ← exec_all pattern message;
      ps ← pairs_of_message rest message;
      Some (List.map pair_of_match ms ++ ps)
  end.

(** [extractKeyValuePairs(logs)], from a map that already holds [kvMap]:
    the outer [None] is a loop that does not end. *)
Fixpoint extract_from (kvMap : gmap string KVEntry) (logs : list value)
  : option (completion (gmap string KVEntry)) :=
  match logs with
  | [] => Some (mret kvMap)
  | log :: rest =>
      match message_of log with
      | Throw e => Some (Throw e)
      | Normal message =>
          pairs ← pairs_of_message kvPatterns (ToString message);
          extract_from (fold_left (fun m kv => store_pair m (fst kv) (snd kv)) pairs kvMap) rest
      end
  end.

Definition extractKeyValuePairs (logs : list value) : option (completion (gmap string KVEntry)) :=
  extract_from ∅ logs.

End KeyValuePairs.

(** * Specification-level definitions

    The definitions below are not part of the program: they state, in the
    words of the specification or as closed forms, what the functions
    above compute. *)

Section ExclusionSpec.
Context {engine : RegExpEngine}.

(** The exclusion rule as the specification words it: the full path or a
    segment of it is one of the exact names, or a pattern that compiles
    matches the full path or a segment. *)
Definition excluded_by_rules (fieldPath : string) (ignoreFields ignorePatterns : list string)
  : Prop :=
  fieldPath ∈ ignoreFields
  ∨ (∃ segment, segment ∈ Str.split "." fieldPath ∧ segment ∈ ignoreFields)
  ∨ (∃ pattern regex,
        pattern ∈ ignorePatterns ∧ RegExp_new pattern = Normal regex
        ∧ (RegExp_test regex fieldPath = true
           ∨ ∃ segment, segment ∈ Str.split "." fieldPath ∧ RegExp_test regex segment = true)).

(** Closed form of one pattern of the loop: a pattern that does not
    compile contributes nothing. *)
Definition pattern_applies (fieldPath : string) (pathParts : list string) (pattern : string) : bool :=
  match RegExp_new pattern with
  | Normal regex => RegExp_test regex fieldPath || existsb (RegExp_test regex) pathParts
  | Throw _ => false
  end.

(** Closed form of [shouldIgnoreField]. *)
Definition ignored (fieldPath : string) (ignoreFields ignorePatterns : list string) : bool :=
  Str.mem fieldPath ignoreFields
  || existsb (fun part => Str.mem part ignoreFields) (Str.split "." fieldPath)
  || existsb (pattern_applies fieldPath (Str.split "." fieldPath)) ignorePatterns.

(** Closed form of [removeIgnoredFields]. *)
Fixpoint filtered (obj : value) (ignoreFields ignorePatterns : list string) (parentPath : string)
  {struct obj} : value :=
  match obj with
  | VArr items =>
      VArr ((fix map_items (items : list value) (i : nat) : list value :=
               match items with
               | [] => []
               | item :: rest =>
                   filtered item ignoreFields ignorePatterns (index_path parentPath i)
                   :: map_items rest (S i)
               end) items 0%nat)
  | VObj fields =>
      VObj ((fix entries (fields : list (string * value)) : list (string * value) :=
               match fields with
               | [] => []
               | (key, v) :: rest =>
                   if ignored (join_path parentPath key) ignoreFields ignorePatterns
                   then entries rest
                   else (key, filtered v ignoreFields ignorePatterns (join_path parentPath key))
                        :: entries rest
               end) fields)
  | _ => obj
  end.

Fixpoint filtered_items (ignoreFields ignorePatterns : list string) (parentPath : string)
  (items : list value) (i : nat) : list value :=
  match items with
  | [] => []
  | item :: rest =>
      filtered item ignoreFields ignorePatterns (index_path parentPath i)
      :: filtered_items ignoreFields ignorePatterns parentPath rest (S i)
  end.

Fixpoint filtered_fields (ignoreFields ignorePatterns : list string) (parentPath : string)
  (fields : list (string * value)) : list (string * value) :=
  match fields with
  | [] => []
  | (key, v) :: rest =>
      if ignored (join_path parentPath key) ignoreFields ignorePatterns
      then filtered_fields ignoreFields ignorePatterns parentPath rest
      else (key, filtered v ignoreFields ignorePatterns (join_path parentPath key))
           :: filtered_fields ignoreFields ignorePatterns parentPath rest
  end.

(** The path [removeIgnoredFields] has built when it reaches the position
    [p] below [parentPath]. *)
Definition extend_path (parentPath : string) (e : pathElem) : string :=
  match e with
  | PKey k => join_path parentPath k
  | PIdx i => index_path parentPath i
  end.

Definition filter_path (parentPath : string) (p : list pathElem) : string :=
  fold_left extend_path p parentPath.

(** No field on the way from [parentPath] down [p] is excluded. *)
Fixpoint kept (ignoreFields ignorePatterns : list string) (parentPath : string)
  (p : list pathElem) : bool :=
  match p with
  | [] => true
  | PKey k :: p' =>
      negb (ignored (join_path parentPath k) ignoreFields ignorePatterns)
      && kept ignoreFields ignorePatterns (join_path parentPath k) p'
  | PIdx i :: p' => kept ignoreFields ignorePatterns (index_path parentPath i) p'
  end.

End ExclusionSpec.

(** [at_position v p u]: [u] is the value at position [p] of [v]; keys
    select properties, indices select array elements. *)
Inductive at_position : value -> list pathElem -> value -> Prop :=
| pos_here v : at_position v [] v
| pos_key fields k w p u :
    (k, w) ∈ fields -> at_position w p u -> at_position (VObj fields) (PKey k :: p) u
| pos_index items i w p u :
    items !! i = Some w -> at_position w p u -> at_position (VArr items) (PIdx i :: p) u.




(** How the loop of [compareWorkflowLogs] treats index [i]. *)
Inductive Pairing := GreenOnly | BlueOnly | Compared.

Definition pairing (blueLogs greenLogs : list value) (i : nat) : Pairing :=
  if negb (truthy (at_index blueLogs i)) then GreenOnly
  else if negb (truthy (at_index greenLogs i)) then BlueOnly
  else Compared.

Definition is_pairing (k : Pairing) (blueLogs greenLogs : list value) (i : nat) : bool :=
  match pairing blueLogs greenLogs i, k with
  | GreenOnly, GreenOnly | BlueOnly, BlueOnly | Compared, Compared => true
  | _, _ => false
  end.

(** Two reports that differ at most in the patterns they list. *)
Definition same_findings {V} (r r' : Report V) : Prop :=
  summary r = summary r' ∧ countMismatch r = countMismatch r'
  ∧ sequenceDifferences r = sequenceDifferences r'
  ∧ logDifferences r = logDifferences r'
  ∧ blueOnlyLogs r = blueOnlyLogs r' ∧ greenOnlyLogs r = greenOnlyLogs r'
  ∧ ignoredFields r = ignoredFields r'.

Section ComparatorSpec.
Context {engine : RegExpEngine}.
Variable diff : value -> value -> option (list (Diff value)).

(** Closed form of [compareLogEntries]. *)
Definition compared (blueLog greenLog : value) (ignoreFields ignorePatterns : list string)
  : Comparison value :=
  let differences :=
    default [] (diff (filtered blueLog ignoreFields ignorePatterns "")
                     (filtered greenLog ignoreFields ignorePatterns "")) in
  {| hasDifferences := (0 <? length differences)%nat;
     differences := List.map to_entry differences |}.

(** Closed form of one iteration of [compareWorkflowLogs]. *)
Definition step (blueLogs greenLogs : list value) (ignoreFields ignorePatterns : list string)
  (report : Report value) (i : nat) : Report value :=
  match pairing blueLogs greenLogs i with
  | GreenOnly =>
      with_summary incr_greenOnly
        (push_greenOnly {| os_index := i; os_log := at_index greenLogs i |} report)
  | BlueOnly =>
      with_summary incr_blueOnly
        (push_blueOnly {| os_index := i; os_log := at_index blueLogs i |} report)
  | Compared =>
      let c := compared (at_index blueLogs i) (at_index greenLogs i) ignoreFields ignorePatterns in
      if hasDifferences c then
        push_logDifference
          {| ld_index := i;
             ld_blueLog := filtered (at_index blueLogs i) ignoreFields ignorePatterns "";
             ld_greenLog := filtered (at_index greenLogs i) ignoreFields ignorePatterns "";
             ld_differences := differences c |}
          (with_summary incr_mismatched report)
      else with_summary incr_matched report
  end.

End ComparatorSpec.

(** The four counters of a summary, added up. *)
Definition total (s : Summary) : nat :=
  matchedCount s + mismatchedCount s + blueOnlyCount s + greenOnlyCount s.

(** The indices below [n] that the loop pairs as [k]. *)
Definition indices (k : Pairing) (blueLogs greenLogs : list value) (n : nat) : list nat :=
  List.filter (is_pairing k blueLogs greenLogs) (seq 0 n).

Definition all_truthy (logs : list value) : Prop := Forall (fun v => truthy v = true) logs.




(** ** The error scorer, stage by stage *)

(** [log.log?.level || log.level || ''] and [log.message || '']. *)
Definition level_value (log : value) : value :=
  js_or (js_or (optional_get (get log "log") "level") (get log "level")) (VStr "").

Definition message_value (log : value) : value :=
  js_or (get log "message") (VStr "").

Definition string_or_falsy (v : value) : Prop :=
  truthy v = false ∨ ∃ s, v = VStr s.

(** The result after the level, keyword and pattern stages. *)
Definition accumulate (logLevel messageLower message : string) : ErrorAnalysis :=
  fold_left (score_pattern message) STRUCTURAL_PATTERNS
    (fold_left (score_keyword messageLower) NEGATIVE_ACTION_KEYWORDS
       (score_level logLevel initial_result)).

(** The modifier stage. *)
Definition with_modifiers (message : string) (result : ErrorAnalysis) : Q * ErrorAnalysis :=
  fold_left (apply_modifier "Dampener: possible false positive" message) dampeners
    (fold_left (apply_modifier "Amplifier: severity increased" message) amplifiers
       (1%Q, result)).

(** Rounding, the error flag, the confidence tier and the fallback
    category. *)
Definition classify (modifier : Q) (result : ErrorAnalysis) : ErrorAnalysis :=
  let result := set_score (round_times (score result) modifier) result in
  let result := set_isError (at_least (score result) ERROR_SCORE_THRESHOLD) result in
  let result :=
    if at_least (score result) HIGH_CONFIDENCE_THRESHOLD then set_confidence HIGH result
    else if at_least (score result) ERROR_SCORE_THRESHOLD then set_confidence MEDIUM result
    else result in
  if (length (categories result) =? 0)%nat && isError result
  then push_category (Some "GENERAL_ERROR") result else result.

(** The modifiers whose regular expression matches the message. *)
Definition matching (mods : list Modifier) (message : string) : list Modifier :=
  List.filter (fun md => RegExp.test (m_regex md) message) mods.

(** The product of the multipliers, in the order and in the arithmetic of
    the source: [from * m1 * ... * mk]. *)
Definition product (from : Q) (mods : list Modifier) : Q :=
  fold_left times (List.map multiplier mods) from.

(** [s >= k] holds: the score is a number, and at least [k]. *)
Definition reaches (s : number) (k : Z) : Prop := ∃ n, s = Int n ∧ k <= n.


(** The score of an analysis is a number, and at least [lo]. *)
Definition score_from (lo : Z) (r : ErrorAnalysis) : Prop := ∃ n, score r = Int n ∧ lo <= n.


(** ** The key/value map *)

(** A key the extractor stores: at least three characters, not a
    stopword. *)
Definition acceptable (key : string) : Prop :=
  (3 <= String.length key)%nat ∧ key ∉ ["the"; "and"; "for"; "with"].

(** The map after the pairs have been stored in order. *)
Definition store_all (kvMap : gmap string KVEntry) (pairs : list (string * string))
  : gmap string KVEntry :=
  fold_left (fun m kv => store_pair m (fst kv) (snd kv)) pairs kvMap.

(** What holds of every map the extractor builds. *)
Definition kv_invariant (kvMap : gmap string KVEntry) : Prop :=
  ∀ key e, kvMap !! key = Some e →
    acceptable key ∧ isInvalid e = isNullOrErrorValue (kv_value e).

(** ** The object store *)

Module StoreSpec.
Import Store.

(** Every object of [σ] is the same object in [σ']. *)
Definition unchanged (σ σ' : store) : Prop :=
  ∀ l o, σ !! l = Some o → σ' !! l = Some o.

(** [preserves σ0 c]: running [c] from a store that holds the objects of
    [σ0] unchanged ends in a store that still holds them unchanged. *)
Definition preserves {A} (σ0 : store) (c : M A) : Prop :=
  ∀ σ r σ', σ0 ⊆ σ → c σ = Some (r, σ') → σ0 ⊆ σ'.

(** [grows c]: a location in use before [c] is still in use after it. *)
Definition grows {A} (c : M A) : Prop :=
  ∀ σ r σ', c σ = Some (r, σ') → dom σ ⊆ dom σ'.

(** The value stands for a tree of depth at most [n]. *)
Definition readable (n : nat) (σ : store) (v : hvalue) : Prop := is_Some (read n σ v).

Definition is_array (σ : store) (l : nat) : Prop := ∃ items, σ !! l = Some (HArray items).
Definition is_object (σ : store) (l : nat) : Prop := ∃ fields, σ !! l = Some (HObject fields).

(** [runs σ0 c]: from a store that holds the objects of [σ0], [c] returns
    normally and leaves them as they are. *)
Definition runs {A} (σ0 : store) (c : M A) : Prop :=
  ∀ σ, σ0 ⊆ σ → ∃ a σ', c σ = Some (Normal a, σ') ∧ σ0 ⊆ σ'.

(** No object of the store lists a key twice. *)
Definition distinct_keys (σ : store) : Prop :=
  ∀ l fields, σ !! l = Some (HObject fields) → NoDup fields.*1.

(** The two loops of [removeIgnoredFields], over its recursive call [rec]
    and the object [target] they fill. *)
Section FilterLoops.
Context {engine : RegExpEngine}.
Variable rec : hvalue → string → M hvalue.
Variables (ignoreFields ignorePatterns : list string) (target : nat) (parentPath : string).

Fixpoint map_items (items : list hvalue) (i : nat) : M unit :=
  match items with
  | [] => ret tt
  | item :: rest =>
      bind (rec item (index_path parentPath i)) (fun item' =>
      bind (append target item') (fun _ =>
      map_items rest (S i)))
  end.

Fixpoint entries (fields : list (string * hvalue)) : M unit :=
  match fields with
  | [] => ret tt
  | (key, v) :: rest =>
      let fullPath := join_path parentPath key in
      bind (lift (shouldIgnoreField fullPath ignoreFields ignorePatterns))
        (fun ignore : bool =>
      if ignore then entries rest
      else
        bind (rec v fullPath) (fun v' =>
        bind (assign target key v') (fun _ =>
        entries rest)))
  end.

End FilterLoops.

(** The entries of the filtered object so far: each stands for its tree
    in the part of the store that is new since [σ], [target] apart. *)
Definition entries_read (n : nat) (σ σc : store) (target : nat)
  (acc : list (string * hvalue)) (tacc : list (string * value)) : Prop :=
  Forall2 (fun kv kt => fst kt = fst kv ∧ read n (delete target (σc ∖ σ)) (snd kv) = Some (snd kt))
    acc tacc.

Definition items_read (n : nat) (σ σc : store) (target : nat)
  (acc : list hvalue) (tacc : list value) : Prop :=
  Forall2 (fun x tx => read n (delete target (σc ∖ σ)) x = Some tx) acc tacc.

(** A [diff] on the store from the one on trees, for the examples: kinds
    and paths are those found on the trees the operands stand for, and the
    two sides of a difference are carried over where they are primitive. *)
Definition leaf (v : value) : hvalue :=
  match v with
  | VUndefined => HUndefined
  | VNull => HNull
  | VBool b => HBool b
  | VNum x => HNum x
  | VStr s => HStr s
  | VArr _ | VObj _ => HUndefined
  end.

Definition leaf_item (i : DiffItem value) : DiffItem hvalue :=
  {| item_kind := item_kind i; item_lhs := leaf (item_lhs i); item_rhs := leaf (item_rhs i) |}.

Definition leaf_diff (d : Diff value) : Diff hvalue :=
  {| d_kind := d_kind d; d_path := d_path d;
     d_lhs := leaf (d_lhs d); d_rhs := leaf (d_rhs d);
     d_index := d_index d; d_item := leaf_item <$> d_item d |}.

Definition tree_diff (n : nat) (σ : store) (lhs rhs : hvalue) : option (list (Diff hvalue)) :=
  match read n σ lhs, read n σ rhs with
  | Some l, Some r => List.map leaf_diff <$> reference_diff l r
  | _, _ => None
  end.

(** Two records and an array in the store. *)
Definition example_store : store :=
  list_to_map
    [(0%nat, HObject [("timestamp", HStr "t1"); ("user", HRef 1); ("tags", HRef 2)]);
     (1%nat, HObject [("name", HStr "ann"); ("requestId", HStr "r1")]);
     (2%nat, HArray [HStr "a"; HStr "b"]);
     (3%nat, HObject [("timestamp", HStr "t2"); ("user", HRef 4); ("tags", HRef 2)]);
     (4%nat, HObject [("name", HStr "bob"); ("requestId", HStr "r2")])].

Definition example_config : Config :=
  {| cfg_ignoreFields := ["timestamp"; "requestId"]; cfg_ignorePatterns := ["^_"] |}.

End StoreSpec.

(** ** Closed forms for the report of [compareWorkflowLogs] *)

Section ReportSpec.
Context {engine : RegExpEngine}.
Variable diff : value -> value -> option (list (Diff value)).
Variables (blueLogs greenLogs : list value) (ignoreFields ignorePatterns : list string).

(** The pair at index [i] is compared and differs. *)
Definition mismatch (i : nat) : bool :=
  is_pairing Compared blueLogs greenLogs i
  && hasDifferences (compared diff (at_index blueLogs i) (at_index greenLogs i)
                       ignoreFields ignorePatterns).

(** The pair at index [i] is compared and does not differ. *)
Definition match_at (i : nat) : bool :=
  is_pairing Compared blueLogs greenLogs i
  && negb (hasDifferences (compared diff (at_index blueLogs i) (at_index greenLogs i)
                             ignoreFields ignorePatterns)).

(** The entry the loop pushes for a pair that differs. *)
Definition difference_at (i : nat) : LogDifference value :=
  {| ld_index := i;
     ld_blueLog := filtered (at_index blueLogs i) ignoreFields ignorePatterns "";
     ld_greenLog := filtered (at_index greenLogs i) ignoreFields ignorePatterns "";
     ld_differences :=
       differences (compared diff (at_index blueLogs i) (at_index greenLogs i)
                      ignoreFields ignorePatterns) |}.

End ReportSpec.

(** The options with another [matchField]. *)
Definition with_matchField (matchField : option string) (options : Options) : Options :=
  {| opt_ignoreFields := opt_ignoreFields options;
     opt_ignorePatterns := opt_ignorePatterns options;
     opt_matchField := matchField |}.

(** ** src/rag/ragAnalyzer.js: chunks of a log sequence *)

(** [a.slice(start, end)] for integers [start] and [end]: a negative index
    counts from the end of the array. *)
Definition slice {A} (a : list A) (start final : Z) : list A :=
  let len := Z.of_nat (length a) in
  let k := if start <? 0 then Z.max (len + start) 0 else Z.min start len in
  let e := if final <? 0 then Z.max (len + final) 0 else Z.min final len in
  take (Z.to_nat (e - k)) (drop (Z.to_nat k) a).

Definition MAX_LOG_ENTRIES_PER_CHUNK : Z := 20.

(** The [for] loop of [chunkLogs] from [i] on; [None] when [fuel]
    iterations do not end it. *)
Fixpoint chunk_loop {A} (fuel : nat) (logs : list A) (chunkSize i : Z) (chunks : list (list A))
  : option (list (list A)) :=
  match fuel with
  | O => None
  | S fuel' =>
      if i <? Z.of_nat (length logs) then
        chunk_loop fuel' logs chunkSize (i + chunkSize)
          (chunks ++ [slice logs i (i + chunkSize)])
      else Some chunks
  end.

(** [chunkLogs(logs, chunkSize)] for an integer [chunkSize]; [None] for
    the parameter left out. *)
Definition chunkLogs {A} (fuel : nat) (logs : list A) (chunkSize : option Z)
  : option (list (list A)) :=
  chunk_loop fuel logs (default MAX_LOG_ENTRIES_PER_CHUNK chunkSize) 0 [].

(** ** The tags and scores of the catalog *)

(** The category tags of the levels and of the patterns, and with the
    fallback tag those an analysis can carry. *)
Definition stage_categories : list string :=
  List.map (fun kv => li_category (snd kv)) LOG_LEVEL_SEVERITY
  ++ List.map category STRUCTURAL_PATTERNS.

Definition catalog_categories : list string := stage_categories ++ ["GENERAL_ERROR"].

(** A category is listed. *)
Definition has_category (cat : string) (cs : list (option string)) : bool :=
  existsb (fun c => match c with Some s => String.eqb s cat | None => false end) cs.

(** The largest sum the level, keyword and pattern stages can reach. *)
Definition score_ceiling : Z :=
  100 + fold_right Z.add 0 (List.map snd NEGATIVE_ACTION_KEYWORDS)
  + fold_right Z.add 0 (List.map p_score STRUCTURAL_PATTERNS).

(** What holds of the tags while the stages run. *)
Definition tags_invariant (r : ErrorAnalysis) : Prop :=
  NoDup (categories r)
  ∧ (∀ c, Some c ∈ categories r → c ∈ stage_categories)
  ∧ (None ∈ categories r → score r = NaN).

(** The score, when it is a number, lies between [lo] and [hi]. *)
Definition score_within (lo hi : Z) (r : ErrorAnalysis) : Prop :=
  ∀ n, score r = Int n → lo <= n <= hi.

(** ** The key/value map in closed form *)

Section KeyValueSpec.
Variable Number_toString : spec_float -> string.


End KeyValueSpec.




(** ** src/rag/ragAnalyzer.js: value divergences *)

(** [a.sort(cmp)] for a consistent comparator with integer results. The
    language makes the sort stable: the result is sorted, and two
    elements the comparator does not order keep their order. Insertion
    from the left computes that result. *)
Fixpoint insert_sorted {A} (cmp : A -> A -> Z) (x : A) (sorted : list A) : list A :=
  match sorted with
  | [] => [x]
  | y :: rest => if cmp y x <=? 0 then y :: insert_sorted cmp x rest else x :: sorted
  end.

Definition Array_sort {A} (cmp : A -> A -> Z) (a : list A) : list A :=
  fold_left (fun sorted x => insert_sorted cmp x sorted) a [].








Section CompareLogValues.
Variable Number_toString : spec_float -> string.



End CompareLogValues.

(** ** src/rag/ragAnalyzer.js: the error entries *)

(** The binary64 number of an integer. *)
Definition Number_of_Z (n : Z) : spec_float := binary_normalize 53 1024 n 0 false.

(** A value of [categoryStats]: a count, or the text that [+ 1] makes of
    a member of [Object.prototype] (its characters are not modelled). *)
Inductive Stat := Count (n : Z) | Text.

Record ErrorEntry := {
  ee_index : Z;
  csvLineNumber : value;
  logFilePath : value;
  ee_category : string;
  ee_confidence : Confidence;
  ee_score : number;
  excerpt : string;
  ee_reasons : list string
}.

Record ErrorData := {
  ed_entries : list ErrorEntry;
  stats : list (string * Stat);
  totalErrors : nat;
  highConfidenceCount : nat
}.

(** [analysis.categories[0] || 'GENERAL_ERROR'] *)
Definition primary_category (analysis : ErrorAnalysis) : string :=
  match categories analysis with
  | Some c :: _ => if String.eqb c "" then "GENERAL_ERROR" else c
  | _ => "GENERAL_ERROR"
  end.

(** [categoryStats[c] = (categoryStats[c] || 0) + 1] on an object literal,
    for a name [c] that is not an array index: an own count grows by one,
    a name of [Object.prototype] reads as a member and turns into text,
    and [__proto__] cannot be set to it. *)
Definition bump (c : string) (categoryStats : list (string * Stat)) : list (string * Stat) :=
  match own_property c categoryStats with
  | Some (Count n) => set_property c (Count (n + 1)) categoryStats
  | Some Text => set_property c Text categoryStats
  | None =>
      if String.eqb c "__proto__" then categoryStats
      else if Str.mem c Object_prototype_properties then set_property c Text categoryStats
      else set_property c (Count 1) categoryStats
  end.

(** [msg.length > 300 ? msg.substring(0, 300) + '...' : msg] *)
Definition excerpt_of (msg : string) : string :=
  if (300 <? String.length msg)%nat then String.substring 0 300 msg +:+ "..." else msg.

(** The entry pushed for the record at position [i]. The analysis has
    flagged the record, so that [log.message || ''] is a string. *)
Definition error_entry (log : value) (i : nat) (analysis : ErrorAnalysis) : ErrorEntry :=
  let msg := match js_or (get log "message") (VStr "") with VStr s => s | _ => "" end in
  {| ee_index := Z.of_nat i + 1;
     csvLineNumber := js_or (get log "_csvLineNumber") (VNum (Number_of_Z (Z.of_nat i + 2)));
     logFilePath :=
       js_or (js_or (optional_get (optional_get (get log "log") "file") "path")
                    (get log "log.file.path"))
             (VStr "unknown");
     ee_category := primary_category analysis;
     ee_confidence := confidence analysis;
     ee_score := score analysis;
     excerpt := excerpt_of msg;
     ee_reasons := take 3 (reasons analysis) |}.

(** The body of [logs.forEach]. *)
Definition visit (st : list ErrorEntry * list (string * Stat)) (log : value) (i : nat)
  : completion (list ErrorEntry * list (string * Stat)) :=
  analysis ← analyzeLogForErrors log;
  if isError analysis then
    mret (fst st ++ [error_entry log i analysis], bump (primary_category analysis) (snd st))
  else mret st.

Fixpoint forEach_logs (logs : list value) (i : nat) (st : list ErrorEntry * list (string * Stat))
  : completion (list ErrorEntry * list (string * Stat)) :=
  match logs with
  | [] => mret st
  | log :: rest => st' ← visit st log i; forEach_logs rest (S i) st'
  end.

(** [(a, b) => b.score - a.score]; the sort reads a [NaN] as [0]. *)
Definition by_score (a b : ErrorEntry) : Z :=
  match ee_score b, ee_score a with
  | Int x, Int y => x - y
  | _, _ => 0
  end.

Definition is_HIGH (c : Confidence) : bool :=
  match c with HIGH => true | _ => false end.

Definition extractErrorEntries (logs : list value) : completion ErrorData :=
  st ← forEach_logs logs 0 ([], []);
  let errors := Array_sort by_score (fst st) in
  mret {| ed_entries := errors;
          stats := snd st;
          totalErrors := length errors;
          highConfidenceCount := length (List.filter (fun e => is_HIGH (ee_confidence e)) errors) |}.

(** *** What the entries are measured by *)

Definition entry_score (e : ErrorEntry) : Z :=
  match ee_score e with Int n => n | NaN => 0 end.


(** The record is flagged: its analysis returns with [isError]. *)
Definition flagged (log : value) : bool :=
  match analyzeLogForErrors log with
  | Normal analysis => isError analysis
  | Throw _ => false
  end.

Definition stat_count (s : Stat) : Z :=
  match s with Count n => n | Text => 0 end.

Definition stat_sum (categoryStats : list (string * Stat)) : Z :=
  fold_right (fun kv acc => stat_count (snd kv) + acc) 0 categoryStats.

Definition in_category (c : string) (e : ErrorEntry) : bool := String.eqb (ee_category e) c.

(** The record can be analysed: it is falsy, or its level and its message
    are strings (or falsy, read as the empty string). *)
Definition analysable (log : value) : Prop :=
  truthy log = false ∨ ∃ l m, level_value log = VStr l ∧ message_value log = VStr m.

(** [a] comes before [b]: a larger key, or the same key and a smaller
    index. *)
Definition before_by {A} (key idx : A → Z) (a b : A) : Prop :=
  key b < key a ∨ (key b = key a ∧ idx a < idx b).

(** [a] ranks before [b]: a higher score, or the same score and an
    earlier record. *)
Definition ranked : ErrorEntry → ErrorEntry → Prop := before_by entry_score ee_index.

(** The entries of the flagged records from position [i] on, in the order
    of the records. *)
Fixpoint flagged_entries (logs : list value) (i : nat) : list ErrorEntry :=
  match logs with
  | [] => []
  | log :: rest =>
      match analyzeLogForErrors log with
      | Normal analysis => if isError analysis then [error_entry log i analysis] else []
      | Throw _ => []
      end ++ flagged_entries rest (S i)
  end.

(** The number of entries of a category, and statistics that count the
    entries [es]. *)
Definition category_count (c : string) (es : list ErrorEntry) : Z :=
  Z.of_nat (length (List.filter (in_category c) es)).

Definition counted_by (categoryStats : list (string * Stat)) (es : list ErrorEntry) : Prop :=
  NoDup categoryStats.*1
  ∧ stat_sum categoryStats = Z.of_nat (length es)
  ∧ ∀ c, own_property c categoryStats
         = if category_count c es =? 0 then None else Some (Count (category_count c es)).

(** ** src/rag/ragAnalyzer.js: the sections of a response *)

Record Sections := {
  functionalEquivalence : option string;    (* [None] is [null] *)
  meaningfulDifferences : list value;
  cosmeticVsFunctional : option string;
  rootCauseSuggestions : list value;
  confidenceLevel : string;
  recommendations : list value;
  raw : string
}.

Definition set_functionalEquivalence (v : string) (s : Sections) : Sections :=
  {| functionalEquivalence := Some v;
     meaningfulDifferences := meaningfulDifferences s;
     cosmeticVsFunctional := cosmeticVsFunctional s;
     rootCauseSuggestions := rootCauseSuggestions s;
     confidenceLevel := confidenceLevel s;
     recommendations := recommendations s;
     raw := raw s |}.

Definition set_confidenceLevel (v : string) (s : Sections) : Sections :=
  {| functionalEquivalence := functionalEquivalence s;
     meaningfulDifferences := meaningfulDifferences s;
     cosmeticVsFunctional := cosmeticVsFunctional s;
     rootCauseSuggestions := rootCauseSuggestions s;
     confidenceLevel := v;
     recommendations := recommendations s;
     raw := raw s |}.

Definition equivalence_pattern : RegExp.t :=
  RegExp.literal "functional equivalence[:\s]*(YES|NO|PARTIAL)" true.

Definition confidence_pattern : RegExp.t :=
  RegExp.literal "confidence[:\s]*(LOW|MEDIUM|HIGH)" true.

(** [match[1].toUpperCase()] *)
Definition group_toUpperCase (found : RegExp.result) : completion string :=
  match RegExp.group 1 found with
  | Some s => mret (Str.toUpperCase s)
  | None => Throw (TypeError "Cannot read properties of undefined")
  end.

(** [parseAnalysisResponse(analysis)]: [None] is the result [null].
    [s.match(re)] with a regular expression without the [g] flag is
    [re.exec(s)]; only a string has the method. *)
Definition parseAnalysisResponse (analysis : value) : completion (option Sections) :=
  if negb (truthy analysis) then mret None
  else
    match analysis with
    | VStr s =>
        let sections :=
          {| functionalEquivalence := None;
             meaningfulDifferences := [];
             cosmeticVsFunctional := None;
             rootCauseSuggestions := [];
             confidenceLevel := "UNKNOWN";
             recommendations := [];
             raw := s |} in
        sections ←
          match RegExp.exec equivalence_pattern s 0 with
          | Some eqMatch =>
              v ← group_toUpperCase eqMatch; mret (set_functionalEquivalence v sections)
          | None => mret sections
          end;
        sections ←
          match RegExp.exec confidence_pattern s 0 with
          | Some confMatch =>
              v ← group_toUpperCase confMatch; mret (set_confidenceLevel v sections)
          | None => mret sections
          end;
        mret (Some sections)
    | _ => Throw (TypeError "analysis.match is not a function")
    end.

(** The regular expression is a sequence that ends in the group 1. *)
Fixpoint ends_in_group (r : RegExp.regex) : option RegExp.regex :=
  match r with
  | RegExp.Seq _ r2 => ends_in_group r2
  | RegExp.Group (Some 1%nat) g => Some g
  | _ => None
  end.

(** The continuation of the matcher behind the group 1 that starts at
    [from]. *)
Definition capture_from (from : RegExp.mstate) (to : RegExp.mstate) : option RegExp.mstate :=
  Some (RegExp.set_capture 1 (RegExp.text_between from to) to).

(** The first group of the position holds a text whose upper case is one
    of the words. *)
Definition captured_word (words : list string) (fin : RegExp.mstate) : Prop :=
  ∃ s, snd <$> List.find (fun p => (fst p =? 1)%nat) (RegExp.captures fin) = Some s
       ∧ Str.toUpperCase s ∈ words.

(** The words of an alternation of literal texts. *)
Fixpoint literal_words (r : RegExp.regex) : option (list (list ascii)) :=
  match r with
  | RegExp.Char c => Some [[c]]
  | RegExp.Seq r1 r2 =>
      match literal_words r1, literal_words r2 with
      | Some ws1, Some ws2 => Some (w1 ← ws1; (fun w2 => w1 ++ w2) <$> ws2)
      | _, _ => None
      end
  | RegExp.Alt r1 r2 =>
      match literal_words r1, literal_words r2 with
      | Some ws1, Some ws2 => Some (ws1 ++ ws2)
      | _, _ => None
      end
  | _ => None
  end.

Definition upper_word (w : list ascii) : string :=
  string_of_list_ascii (List.map Str.upper_char w).

(** ** src/rag/ollamaClient.js: the similarity of two vectors *)

(** The arithmetic of numbers: binary64, rounding to nearest, ties to
    even. *)
Definition Number_add : spec_float → spec_float → spec_float := SFadd 53 1024.
Definition Number_mul : spec_float → spec_float → spec_float := SFmul 53 1024.
Definition Number_div : spec_float → spec_float → spec_float := SFdiv 53 1024.
Definition Math_sqrt : spec_float → spec_float := SFsqrt 53 1024.

(** One turn of the loop on [a[i]] and [b[i]]. *)
Definition accumulate_products (acc : spec_float * spec_float * spec_float)
  (xy : spec_float * spec_float) : spec_float * spec_float * spec_float :=
  let '(dotProduct, normA, normB) := acc in
  let '(x, y) := xy in
  (Number_add dotProduct (Number_mul x y),
   Number_add normA (Number_mul x x),
   Number_add normB (Number_mul y y)).

(** [cosineSimilarity(a, b)] for two arrays of numbers. *)
Definition cosineSimilarity (a b : list spec_float) : spec_float :=
  if negb (length a =? length b)%nat then S754_zero false
  else
    let '(dotProduct, normA, normB) :=
      fold_left accumulate_products (zip a b)
        (S754_zero false, S754_zero false, S754_zero false) in
    Number_div dotProduct (Number_mul (Math_sqrt normA) (Math_sqrt normB)).

Definition is_zero (x : spec_float) : bool :=
  match x with S754_zero _ => true | _ => false end.

Definition zero_or_NaN (x : spec_float) : Prop :=
  match x with S754_zero _ | S754_nan => True | _ => False end.

(** * Properties of the exclusion rules *)

Section ExclusionFacts.
Context {engine : RegExpEngine}.

Lemma mem_true (s : string) (l : list string) : Str.mem s l = true ↔ s ∈ l.
Proof.
  unfold Str.mem. rewrite existsb_exists. split.
  - intros (x & Hin & Heq). apply String.eqb_eq in Heq. subst. by apply list_elem_of_In.
  - intros Hin. exists s. split; [by apply list_elem_of_In | apply String.eqb_refl].
Qed.

Lemma check_patterns_eq fieldPath pathParts ignorePatterns :
  check_patterns fieldPath pathParts ignorePatterns
  = Normal (existsb (pattern_applies fieldPath pathParts) ignorePatterns).
Proof.
  induction ignorePatterns as [|pattern rest IH]; [done|].
  cbn [check_patterns existsb]. unfold pattern_hits, pattern_applies at 1.
  destruct (RegExp_new pattern) as [regex|e]; cbn.
  - destruct (RegExp_test regex fieldPath || existsb (RegExp_test regex) pathParts); [done|].
    exact IH.
  - exact IH.
Qed.

Lemma shouldIgnoreField_eq fieldPath ignoreFields ignorePatterns :
  shouldIgnoreField fieldPath ignoreFields ignorePatterns
  = Normal (ignored fieldPath ignoreFields ignorePatterns).
Proof.
  unfold shouldIgnoreField, ignored.
  destruct (Str.mem fieldPath ignoreFields); [done|].
  destruct (existsb _ (Str.split "." fieldPath)); [done|].
  apply check_patterns_eq.
Qed.

Lemma pattern_applies_true fieldPath pattern :
  pattern_applies fieldPath (Str.split "." fieldPath) pattern = true
  ↔ ∃ regex, RegExp_new pattern = Normal regex
      ∧ (RegExp_test regex fieldPath = true
         ∨ ∃ segment, segment ∈ Str.split "." fieldPath ∧ RegExp_test regex segment = true).
Proof.
  unfold pattern_applies. destruct (RegExp_new pattern) as [regex|e].
  - rewrite orb_true_iff, existsb_exists. split.
    + intros [H|(x & Hin & Hx)]; exists regex; split; auto.
      right. exists x. split; [by apply list_elem_of_In | done].
    + intros (r & [= <-] & [H|(x & Hin & Hx)]); [by left|].
      right. exists x. split; [by apply list_elem_of_In | done].
  - split; [done|]. by intros (r & [=] & _).
Qed.

Lemma ignored_true fieldPath ignoreFields ignorePatterns :
  ignored fieldPath ignoreFields ignorePatterns = true
  ↔ excluded_by_rules fieldPath ignoreFields ignorePatterns.
Proof.
  unfold ignored, excluded_by_rules.
  rewrite !orb_true_iff, mem_true, !existsb_exists. split.
  - intros [[H|(seg & Hin & Hseg)]|(pat & Hin & Hpat)].
    + by left.
    + right; left. exists seg. split; [by apply list_elem_of_In | by apply mem_true].
    + right; right. apply pattern_applies_true in Hpat as (regex & Hnew & Hm).
      exists pat, regex. split; [by apply list_elem_of_In | done].
  - intros [H|[(seg & Hin & Hseg)|(pat & regex & Hin & Hnew & Hm)]].
    + by left; left.
    + left; right. exists seg. split; [by apply list_elem_of_In | by apply mem_true].
    + right. exists pat. split; [by apply list_elem_of_In|].
      apply pattern_applies_true. by exists regex.
Qed.

Lemma filtered_arr f ps parent items :
  filtered (VArr items) f ps parent = VArr (filtered_items f ps parent items 0).
Proof.
  cbn [filtered]. f_equal. generalize 0%nat.
  induction items as [|x l IH]; intros i; [done|]. cbn [filtered_items]. by rewrite <- IH.
Qed.

Lemma filtered_obj f ps parent fields :
  filtered (VObj fields) f ps parent = VObj (filtered_fields f ps parent fields).
Proof.
  cbn [filtered]. f_equal.
  induction fields as [|[k v] l IH]; [done|]. cbn [filtered_fields]. by rewrite <- IH.
Qed.

Lemma removeIgnoredFields_eq obj f ps parent :
  removeIgnoredFields obj f ps parent = Normal (filtered obj f ps parent).
Proof.
  revert parent. induction obj as [| | | | |items IH|fields IH] using value_nested_ind;
    intros parent; try done.
  - rewrite filtered_arr. cbn [removeIgnoredFields].
    match goal with
    | |- ?F items 0%nat ≫= _ = _ =>
        enough (H : ∀ i, F items i = Normal (filtered_items f ps parent items i))
          by (by rewrite H)
    end.
    induction IH as [|x l Hx Hl IHl]; intros i; [done|].
    cbn [filtered_items]. rewrite Hx. cbn. rewrite IHl. done.
  - rewrite filtered_obj. cbn [removeIgnoredFields].
    match goal with
    | |- ?F fields ≫= _ = _ =>
        enough (H : F fields = Normal (filtered_fields f ps parent fields)) by (by rewrite H)
    end.
    induction IH as [|[k v] l Hx Hl IHl]; [done|].
    cbn [filtered_fields]. cbn zeta. rewrite shouldIgnoreField_eq. cbn.
    destruct (ignored (join_path parent k) f ps); [exact IHl|].
    cbn in Hx. rewrite Hx. cbn. rewrite IHl. done.
Qed.

End ExclusionFacts.

(** * What the filter keeps *)

Section FilterFacts.
Context {engine : RegExpEngine}.
Variables (f ps : list string).

Lemma filtered_fields_elem parent fields k w' :
  (k, w') ∈ filtered_fields f ps parent fields
  ↔ ignored (join_path parent k) f ps = false
    ∧ ∃ w, (k, w) ∈ fields ∧ w' = filtered w f ps (join_path parent k).
Proof.
  induction fields as [|[k0 v0] l IH]; cbn [filtered_fields].
  - split; [by intros ?%elem_of_nil | by intros (_ & w & ?%elem_of_nil & _)].
  - destruct (ignored (join_path parent k0) f ps) eqn:Hig.
    + rewrite IH. split.
      * intros (Hk & w & Hin & ->). split; [done|]. exists w. split; [by right|done].
      * intros (Hk & w & Hin & ->). split; [done|]. exists w. split; [|done].
        apply elem_of_cons in Hin as [[= -> ->]|Hin]; [congruence|done].
    + rewrite elem_of_cons, IH. split.
      * intros [[= -> ->]|(Hk & w & Hin & ->)].
        -- split; [done|]. exists v0. split; [by left|done].
        -- split; [done|]. exists w. split; [by right|done].
      * intros (Hk & w & Hin & ->).
        apply elem_of_cons in Hin as [[= -> ->]|Hin]; [by left|].
        right. split; [done|]. by exists w.
Qed.

Lemma filtered_items_lookup parent items i j :
  filtered_items f ps parent items i !! j
  = (fun w => filtered w f ps (index_path parent (i + j))) <$> items !! j.
Proof.
  revert i j. induction items as [|x l IH]; intros i j; [done|].
  destruct j as [|j]; cbn [filtered_items].
  - cbn. by rewrite Nat.add_0_r.
  - cbn. rewrite IH. by rewrite Nat.add_succ_r.
Qed.

Lemma filtered_items_length parent items i :
  length (filtered_items f ps parent items i) = length items.
Proof. revert i. induction items as [|x l IH]; intros i; cbn; [done|]. by rewrite IH. Qed.

(** A position of the filtered record is a position of the record through
    which no field is excluded, and conversely. *)
Lemma at_position_filtered v parent p u' :
  at_position (filtered v f ps parent) p u'
  ↔ kept f ps parent p = true
    ∧ ∃ u, at_position v p u ∧ u' = filtered u f ps (filter_path parent p).
Proof.
  revert v parent u'. induction p as [|e p IH]; intros v parent u'.
  - cbn. split.
    + intros H. inversion H; subst. split; [done|]. exists v. split; [constructor|done].
    + intros (_ & u & H & ->). inversion H; subst. constructor.
  - split.
    + intros H. inversion H as [|fields k w p' u0 Hin Hrest Hv|items i w p' u0 Hlk Hrest Hv];
        subst.
      * destruct v; try discriminate Hv.
        rewrite filtered_obj in Hv. injection Hv as ->.
        apply filtered_fields_elem in Hin as (Hk & w0 & Hin & ->).
        apply IH in Hrest as (Hkept & u & Hu & ->).
        cbn [kept]. rewrite Hk, Hkept. split; [done|].
        exists u. split; [by econstructor|done].
      * destruct v; try discriminate Hv.
        rewrite filtered_arr in Hv. injection Hv as ->.
        rewrite filtered_items_lookup in Hlk.
        destruct (items0 !! i) as [w0|] eqn:Hw0; [|discriminate Hlk].
        cbn in Hlk. injection Hlk as <-.
        apply IH in Hrest as (Hkept & u & Hu & ->).
        cbn [kept]. split; [done|].
        exists u. split; [by econstructor|done].
    + intros (Hkept & u & Hu & ->).
      inversion Hu as [|fields k w p' u0 Hin Hrest|items i w p' u0 Hlk Hrest]; subst.
      * cbn [kept] in Hkept. apply andb_true_iff in Hkept as [Hk Hkept].
        apply negb_true_iff in Hk.
        rewrite filtered_obj. econstructor.
        -- apply filtered_fields_elem. split; [done|]. by exists w.
        -- apply IH. split; [done|]. by exists u.
      * cbn [kept] in Hkept. rewrite filtered_arr. econstructor.
        -- rewrite filtered_items_lookup, Hlk. done.
        -- apply IH. split; [done|]. by exists u.
Qed.


Lemma kept_app parent p q :
  kept f ps parent (p ++ q) = kept f ps parent p && kept f ps (filter_path parent p) q.
Proof.
  revert parent. induction p as [|e p IH]; intros parent; [done|].
  cbn [app kept]. destruct e; rewrite IH; cbn; [by rewrite andb_assoc|done].
Qed.

End FilterFacts.

(** * How [pathToString] and the filter spell a position *)

Lemma append_cons (c : ascii) (s t : string) : String c s +:+ t = String c (s +:+ t).
Proof. reflexivity. Qed.









(** * The loop of [compareWorkflowLogs] *)

Ltac case_differences :=
  match goal with
  | |- context [hasDifferences ?c] => destruct (hasDifferences c)
  end.

Section ComparatorFacts.
Context {engine : RegExpEngine}.
Variable diff : value -> value -> option (list (Diff value)).
Variables (blueLogs greenLogs : list value) (f ps : list string).

Lemma compareLogEntries_eq blueLog greenLog :
  compareLogEntries diff blueLog greenLog f ps = Normal (compared diff blueLog greenLog f ps).
Proof. unfold compareLogEntries. by rewrite !removeIgnoredFields_eq. Qed.

Lemma compare_at_eq i report :
  compare_at diff blueLogs greenLogs f ps i report
  = Normal (step diff blueLogs greenLogs f ps report i).
Proof.
  unfold compare_at, step, pairing.
  destruct (truthy (at_index blueLogs i)); [|done].
  destruct (truthy (at_index greenLogs i)); [|done]. cbn [negb].
  rewrite compareLogEntries_eq. cbn [negb]. unfold mbind at 1, completion_bind at 1. cbn zeta.
  case_differences; [|done].
  by rewrite !removeIgnoredFields_eq.
Qed.

Lemma compare_loop_eq from n report :
  compare_loop diff blueLogs greenLogs f ps from n report
  = Normal (fold_left (step diff blueLogs greenLogs f ps) (seq from n) report).
Proof.
  revert from report. induction n as [|n IH]; intros from report; [done|].
  cbn [compare_loop seq fold_left]. rewrite compare_at_eq. cbn. apply IH.
Qed.

(** Each iteration adds one to exactly one counter. *)
Lemma step_total report i :
  total (summary (step diff blueLogs greenLogs f ps report i)) = S (total (summary report)).
Proof.
  unfold step, total. destruct (pairing blueLogs greenLogs i);
    [cbn; lia | cbn; lia | cbn zeta; case_differences; cbn; lia].
Qed.

Lemma fold_total l report :
  total (summary (fold_left (step diff blueLogs greenLogs f ps) l report))
  = (length l + total (summary report))%nat.
Proof.
  revert report. induction l as [|i l IH]; intros report; [done|].
  cbn [fold_left length]. rewrite IH, step_total. lia.
Qed.

Lemma fold_greenOnly l report :
  let r := fold_left (step diff blueLogs greenLogs f ps) l report in
  greenOnlyLogs r
  = greenOnlyLogs report
    ++ List.map (fun i => {| os_index := i; os_log := at_index greenLogs i |})
         (List.filter (is_pairing GreenOnly blueLogs greenLogs) l)
  ∧ greenOnlyCount (summary r)
    = (greenOnlyCount (summary report)
       + length (List.filter (is_pairing GreenOnly blueLogs greenLogs) l))%nat.
Proof.
  revert report. induction l as [|i l IH]; intros report.
  - cbn. by rewrite app_nil_r, Nat.add_0_r.
  - cbn [fold_left List.filter]. destruct (IH (step diff blueLogs greenLogs f ps report i)) as [H1 H2].
    cbn zeta. rewrite H1, H2. unfold step, is_pairing.
    destruct (pairing blueLogs greenLogs i).
    + cbn. rewrite <- app_assoc. split; [done|lia].
    + done.
    + cbn zeta. case_differences; done.
Qed.

Lemma fold_blueOnly l report :
  let r := fold_left (step diff blueLogs greenLogs f ps) l report in
  blueOnlyLogs r
  = blueOnlyLogs report
    ++ List.map (fun i => {| os_index := i; os_log := at_index blueLogs i |})
         (List.filter (is_pairing BlueOnly blueLogs greenLogs) l)
  ∧ blueOnlyCount (summary r)
    = (blueOnlyCount (summary report)
       + length (List.filter (is_pairing BlueOnly blueLogs greenLogs) l))%nat.
Proof.
  revert report. induction l as [|i l IH]; intros report.
  - cbn. by rewrite app_nil_r, Nat.add_0_r.
  - cbn [fold_left List.filter]. destruct (IH (step diff blueLogs greenLogs f ps report i)) as [H1 H2].
    cbn zeta. rewrite H1, H2. unfold step, is_pairing.
    destruct (pairing blueLogs greenLogs i).
    + done.
    + cbn. rewrite <- app_assoc. split; [done|lia].
    + cbn zeta. case_differences; done.
Qed.

Lemma fold_compared l report :
  let r := fold_left (step diff blueLogs greenLogs f ps) l report in
  (matchedCount (summary r) + mismatchedCount (summary r)
   = matchedCount (summary report) + mismatchedCount (summary report)
     + length (List.filter (is_pairing Compared blueLogs greenLogs) l))%nat
  ∧ (∀ d, d ∈ logDifferences r →
       d ∈ logDifferences report
       ∨ (ld_index d ∈ l ∧ pairing blueLogs greenLogs (ld_index d) = Compared))
  ∧ (length (logDifferences r) - length (logDifferences report)
     = mismatchedCount (summary r) - mismatchedCount (summary report))%nat
  ∧ (mismatchedCount (summary report) ≤ mismatchedCount (summary r))%nat
  ∧ (length (logDifferences report) ≤ length (logDifferences r))%nat.
Proof.
  revert report. induction l as [|i l IH]; intros report.
  - cbn. repeat split; try lia. intros d Hd. by left.
  - cbn [fold_left List.filter].
    destruct (IH (step diff blueLogs greenLogs f ps report i)) as (H1 & H2 & H3 & H4 & H5).
    cbn zeta.
    assert (Hstep :
      let r1 := step diff blueLogs greenLogs f ps report i in
      (matchedCount (summary r1) + mismatchedCount (summary r1)
       = matchedCount (summary report) + mismatchedCount (summary report)
         + (if is_pairing Compared blueLogs greenLogs i then 1 else 0))%nat
      ∧ (∀ d, d ∈ logDifferences r1 → d ∈ logDifferences report
           ∨ (ld_index d = i ∧ pairing blueLogs greenLogs i = Compared))
      ∧ (length (logDifferences r1) - length (logDifferences report)
         = mismatchedCount (summary r1) - mismatchedCount (summary report))%nat
      ∧ (mismatchedCount (summary report) ≤ mismatchedCount (summary r1))%nat
      ∧ (length (logDifferences report) ≤ length (logDifferences r1))%nat).
    { unfold step, is_pairing. destruct (pairing blueLogs greenLogs i) eqn:Hp.
      - cbn. repeat split; try lia. by left.
      - cbn. repeat split; try lia. by left.
      - cbn zeta. case_differences; cbn.
        + rewrite length_app. cbn. repeat split; try lia.
          intros d [Hd|Hd%list_elem_of_singleton]%elem_of_app; [by left|].
          right. by subst d.
        + repeat split; try lia. by left. }
    cbn zeta in Hstep. destruct Hstep as (S1 & S2 & S3 & S4 & S5).
    repeat split.
    + rewrite H1, S1. destruct (is_pairing Compared blueLogs greenLogs i); cbn; lia.
    + intros d Hd. destruct (H2 d Hd) as [Hd'|[Hin Hp]].
      * destruct (S2 d Hd') as [?|[<- Hp]]; [by left|]. right. split; [by left|done].
      * right. split; [by right|done].
    + lia.
    + lia.
    + lia.
Qed.

End ComparatorFacts.

(** * Counting indices *)

Lemma at_index_truthy (logs : list value) (i : nat) :
  all_truthy logs → truthy (at_index logs i) = (i <? length logs)%nat.
Proof.
  intros Hall. unfold at_index. destruct (logs !! i) as [v|] eqn:Hv; cbn.
  - rewrite (proj1 (Forall_forall _ _) Hall v) by (by eapply list_elem_of_lookup_2).
    symmetry. apply Nat.ltb_lt. by eapply lookup_lt_Some.
  - symmetry. apply Nat.ltb_ge. by apply lookup_ge_None.
Qed.

Lemma count_between (a b n : nat) :
  length (List.filter (fun i => (a <=? i)%nat && (i <? b)%nat) (seq 0 n))
  = (Nat.min n b - a)%nat.
Proof.
  induction n as [|n IH]; [done|].
  rewrite seq_S, List.filter_app, length_app, IH. cbn [List.filter Nat.add].
  destruct (Nat.leb_spec a n), (Nat.ltb_spec n b); cbn [andb length]; lia.
Qed.

Lemma count_from (a n : nat) :
  length (List.filter (fun i => (a <=? i)%nat) (seq 0 n)) = (n - a)%nat.
Proof.
  induction n as [|n IH]; [done|].
  rewrite seq_S, List.filter_app, length_app, IH. cbn [List.filter Nat.add].
  destruct (Nat.leb_spec a n); cbn [length]; lia.
Qed.

Lemma indices_greenOnly_truthy blueLogs greenLogs n :
  all_truthy blueLogs →
  length (indices GreenOnly blueLogs greenLogs n) = (n - length blueLogs)%nat.
Proof.
  intros Hb. unfold indices. rewrite <- count_from. f_equal.
  apply List.filter_ext. intros i. unfold is_pairing, pairing.
  rewrite (at_index_truthy _ _ Hb).
  destruct (Nat.ltb_spec i (length blueLogs)), (Nat.leb_spec (length blueLogs) i);
    cbn; try lia; try done.
  by destruct (negb _).
Qed.

Lemma indices_blueOnly_truthy blueLogs greenLogs n :
  all_truthy blueLogs → all_truthy greenLogs →
  length (indices BlueOnly blueLogs greenLogs n)
  = (Nat.min n (length blueLogs) - length greenLogs)%nat.
Proof.
  intros Hb Hg. unfold indices. rewrite <- count_between. f_equal.
  apply List.filter_ext. intros i. unfold is_pairing, pairing.
  rewrite (at_index_truthy _ _ Hb), (at_index_truthy _ _ Hg).
  destruct (Nat.ltb_spec i (length blueLogs)), (Nat.ltb_spec i (length greenLogs)),
    (Nat.leb_spec (length greenLogs) i); cbn; try lia; done.
Qed.

(** * Scenarios of the specification *)

Example scenario_edited :
  compareWorkflowLogs (engine := reference_engine) reference_diff no_config
    [VObj [("a", VStr "1")]] [VObj [("a", VStr "2")]] no_options
  = Normal {|
      summary := {| blueLogCount := 1; greenLogCount := 1; matchedCount := 0;
                    mismatchedCount := 1; blueOnlyCount := 0; greenOnlyCount := 0 |};
      countMismatch := false;
      sequenceDifferences := [];
      logDifferences := [
        {| ld_index := 0;
           ld_blueLog := VObj [("a", VStr "1")];
           ld_greenLog := VObj [("a", VStr "2")];
           ld_differences := [
             {| kind := KindE; path := "a"; blueValue := VStr "1"; greenValue := VStr "2";
                index := None; item := None |} ] |} ];
      blueOnlyLogs := [];
      greenOnlyLogs := [];
      ignoredFields := [];
      ignoredPatterns := []
    |}.
Proof. vm_compute. reflexivity. Qed.

Example scenario_timestamp_excluded :
  (fun c => match c with Normal r => Some (summary r) | Throw _ => None end)
    (compareWorkflowLogs (engine := reference_engine) reference_diff no_config
       [VObj [("timestamp", VStr "t1"); ("v", VStr "1")]]
       [VObj [("timestamp", VStr "t2"); ("v", VStr "1")]]
       {| opt_ignoreFields := Some ["timestamp"]; opt_ignorePatterns := None;
          opt_matchField := None |})
  = Some {| blueLogCount := 1; greenLogCount := 1; matchedCount := 1;
            mismatchedCount := 0; blueOnlyCount := 0; greenOnlyCount := 0 |}.
Proof. vm_compute. reflexivity. Qed.

(** * Claims about the structural comparator *)

Section ComparatorClaims.
Context {engine : RegExpEngine}.
Variable diff : value -> value -> option (list (Diff value)).
Variable config : Config.

Lemma compareWorkflowLogs_eq blueLogs greenLogs options :
  compareWorkflowLogs diff config blueLogs greenLogs options
  = Normal
      (fold_left
         (step diff blueLogs greenLogs
            (cfg_ignoreFields config ++ default [] (opt_ignoreFields options))
            (cfg_ignorePatterns config ++ default [] (opt_ignorePatterns options)))
         (seq 0 (Nat.max (length blueLogs) (length greenLogs)))
         (initial_report (length blueLogs) (length greenLogs)
            (cfg_ignoreFields config ++ default [] (opt_ignoreFields options))
            (cfg_ignorePatterns config ++ default [] (opt_ignorePatterns options)))).
Proof. unfold compareWorkflowLogs. apply compare_loop_eq. Qed.

(** C1 (amended). The four counters of the report always add up to the
    length of the longer sequence. When every entry of both sequences is
    truthy, [blueOnlyCount] is [max(0, len(blue) - len(green))] and
    [greenOnlyCount] is [max(0, len(green) - len(blue))], so that their sum
    is the absolute difference of the two lengths. *)
Theorem compareWorkflowLogs_counters blueLogs greenLogs options :
  ∃ report,
    compareWorkflowLogs diff config blueLogs greenLogs options = Normal report
    ∧ (matchedCount (summary report) + mismatchedCount (summary report)
       + blueOnlyCount (summary report) + greenOnlyCount (summary report)
       = Nat.max (length blueLogs) (length greenLogs))%nat
    ∧ (all_truthy blueLogs → all_truthy greenLogs →
       blueOnlyCount (summary report) = (length blueLogs - length greenLogs)%nat
       ∧ greenOnlyCount (summary report) = (length greenLogs - length blueLogs)%nat
       ∧ (blueOnlyCount (summary report) + greenOnlyCount (summary report)
          = Nat.max (length blueLogs) (length greenLogs)
            - Nat.min (length blueLogs) (length greenLogs))%nat).
Proof.
  eexists. split; [apply compareWorkflowLogs_eq|]. split.
  - pose proof (fold_total diff blueLogs greenLogs) as Ht. unfold total in Ht.
    rewrite Ht. cbn. rewrite length_seq. lia.
  - intros Hb Hg.
    match goal with
    | |- context [fold_left (step _ _ _ ?f ?ps) ?l ?r] =>
        destruct (fold_greenOnly diff blueLogs greenLogs f ps l r) as [_ Hgreen];
        destruct (fold_blueOnly diff blueLogs greenLogs f ps l r) as [_ Hblue]
    end.
    cbn zeta in Hgreen, Hblue. rewrite Hgreen, Hblue. cbn [initial_report summary
      blueOnlyCount greenOnlyCount Nat.add].
    pose proof (indices_greenOnly_truthy blueLogs greenLogs
                  (Nat.max (length blueLogs) (length greenLogs)) Hb) as Hcg.
    pose proof (indices_blueOnly_truthy blueLogs greenLogs
                  (Nat.max (length blueLogs) (length greenLogs)) Hb Hg) as Hcb.
    unfold indices in Hcg, Hcb. rewrite Hcg, Hcb. lia.
Qed.

(** C10. An index whose blue entry is falsy is reported green-only,
    whatever the green entry is; otherwise an index whose green entry is
    falsy is reported blue-only. Only the remaining indices are counted as
    matched or mismatched, and the iteration at a one-sided index does not
    depend on [diff]: no deep comparison takes place there. *)
Theorem falsy_entry_is_one_sided blueLogs greenLogs options :
  let n := Nat.max (length blueLogs) (length greenLogs) in
  let blue_falsy := fun i => negb (truthy (at_index blueLogs i)) in
  let green_falsy := fun i => negb (truthy (at_index greenLogs i)) in
  ∃ report,
    compareWorkflowLogs diff config blueLogs greenLogs options = Normal report
    ∧ greenOnlyLogs report
      = List.map (fun i => {| os_index := i; os_log := at_index greenLogs i |})
          (List.filter blue_falsy (seq 0 n))
    ∧ blueOnlyLogs report
      = List.map (fun i => {| os_index := i; os_log := at_index blueLogs i |})
          (List.filter (fun i => negb (blue_falsy i) && green_falsy i) (seq 0 n))
    ∧ greenOnlyCount (summary report) = length (List.filter blue_falsy (seq 0 n))
    ∧ blueOnlyCount (summary report)
      = length (List.filter (fun i => negb (blue_falsy i) && green_falsy i) (seq 0 n))
    ∧ (matchedCount (summary report) + mismatchedCount (summary report)
       = length (List.filter (fun i => negb (blue_falsy i) && negb (green_falsy i)) (seq 0 n)))%nat
    ∧ length (logDifferences report) = mismatchedCount (summary report)
    ∧ (∀ d, d ∈ logDifferences report →
         blue_falsy (ld_index d) = false ∧ green_falsy (ld_index d) = false)
    ∧ (∀ diff' ignoreFields ignorePatterns i r,
         blue_falsy i || green_falsy i = true →
         compare_at diff' blueLogs greenLogs ignoreFields ignorePatterns i r
         = compare_at diff blueLogs greenLogs ignoreFields ignorePatterns i r).
Proof.
  intros n blue_falsy green_falsy.
  assert (Hg : ∀ i, is_pairing GreenOnly blueLogs greenLogs i = blue_falsy i).
  { intros i. unfold is_pairing, pairing, blue_falsy.
    destruct (truthy (at_index blueLogs i)); cbn; [|done].
    by destruct (negb (truthy (at_index greenLogs i))). }
  assert (Hb : ∀ i, is_pairing BlueOnly blueLogs greenLogs i
                    = negb (blue_falsy i) && green_falsy i).
  { intros i. unfold is_pairing, pairing, blue_falsy, green_falsy.
    destruct (truthy (at_index blueLogs i)); cbn; [|done].
    by destruct (truthy (at_index greenLogs i)). }
  assert (Hc : ∀ i, is_pairing Compared blueLogs greenLogs i
                    = negb (blue_falsy i) && negb (green_falsy i)).
  { intros i. unfold is_pairing, pairing, blue_falsy, green_falsy.
    destruct (truthy (at_index blueLogs i)); cbn; [|done].
    by destruct (truthy (at_index greenLogs i)). }
  eexists. split; [apply compareWorkflowLogs_eq|].
  match goal with
  | |- context [fold_left (step _ _ _ ?f ?ps) ?l ?r] =>
      destruct (fold_greenOnly diff blueLogs greenLogs f ps l r) as [Hgl Hgc];
      destruct (fold_blueOnly diff blueLogs greenLogs f ps l r) as [Hbl Hbc];
      destruct (fold_compared diff blueLogs greenLogs f ps l r) as (Hcc & Hcd & Hcl & Hcm & Hcn)
  end.
  cbn zeta in *. cbn [initial_report summary greenOnlyLogs blueOnlyLogs logDifferences
    greenOnlyCount blueOnlyCount matchedCount mismatchedCount app Nat.add length] in *.
  fold n in Hgl, Hgc, Hbl, Hbc, Hcc, Hcd, Hcl, Hcm, Hcn |- *.
  rewrite (List.filter_ext _ _ Hg) in Hgl, Hgc.
  rewrite (List.filter_ext _ _ Hb) in Hbl, Hbc.
  rewrite (List.filter_ext _ _ Hc) in Hcc.
  repeat split; try done.
  - lia.
  - destruct (Hcd d H) as [Hd%elem_of_nil|[_ Hp]]; [done|].
    unfold pairing in Hp. unfold blue_falsy.
    by destruct (negb (truthy (at_index blueLogs (ld_index d)))).
  - destruct (Hcd d H) as [Hd%elem_of_nil|[_ Hp]]; [done|].
    unfold pairing in Hp. unfold green_falsy, blue_falsy in *.
    destruct (negb (truthy (at_index blueLogs (ld_index d)))); [done|].
    by destruct (negb (truthy (at_index greenLogs (ld_index d)))).
  - intros diff' f ps i r Hfalsy. unfold compare_at, blue_falsy, green_falsy in *.
    destruct (negb (truthy (at_index blueLogs i))); [done|].
    destruct (negb (truthy (at_index greenLogs i))); [done|]. done.
Qed.

End ComparatorClaims.

(** C1, as stated, fails where a sequence holds a falsy entry: the blue
    entry at index 1 is [null], so the pair is counted green-only although
    both sequences have length 2. *)
Lemma counters_counterexample :
  let record := VObj [("message", VStr "ok")] in
  let blueLogs := [record; VNull] in
  let greenLogs := [record; record] in
  ∃ report,
    compareWorkflowLogs (engine := reference_engine) reference_diff no_config
      blueLogs greenLogs no_options = Normal report
    ∧ greenOnlyCount (summary report) = 1%nat
    ∧ Nat.max 0 (length greenLogs - length blueLogs) = 0%nat
    ∧ (blueOnlyCount (summary report) + greenOnlyCount (summary report))%nat
      ≠ (Nat.max (length blueLogs) (length greenLogs)
         - Nat.min (length blueLogs) (length greenLogs))%nat.
Proof. eexists. split; [vm_compute; reflexivity|]. cbn. repeat split. lia. Qed.

Lemma compareWorkflowLogs_counters_witness :
  let record := VObj [("message", VStr "ok")] in
  ∃ report,
    compareWorkflowLogs (engine := reference_engine) reference_diff no_config
      [record; record; record] [record; record] no_options = Normal report
    ∧ blueOnlyCount (summary report) = 1%nat
    ∧ greenOnlyCount (summary report) = 0%nat
    ∧ matchedCount (summary report) = 2%nat.
Proof.
  intros record.
  destruct (compareWorkflowLogs_counters (engine := reference_engine) reference_diff no_config
              [record; record; record] [record; record] no_options)
    as (report & Hrun & Hsum & Hsides).
  exists report. split; [exact Hrun|].
  destruct Hsides as (Hb & Hg & _).
  - repeat constructor.
  - repeat constructor.
  - split; [exact Hb|]. split; [exact Hg|].
    cbn in Hsum, Hb, Hg. rewrite Hb, Hg in Hsum.
    vm_compute in Hrun. injection Hrun as <-. reflexivity.
Defined.

(** * An invalid pattern is skipped *)

Section InvalidPattern.
Context {engine : RegExpEngine}.

Lemma ignored_skip bad e before after path fields :
  RegExp_new bad = Throw e →
  ignored path fields (before ++ bad :: after) = ignored path fields (before ++ after).
Proof.
  intros Hbad. unfold ignored. f_equal.
  rewrite !existsb_app. cbn [existsb]. unfold pattern_applies at 2. by rewrite Hbad.
Qed.

Lemma filtered_ext fields ps ps' :
  (∀ path, ignored path fields ps = ignored path fields ps') →
  ∀ obj parent, filtered obj fields ps parent = filtered obj fields ps' parent.
Proof.
  intros Hext obj. induction obj as [| | | | |items IH|fs IH] using value_nested_ind;
    intros parent; try done.
  - rewrite !filtered_arr. f_equal. generalize 0%nat.
    induction IH as [|x l Hx Hl IHl]; intros i; [done|].
    cbn [filtered_items]. by rewrite Hx, IHl.
  - rewrite !filtered_obj. f_equal.
    induction IH as [|[k v] l Hx Hl IHl]; [done|].
    cbn [filtered_fields]. rewrite Hext, IHl. cbn in Hx. by rewrite Hx.
Qed.

Lemma step_same_findings diff blueLogs greenLogs fields ps ps' r r' i :
  (∀ path, ignored path fields ps = ignored path fields ps') →
  same_findings r r' →
  same_findings (step diff blueLogs greenLogs fields ps r i)
                (step diff blueLogs greenLogs fields ps' r' i).
Proof.
  intros Hext (H1 & H2 & H3 & H4 & H5 & H6 & H7).
  unfold step, compared. rewrite !(filtered_ext fields ps ps' Hext).
  destruct (pairing blueLogs greenLogs i).
  - unfold same_findings. cbn. by rewrite H1, H2, H3, H4, H5, H6, H7.
  - unfold same_findings. cbn. by rewrite H1, H2, H3, H4, H5, H6, H7.
  - cbn zeta. case_differences; unfold same_findings; cbn;
      by rewrite H1, H2, H3, H4, H5, H6, H7.
Qed.

Lemma fold_same_findings diff blueLogs greenLogs fields ps ps' l r r' :
  (∀ path, ignored path fields ps = ignored path fields ps') →
  same_findings r r' →
  same_findings (fold_left (step diff blueLogs greenLogs fields ps) l r)
                (fold_left (step diff blueLogs greenLogs fields ps') l r').
Proof.
  intros Hext. revert r r'. induction l as [|i l IH]; intros r r' Hr; [done|].
  cbn [fold_left]. apply IH. by apply step_same_findings.
Qed.

(** C6. A pattern that [new RegExp] rejects is skipped: no call raises,
    and [shouldIgnoreField], [removeIgnoredFields] and [compareLogEntries]
    return what they return for the remaining patterns;
    [compareWorkflowLogs] returns a report with the same findings (the
    report also lists the patterns it was given). *)
Theorem invalid_pattern_is_skipped (bad : string) (e : exn) (before after fields : list string) :
  RegExp_new bad = Throw e →
  (∀ path,
     returns (shouldIgnoreField path fields (before ++ bad :: after))
     ∧ shouldIgnoreField path fields (before ++ bad :: after)
       = shouldIgnoreField path fields (before ++ after))
  ∧ (∀ obj parent,
       returns (removeIgnoredFields obj fields (before ++ bad :: after) parent)
       ∧ removeIgnoredFields obj fields (before ++ bad :: after) parent
         = removeIgnoredFields obj fields (before ++ after) parent)
  ∧ (∀ diff blueLog greenLog,
       returns (compareLogEntries diff blueLog greenLog fields (before ++ bad :: after))
       ∧ compareLogEntries diff blueLog greenLog fields (before ++ bad :: after)
         = compareLogEntries diff blueLog greenLog fields (before ++ after))
  ∧ (∀ diff blueLogs greenLogs matchField,
       ∃ report report',
         compareWorkflowLogs diff {| cfg_ignoreFields := fields; cfg_ignorePatterns := before |}
           blueLogs greenLogs
           {| opt_ignoreFields := None; opt_ignorePatterns := Some (bad :: after);
              opt_matchField := matchField |} = Normal report
         ∧ compareWorkflowLogs diff {| cfg_ignoreFields := fields; cfg_ignorePatterns := before |}
             blueLogs greenLogs
             {| opt_ignoreFields := None; opt_ignorePatterns := Some after;
                opt_matchField := matchField |} = Normal report'
         ∧ same_findings report report').
Proof.
  intros Hbad.
  assert (Hext : ∀ path, ignored path fields (before ++ bad :: after)
                         = ignored path fields (before ++ after))
    by (intros; by eapply ignored_skip).
  repeat split.
  - rewrite shouldIgnoreField_eq. by eexists.
  - by rewrite !shouldIgnoreField_eq, Hext.
  - rewrite removeIgnoredFields_eq. by eexists.
  - by rewrite !removeIgnoredFields_eq, (filtered_ext _ _ _ Hext).
  - rewrite compareLogEntries_eq. by eexists.
  - rewrite !compareLogEntries_eq. unfold compared. by rewrite !(filtered_ext _ _ _ Hext).
  - intros diff blueLogs greenLogs matchField. do 2 eexists.
    split; [apply compareWorkflowLogs_eq|]. split; [apply compareWorkflowLogs_eq|].
    cbn [cfg_ignoreFields cfg_ignorePatterns opt_ignoreFields opt_ignorePatterns default].
    rewrite !app_nil_r.
    apply fold_same_findings; [exact Hext|]. by repeat split.
Qed.

End InvalidPattern.

Lemma invalid_pattern_is_skipped_witness :
  RegExp_new (RegExpEngine := reference_engine) "(" = Throw (SyntaxError "Invalid regular expression")
  ∧ shouldIgnoreField (engine := reference_engine) "event.timestamp" [] ["("; "^event\."]
    = Normal true
  ∧ removeIgnoredFields (engine := reference_engine)
      (VObj [("event", VObj [("timestamp", VStr "t1")]); ("v", VStr "1")]) [] ["("; "stamp$"] ""
    = Normal (VObj [("event", VObj []); ("v", VStr "1")]).
Proof.
  split; [reflexivity|].
  destruct (invalid_pattern_is_skipped (engine := reference_engine) "("
              (SyntaxError "Invalid regular expression") [] ["^event\."] [] eq_refl)
    as (Hshould & _).
  destruct (invalid_pattern_is_skipped (engine := reference_engine) "("
              (SyntaxError "Invalid regular expression") [] ["stamp$"] [] eq_refl)
    as (_ & Hremove & _).
  split.
  - etransitivity; [exact (proj2 (Hshould "event.timestamp"))|]. vm_compute. reflexivity.
  - etransitivity; [exact (proj2 (Hremove _ ""))|]. vm_compute. reflexivity.
Defined.

(** * The reference [diff] reports positions of its operands *)

Lemma own_property_elem {A} (k : string) (l : list (string * A)) (v : A) :
  own_property k l = Some v → (k, v) ∈ l.
Proof.
  induction l as [|[k' v'] l IH]; [done|]. cbn.
  destruct (String.eqb_spec k' k) as [->|Hne]; [intros [= ->]; by left|].
  intros H. right. by apply IH.
Qed.







(** * Claims about the exclusion filter *)

Section ExclusionClaims.
Context {engine : RegExpEngine}.
Variables (fields patterns : list string).




End ExclusionClaims.



(** * The error scorer *)

(** Every regular expression literal of the catalog is in the fragment
    [RegExp.parse] reads. *)
Lemma catalog_parses :
  forallb (fun src => match RegExp.parse src with Some _ => true | None => false end)
    [ "\b(critical|severe|fatal|serious|major)\b"; "\bunexpected\b"; "\bunhandled\b";
      "\buncaught\b"; "\b(no\s+error|without\s+error|error\s+free|successfully)\b";
      "\b(checking\s+for|looking\s+for|searching\s+for)\b";
      "\bif\s+.*\s+(error|fail|null|undefined)\b"; "\b(test|mock|stub|fake|dummy)\b";
      "\bdebug(ging)?\b";
      "([A-Za-z][A-Za-z0-9_ ]*?)\s*:\s*([^\s,;)\]]+)"; "([A-Za-z][A-Za-z0-9_]*)\s*=\s*([^\s,;)\]]+)";
      "([A-Za-z][A-Za-z0-9_ ]*?)\s*->\s*([^\s,;)\]]+)";
      "([A-Za-z][A-Za-z0-9_]*)\s*=>\s*([^\s,;)\]]+)" ] = true
  ∧ forallb
      (fun p => match RegExp.tree (regex p) with RegExp.Class false [] => false | _ => true end)
      STRUCTURAL_PATTERNS = true.
Proof. split; vm_compute; reflexivity. Qed.

Lemma analyze_falsy (log : value) :
  truthy log = false → analyzeLogForErrors log = Normal initial_result.
Proof. intros H. unfold analyzeLogForErrors. by rewrite H. Qed.

Lemma analyze_strings (log : value) (l m : string) :
  truthy log = true → level_value log = VStr l → message_value log = VStr m →
  analyzeLogForErrors log
  = Normal (let '(modifier, result) :=
              with_modifiers m (accumulate (Str.trim (Str.toLowerCase l)) (Str.toLowerCase m) m) in
            classify modifier result).
Proof.
  intros Ht Hl Hm. unfold level_value, message_value in Hl, Hm.
  unfold analyzeLogForErrors. rewrite Ht, Hl, Hm.
  unfold toLowerCase_method, mbind, completion_bind, mret, completion_ret.
  unfold with_modifiers, accumulate, classify. cbv beta iota.
  match goal with
  | |- context [fold_left (apply_modifier "Amplifier: severity increased" m) amplifiers ?x] =>
      destruct (fold_left (apply_modifier "Amplifier: severity increased" m) amplifiers x)
        as [q1 r1]
  end.
  match goal with
  | |- context [fold_left (apply_modifier "Dampener: possible false positive" m) dampeners ?x] =>
      destruct (fold_left (apply_modifier "Dampener: possible false positive" m) dampeners x)
        as [q2 r2]
  end.
  reflexivity.
Qed.

Lemma string_or_falsy_or (v : value) (s : string) :
  string_or_falsy v → ∃ s', js_or v (VStr s) = VStr s'.
Proof.
  intros [Hf|[s' ->]]; unfold js_or.
  - rewrite Hf. by eexists.
  - destruct (truthy (VStr s')); by eexists.
Qed.


(** *** Scores never decrease *)


Lemma keyword_scores_nonneg :
  forallb (fun kv => 0 <=? snd kv) NEGATIVE_ACTION_KEYWORDS = true.
Proof. vm_compute. reflexivity. Qed.

Lemma pattern_scores_nonneg :
  forallb (fun p => 0 <=? p_score p) STRUCTURAL_PATTERNS = true.
Proof. vm_compute. reflexivity. Qed.

Lemma own_property_forallb {A} (P : string * A → bool) (k : string) (l : list (string * A)) v :
  forallb P l = true → own_property k l = Some v → ∃ k', P (k', v) = true.
Proof.
  induction l as [|[k' v'] l IH]; [done|]. cbn.
  intros [H1 H2]%andb_true_iff. destruct (String.eqb k' k).
  - intros [= <-]. by exists k'.
  - by apply IH.
Qed.


Lemma score_keywords_from (messageLower : string) (kws : list (string * Z)) (lo : Z) r :
  forallb (fun kv => 0 <=? snd kv) kws = true →
  score_from lo r → score_from lo (fold_left (score_keyword messageLower) kws r).
Proof.
  revert r. induction kws as [|[kw sc] kws IH]; intros r Hall Hr; [done|].
  cbn in Hall. apply andb_true_iff in Hall as [Hsc%Z.leb_le Hall].
  cbn [fold_left]. apply IH; [done|]. unfold score_keyword.
  destruct (Str.includes messageLower kw); [|done].
  destruct Hr as (n & Hn & Hlo). exists (n + sc). cbn. rewrite Hn. split; [done|lia].
Qed.

Lemma score_patterns_from (message : string) (pats : list Pattern) (lo : Z) r :
  forallb (fun p => 0 <=? p_score p) pats = true →
  score_from lo r → score_from lo (fold_left (score_pattern message) pats r).
Proof.
  revert r. induction pats as [|p pats IH]; intros r Hall Hr; [done|].
  cbn in Hall. apply andb_true_iff in Hall as [Hsc%Z.leb_le Hall].
  cbn [fold_left]. apply IH; [done|]. unfold score_pattern.
  destruct (RegExp.test (regex p) message); [|done].
  destruct Hr as (n & Hn & Hlo). exists (n + p_score p).
  split; [|lia]. cbn zeta. by destruct (existsb _ _); cbn; rewrite Hn.
Qed.


Lemma accumulate_fatal (messageLower message : string) :
  score_from 100 (accumulate "fatal" messageLower message).
Proof.
  unfold accumulate.
  apply score_patterns_from; [exact pattern_scores_nonneg|].
  apply score_keywords_from; [exact keyword_scores_nonneg|].
  by exists 100.
Qed.

(** *** The modifier stage *)

Lemma apply_modifiers_eq (why message : string) (mods : list Modifier) (q : Q) r :
  let out := fold_left (apply_modifier why message) mods (q, r) in
  fst out = product q (matching mods message) ∧ score (snd out) = score r
  ∧ categories (snd out) = categories r ∧ isError (snd out) = isError r
  ∧ confidence (snd out) = confidence r.
Proof.
  revert q r. induction mods as [|md mods IH]; intros q r; [done|].
  cbn [fold_left].
  assert (Hstep : apply_modifier why message (q, r) md
                  = if RegExp.test (m_regex md) message
                    then (times q (multiplier md), push_reason why r) else (q, r)) by done.
  rewrite Hstep. unfold matching. cbn [List.filter].
  destruct (RegExp.test (m_regex md) message).
  - destruct (IH (times q (multiplier md)) (push_reason why r)) as (H1 & H2 & H3 & H4 & H5).
    cbn zeta in *. repeat split; [exact H1|exact H2|exact H3|exact H4|exact H5].
  - apply IH.
Qed.

Lemma with_modifiers_eq (message : string) (r : ErrorAnalysis) :
  let out := with_modifiers message r in
  fst out = product (product 1 (matching amplifiers message)) (matching dampeners message)
  ∧ score (snd out) = score r ∧ categories (snd out) = categories r
  ∧ isError (snd out) = isError r ∧ confidence (snd out) = confidence r.
Proof.
  unfold with_modifiers.
  destruct (fold_left (apply_modifier "Amplifier: severity increased" message) amplifiers
              (1%Q, r)) as [q1 r1] eqn:H1.
  pose proof (apply_modifiers_eq "Amplifier: severity increased" message amplifiers 1 r) as Ha.
  pose proof (apply_modifiers_eq "Dampener: possible false positive" message dampeners q1 r1)
    as Hd.
  cbn zeta in *. rewrite H1 in Ha. cbn [fst snd] in Ha.
  destruct Ha as (A1 & A2 & A3 & A4 & A5). destruct Hd as (D1 & D2 & D3 & D4 & D5).
  rewrite D1, D2, D3, D4, D5, A1. done.
Qed.

Local Open Scope Q_scope.

(** *** Rounding to binary64 is monotone *)

Lemma pow2_pos e : 0 < pow2 e.
Proof. apply Qpower_0_lt. reflexivity. Qed.

Lemma pow2_add a b : pow2 (a + b) == pow2 a * pow2 b.
Proof. apply Qpower_plus. discriminate. Qed.

Lemma pow2_le a b : (a <= b)%Z → pow2 a <= pow2 b.
Proof. intros H. apply Qpower_le_compat_l; [done|discriminate]. Qed.

Lemma pow2_lt_inv a b : pow2 a < pow2 b → (a < b)%Z.
Proof. intros H. apply (Qpower_lt_compat_l_inv 2); [done|reflexivity]. Qed.

Lemma pow2_inject (n : Z) : (0 <= n)%Z → inject_Z (2 ^ n) == pow2 n.
Proof. intros H. by apply Zpower_Qpower. Qed.

Lemma log2_floor_spec (x : Q) :
  0 < x → pow2 (log2_floor x) <= x ∧ x < pow2 (log2_floor x + 1).
Proof.
  intros Hx. destruct x as [n d]. unfold log2_floor. cbn [Qnum Qden].
  assert (Hn : (0 < n)%Z) by (unfold Qlt in Hx; cbn in Hx; lia).
  set (a := Z.log2 n). set (b := Z.log2 (Z.pos d)).
  destruct (Z.log2_spec n Hn) as [Ha1 Ha2]. fold a in Ha1, Ha2.
  destruct (Z.log2_spec (Z.pos d) eq_refl) as [Hb1 Hb2]. fold b in Hb1, Hb2.
  assert (Ha0 : (0 <= a)%Z) by apply Z.log2_nonneg.
  assert (Hb0 : (0 <= b)%Z) by apply Z.log2_nonneg.
  assert (Hup : n # d < pow2 (a - b + 1)).
  { rewrite (Qmake_Qdiv n d). apply Qlt_shift_div_r; [reflexivity|].
    apply Qlt_le_trans with (pow2 (a - b + 1) * pow2 b).
    - rewrite <- pow2_add. replace (a - b + 1 + b)%Z with (Z.succ a) by lia.
      rewrite <- pow2_inject by lia. by rewrite <- Zlt_Qlt.
    - rewrite !(Qmult_comm (pow2 (a - b + 1))).
      apply Qmult_le_compat_r; [|apply Qlt_le_weak, pow2_pos].
      rewrite <- pow2_inject by lia. by rewrite <- Zle_Qle. }
  assert (Hlo : pow2 (a - b - 1) <= n # d).
  { rewrite (Qmake_Qdiv n d). apply Qle_shift_div_l; [reflexivity|].
    apply Qle_trans with (pow2 (a - b - 1) * pow2 (b + 1)).
    - rewrite !(Qmult_comm (pow2 (a - b - 1))).
      apply Qmult_le_compat_r; [|apply Qlt_le_weak, pow2_pos].
      rewrite <- pow2_inject by lia. rewrite <- Zle_Qle. change (Z.pos d <= 2 ^ Z.succ b)%Z. lia.
    - rewrite <- pow2_add. replace (a - b - 1 + (b + 1))%Z with a by lia.
      rewrite <- pow2_inject by lia. by rewrite <- Zle_Qle. }
  destruct (Qle_bool (pow2 (a - b)) (n # d)) eqn:Hk.
  - apply Qle_bool_iff in Hk. by split.
  - split; [done|]. replace (a - b - 1 + 1)%Z with (a - b)%Z by lia.
    apply Qnot_le_lt. intros H. apply Qle_bool_iff in H. congruence.
Qed.

Lemma log2_floor_monotone (x y : Q) : 0 < x → x <= y → (log2_floor x <= log2_floor y)%Z.
Proof.
  intros Hx Hxy.
  destruct (log2_floor_spec x Hx) as [H1 _].
  destruct (log2_floor_spec y) as [_ H2]; [by eapply Qlt_le_trans|].
  enough (log2_floor x < log2_floor y + 1)%Z by lia.
  apply pow2_lt_inv. eapply Qle_lt_trans; [exact H1|]. by eapply Qle_lt_trans.
Qed.

Lemma round_half_even_bounds (x : Q) :
  (Qfloor x <= round_half_even x <= Qfloor x + 1)%Z.
Proof.
  unfold round_half_even. cbn zeta.
  destruct (x - inject_Z (Qfloor x) ?= 1 # 2); [destruct (Z.even (Qfloor x))|..]; lia.
Qed.

Lemma round_half_even_monotone (x y : Q) : x <= y → (round_half_even x <= round_half_even y)%Z.
Proof.
  intros Hxy. pose proof (Qfloor_resp_le x y Hxy) as Hf.
  destruct (Z.eq_dec (Qfloor x) (Qfloor y)) as [Heq|Hne].
  - unfold round_half_even. cbn zeta. rewrite <- Heq.
    assert (Hr : x - inject_Z (Qfloor x) <= y - inject_Z (Qfloor x)).
    { unfold Qminus. by apply Qplus_le_l. }
    destruct (x - inject_Z (Qfloor x) ?= 1 # 2) eqn:Hcx;
      destruct (y - inject_Z (Qfloor x) ?= 1 # 2) eqn:Hcy;
      try (destruct (Z.even (Qfloor x)); lia); try lia.
    + (* x at half, y below half *)
      apply Qeq_alt in Hcx. apply Qlt_alt in Hcy. rewrite Hcx in Hr.
      exfalso. by apply (Qlt_not_le _ _ Hcy).
    + apply Qgt_alt in Hcx. apply Qeq_alt in Hcy. rewrite Hcy in Hr.
      exfalso. by apply (Qlt_not_le _ _ Hcx).
    + apply Qgt_alt in Hcx. apply Qlt_alt in Hcy.
      exfalso. apply (Qlt_not_le _ _ Hcx). eapply Qle_trans; [exact Hr|]. by apply Qlt_le_weak.
  - pose proof (round_half_even_bounds x). pose proof (round_half_even_bounds y). lia.
Qed.

Lemma round_half_even_integer (n : Z) : round_half_even (inject_Z n) = n.
Proof.
  unfold round_half_even. cbn zeta. rewrite Qfloor_Z.
  assert (H : (inject_Z n - inject_Z n ?= 1 # 2) = Lt).
  { apply Qlt_alt. setoid_replace (inject_Z n - inject_Z n) with 0 using relation Qeq by ring. reflexivity. }
  by rewrite H.
Qed.

Lemma nearest64_monotone (x y : Q) : 0 < x → x <= y → nearest64 x <= nearest64 y.
Proof.
  intros Hx Hxy. assert (Hy : 0 < y) by by eapply Qlt_le_trans.
  pose proof (log2_floor_monotone x y Hx Hxy) as Hl.
  destruct (log2_floor_spec x Hx) as [_ Hxu]. destruct (log2_floor_spec y Hy) as [Hyl _].
  unfold nearest64. cbn zeta.
  destruct (Z.eq_dec (log2_floor x) (log2_floor y)) as [Heq|Hne].
  - rewrite <- Heq. apply Qmult_le_compat_r; [|apply Qlt_le_weak, pow2_pos].
    rewrite <- Zle_Qle. apply round_half_even_monotone.
    unfold Qdiv. apply Qmult_le_compat_r; [done|]. apply Qlt_le_weak, Qinv_lt_0_compat, pow2_pos.
  - apply Qle_trans with (pow2 (log2_floor x + 1)).
    + setoid_replace (pow2 (log2_floor x + 1)) with (inject_Z (2 ^ 53) * pow2 (log2_floor x - 52)) using relation Qeq.
      2:{ replace (log2_floor x + 1)%Z with (53 + (log2_floor x - 52))%Z by lia.
          rewrite pow2_add, pow2_inject by lia. reflexivity. }
      apply Qmult_le_compat_r; [|apply Qlt_le_weak, pow2_pos].
      rewrite <- Zle_Qle. rewrite <- (round_half_even_integer (2 ^ 53)).
      apply round_half_even_monotone. apply Qle_shift_div_r; [apply pow2_pos|].
      rewrite pow2_inject by lia. rewrite <- pow2_add.
      replace (53 + (log2_floor x - 52))%Z with (log2_floor x + 1)%Z by lia. by apply Qlt_le_weak.
    + apply Qle_trans with (pow2 (log2_floor y)); [apply pow2_le; lia|].
      setoid_replace (pow2 (log2_floor y)) with (inject_Z (2 ^ 52) * pow2 (log2_floor y - 52)) using relation Qeq.
      2:{ replace (log2_floor y) with (52 + (log2_floor y - 52))%Z at 1 by lia.
          rewrite pow2_add, pow2_inject by lia. reflexivity. }
      apply Qmult_le_compat_r; [|apply Qlt_le_weak, pow2_pos].
      rewrite <- Zle_Qle. rewrite <- (round_half_even_integer (2 ^ 52)).
      apply round_half_even_monotone. apply Qle_shift_div_l; [apply pow2_pos|].
      rewrite pow2_inject by lia. rewrite <- pow2_add.
      by replace (52 + (log2_floor y - 52))%Z with (log2_floor y) by lia.
Qed.

Lemma nearest64_nonneg (x : Q) : 0 < x → 0 <= nearest64 x.
Proof.
  intros Hx. unfold nearest64. cbn zeta.
  apply Qmult_le_0_compat; [|apply Qlt_le_weak, pow2_pos].
  change 0 with (inject_Z 0). rewrite <- Zle_Qle.
  rewrite <- (round_half_even_integer 0). apply round_half_even_monotone.
  apply Qle_shift_div_l; [apply pow2_pos|]. rewrite Qmult_0_l. by apply Qlt_le_weak.
Qed.

Lemma binary64_nonneg (x : Q) : 0 <= x → 0 <= binary64 x.
Proof.
  intros Hx. unfold binary64. destruct (x ?= 0) eqn:Hc.
  - apply Qle_refl.
  - apply Qlt_alt in Hc. exfalso. by apply (Qlt_not_le _ _ Hc).
  - apply Qgt_alt in Hc. rewrite Qred_correct. by apply nearest64_nonneg.
Qed.

Lemma binary64_monotone (x y : Q) : 0 <= x → x <= y → binary64 x <= binary64 y.
Proof.
  intros Hx Hxy. unfold binary64 at 1. destruct (x ?= 0) eqn:Hc.
  - apply binary64_nonneg. by eapply Qle_trans.
  - apply Qlt_alt in Hc. exfalso. by apply (Qlt_not_le _ _ Hc).
  - apply Qgt_alt in Hc. unfold binary64.
    assert (Hy : 0 < y) by by eapply Qlt_le_trans.
    apply Qgt_alt in Hy. rewrite Hy. rewrite !Qred_correct. by apply nearest64_monotone.
Qed.

Lemma times_monotone (a a' b b' : Q) :
  0 <= a → a <= a' → 0 <= b → b <= b' → times a b <= times a' b'.
Proof.
  intros Ha Haa Hb Hbb. apply binary64_monotone; [by apply Qmult_le_0_compat|].
  apply Qle_trans with (a' * b).
  - by apply Qmult_le_compat_r.
  - rewrite !(Qmult_comm a'). apply Qmult_le_compat_r; [done|]. by apply Qle_trans with a.
Qed.

Lemma times_nonneg (a b : Q) : 0 <= a → 0 <= b → 0 <= times a b.
Proof. intros Ha Hb. apply binary64_nonneg. by apply Qmult_le_0_compat. Qed.

Lemma binary64_integers :
  binary64 0 = 0 ∧ binary64 1 = 1 ∧ binary64 100 = 100.
Proof. repeat split; vm_compute; reflexivity. Qed.

(** *** The running modifier *)

Lemma product_nonneg (mods : list Modifier) (q : Q) :
  0 <= q → Forall (fun md => 0 <= multiplier md) mods → 0 <= product q mods.
Proof.
  unfold product. revert q. induction mods as [|md mods IH]; intros q Hq Hall; [done|].
  apply Forall_cons in Hall as [Hmd Hall]. cbn [List.map fold_left].
  apply IH; [|done]. by apply times_nonneg.
Qed.

Lemma product_monotone (mods : list Modifier) (q q' : Q) :
  0 <= q → q <= q' → Forall (fun md => 0 <= multiplier md) mods →
  product q mods <= product q' mods.
Proof.
  unfold product. revert q q'. induction mods as [|md mods IH]; intros q q' Hq Hqq Hall; [done|].
  apply Forall_cons in Hall as [Hmd Hall]. cbn [List.map fold_left].
  apply IH; [by apply times_nonneg| |done].
  apply times_monotone; [done|done|done|apply Qle_refl].
Qed.

Lemma product_at_least_one (mods : list Modifier) (q : Q) :
  1 <= q → Forall (fun md => 1 <= multiplier md) mods → 1 <= product q mods.
Proof.
  unfold product. revert q. induction mods as [|md mods IH]; intros q Hq Hall; [done|].
  apply Forall_cons in Hall as [Hmd Hall]. cbn [List.map fold_left].
  apply IH; [|done]. destruct binary64_integers as (_ & H1 & _).
  rewrite <- H1 at 1. unfold times. apply binary64_monotone; [discriminate|].
  apply Qle_trans with (1 * multiplier md); [by rewrite Qmult_1_l|].
  apply Qmult_le_compat_r; [done|]. by apply Qle_trans with 1.
Qed.

Lemma matching_Forall (P : Modifier → Prop) (mods : list Modifier) (message : string) :
  Forall P mods → Forall P (matching mods message).
Proof.
  intros H. apply Forall_forall. intros md Hin.
  apply list_elem_of_In, filter_In in Hin as [Hin _].
  by apply (proj1 (Forall_forall _ _) H), list_elem_of_In.
Qed.

Lemma amplifiers_at_least_one : Forall (fun md => 1 <= multiplier md) amplifiers.
Proof. repeat constructor; vm_compute; discriminate. Qed.

Lemma dampeners_nonneg : Forall (fun md => 0 <= multiplier md) dampeners.
Proof. repeat constructor; vm_compute; discriminate. Qed.

(** The modifier is not negative, and at least the product of the matching
    dampeners. *)
Lemma modifier_bounds (message : string) :
  let q := product (product 1 (matching amplifiers message)) (matching dampeners message) in
  0 <= q ∧ product 1 (matching dampeners message) <= q.
Proof.
  cbn zeta.
  pose proof (product_at_least_one (matching amplifiers message) 1 (Qle_refl 1)
                (matching_Forall _ _ message amplifiers_at_least_one)) as Ha.
  pose proof (matching_Forall _ _ message dampeners_nonneg) as Hd.
  split.
  - apply product_nonneg; [|done]. by apply Qle_trans with 1.
  - by apply product_monotone.
Qed.

Lemma Math_round_monotone (x y : Q) : x <= y → (Math_round x <= Math_round y)%Z.
Proof.
  intros H. unfold Math_round. apply Qfloor_resp_le. by apply Qplus_le_l.
Qed.

Lemma scaled_round_lower (lo n : Z) (q d : Q) :
  (0 <= lo)%Z → (lo <= n)%Z → 0 <= d → d <= q →
  (Math_round (times (inject_Z lo) d) <= Math_round (times (inject_Z n) q))%Z.
Proof.
  intros Hlo Hn Hd Hq. apply Math_round_monotone.
  apply times_monotone; [|by rewrite <- Zle_Qle|done|done].
  change 0 with (inject_Z 0). by rewrite <- Zle_Qle.
Qed.

(** The rounding agrees with the multiplication of [SpecFloat] on the
    multipliers of the catalog. *)
Example times_as_SpecFloat :
  let seven_tenths := S754_finite false 6305039478318694 (-53) in
  let forty_five := S754_finite false 45 0 in
  binary64 (7 # 10) == SF2Q seven_tenths
  ∧ times 45 (binary64 (7 # 10)) == SF2Q (SFmul 53 1024 forty_five seven_tenths)
  ∧ Math_round (times 45 (binary64 (7 # 10))) = 31%Z.
Proof. repeat split; vm_compute; reflexivity. Qed.

Local Close Scope Q_scope.

(** *** Classification *)

Lemma at_least_reaches (s : number) (k : Z) : at_least s k = true ↔ reaches s k.
Proof.
  unfold reaches. destruct s as [n|]; cbn.
  - rewrite Z.leb_le. split; [intros H; by exists n|by intros (n' & [= <-] & H)].
  - split; [done|by intros (n & ? & _)].
Qed.

Lemma classify_spec (q : Q) (r0 : ErrorAnalysis) :
  confidence r0 = LOW →
  let r := classify q r0 in
  score r = round_times (score r0) q
  ∧ isError r = at_least (score r) ERROR_SCORE_THRESHOLD
  ∧ confidence r
    = (if at_least (score r) HIGH_CONFIDENCE_THRESHOLD then HIGH
       else if at_least (score r) ERROR_SCORE_THRESHOLD then MEDIUM else LOW).
Proof.
  intros Hlow. unfold classify. cbn zeta.
  cbn [set_score set_isError score isError].
  destruct (at_least (round_times (score r0) q) HIGH_CONFIDENCE_THRESHOLD) eqn:Hh;
    [|destruct (at_least (round_times (score r0) q) ERROR_SCORE_THRESHOLD) eqn:He];
    cbn [set_confidence set_isError set_score categories isError score confidence];
    destruct ((length (categories r0) =? 0)%nat && _); cbn;
    rewrite ?Hlow; repeat split; try done.
  all: by rewrite ?Hh, ?He.
Qed.

Lemma score_level_confidence logLevel r :
  confidence (score_level logLevel r) = confidence r.
Proof.
  unfold score_level. destruct (String.eqb logLevel ""); [done|].
  by destruct (lookup_level logLevel).
Qed.

Lemma score_keywords_confidence messageLower kws r :
  confidence (fold_left (score_keyword messageLower) kws r) = confidence r.
Proof.
  revert r. induction kws as [|[kw sc] kws IH]; intros r; [done|].
  cbn [fold_left]. rewrite IH. unfold score_keyword.
  by destruct (Str.includes messageLower kw).
Qed.

Lemma score_patterns_confidence message pats r :
  confidence (fold_left (score_pattern message) pats r) = confidence r.
Proof.
  revert r. induction pats as [|p pats IH]; intros r; [done|].
  cbn [fold_left]. rewrite IH. unfold score_pattern.
  destruct (RegExp.test (regex p) message); [|done]. cbn zeta.
  by destruct (existsb _ _).
Qed.

Lemma accumulate_confidence logLevel messageLower message :
  confidence (accumulate logLevel messageLower message) = LOW.
Proof.
  unfold accumulate.
  by rewrite score_patterns_confidence, score_keywords_confidence, score_level_confidence.
Qed.

Lemma analyze_cases (log : value) :
  truthy log = true →
  (∃ l m, level_value log = VStr l ∧ message_value log = VStr m)
  ∨ (∃ e, analyzeLogForErrors log = Throw e).
Proof.
  intros Ht.
  assert (Hlevel : (∃ l, level_value log = VStr l) ∨ ∃ e, analyzeLogForErrors log = Throw e).
  { destruct (level_value log) eqn:Hl; [right|right|right|right|left; by eexists|right|right];
      unfold level_value in Hl; unfold analyzeLogForErrors; rewrite Ht, Hl;
      by eexists. }
  destruct Hlevel as [[l Hl]|?]; [|by right].
  destruct (message_value log) eqn:Hm;
    [right|right|right|right|left; by exists l, s|right|right];
    unfold level_value in Hl; unfold message_value in Hm;
    unfold analyzeLogForErrors; rewrite Ht, Hl, Hm; by eexists.
Qed.

Lemma analyze_classified (log : value) (r : ErrorAnalysis) :
  analyzeLogForErrors log = Normal r →
  isError r = at_least (score r) ERROR_SCORE_THRESHOLD
  ∧ confidence r
    = (if at_least (score r) HIGH_CONFIDENCE_THRESHOLD then HIGH
       else if at_least (score r) ERROR_SCORE_THRESHOLD then MEDIUM else LOW).
Proof.
  intros Hrun. destruct (truthy log) eqn:Ht.
  - destruct (analyze_cases log Ht) as [(l & m & Hl & Hm)|[e He]]; [|congruence].
    rewrite (analyze_strings log l m Ht Hl Hm) in Hrun.
    destruct (with_modifiers m _) as [q r0] eqn:Hmod.
    injection Hrun as <-.
    pose proof (with_modifiers_eq m (accumulate (Str.trim (Str.toLowerCase l))
                                       (Str.toLowerCase m) m)) as Hw.
    cbn zeta in Hw. rewrite Hmod in Hw. cbn [fst snd] in Hw.
    destruct Hw as (_ & _ & _ & _ & Hconf). rewrite accumulate_confidence in Hconf.
    destruct (classify_spec q r0 Hconf) as (_ & H1 & H2). done.
  - rewrite (analyze_falsy log Ht) in Hrun. by injection Hrun as <-.
Qed.

(** * Claims about the error scorer *)

(** C3. For the [ErrorAnalysis] a record yields, [isError] holds exactly
    when the score is at least 25; the confidence is [HIGH] exactly when
    the score is at least 50, [MEDIUM] exactly when it is at least 25 and
    not at least 50, and [LOW] otherwise; so [LOW] occurs only when
    [isError] is false. *)
Theorem classification_thresholds (log : value) (r : ErrorAnalysis) :
  analyzeLogForErrors log = Normal r →
  (isError r = true ↔ reaches (score r) 25)
  ∧ (confidence r = HIGH ↔ reaches (score r) 50)
  ∧ (confidence r = MEDIUM ↔ reaches (score r) 25 ∧ ¬ reaches (score r) 50)
  ∧ (confidence r = LOW ↔ ¬ reaches (score r) 25)
  ∧ (confidence r = LOW → isError r = false).
Proof.
  intros Hrun. destruct (analyze_classified log r Hrun) as [He Hc].
  rewrite <- !at_least_reaches. rewrite He, Hc.
  change ERROR_SCORE_THRESHOLD with 25. change HIGH_CONFIDENCE_THRESHOLD with 50.
  assert (Hmono : at_least (score r) 50 = true → at_least (score r) 25 = true).
  { rewrite !at_least_reaches. intros (n & Hn & H). exists n. split; [done|lia]. }
  destruct (at_least (score r) 50), (at_least (score r) 25);
    try (specialize (Hmono eq_refl); discriminate Hmono);
    repeat split; try done; try (by intros []); by intros [? ?].
Qed.

Lemma classification_thresholds_witness :
  let log := VObj [("message", VStr "get session variable not found"); ("level", VStr "error")] in
  ∃ r, analyzeLogForErrors log = Normal r
       ∧ score r = Int 175 ∧ isError r = true ∧ confidence r = HIGH.
Proof.
  intros log.
  assert (Hrun : analyzeLogForErrors log
                 = Normal {| score := Int 175;
                             categories := [Some "ERROR"; Some "NOT_FOUND"; Some "SESSION_ERROR";
                                            Some "STATE_RETRIEVAL_FAILURE"];
                             reasons := ["Log level: ERROR";
                                         "Keyword: " +:+ Str.dquote +:+ "not found" +:+ Str.dquote;
                                         "Pattern: NOT_FOUND"; "Pattern: SESSION_ERROR";
                                         "Pattern: STATE_RETRIEVAL_FAILURE"];
                             isError := true; confidence := HIGH |})
    by (vm_compute; reflexivity).
  eexists. split; [exact Hrun|].
  destruct (classification_thresholds log _ Hrun) as (He & Hh & _).
  split; [reflexivity|]. split; [apply He|apply Hh]; eexists; (split; [reflexivity|lia]).
Defined.

(** C4. For a [null] or absent record the scorer returns the zero-value
    analysis (score 0, not an error, confidence [LOW], no category, no
    reason) and does not raise. *)
Theorem null_record_scores_zero :
  let zero := {| score := Int 0; categories := []; reasons := []; isError := false;
                 confidence := LOW |} in
  analyzeLogForErrors VNull = Normal zero ∧ analyzeLogForErrors VUndefined = Normal zero.
Proof. split; by apply analyze_falsy. Qed.




Lemma level_value_falsy (log : value) : truthy log = false → level_value log = VStr "".
Proof. by destruct log as [| |[]|[]|[]| |]. Qed.

(** C7, as stated, fails when two dampeners match: the level [fatal]
    scores 100, the dampeners for [successfully] (0.3) and [test] (0.5)
    both apply, and the score 15 is below 100 times the smaller of the two
    multipliers. *)
Lemma fatal_counterexample :
  let log := VObj [("message", VStr "test completed successfully"); ("level", VStr "fatal")] in
  List.map multiplier (matching dampeners "test completed successfully")
  = [binary64 (3 # 10); binary64 (5 # 10)]
  ∧ ∃ r, analyzeLogForErrors log = Normal r
         ∧ score r = Int 15
         ∧ ¬ (100 * binary64 (3 # 10) <= inject_Z 15)%Q.
Proof.
  split; [vm_compute; reflexivity|].
  eexists. split; [vm_compute; reflexivity|]. split; [reflexivity|].
  intros H. by vm_compute in H.
Qed.

(** C7 (amended). For every record whose level ([log.level] when it is
    truthy, else [level]), lower-cased and trimmed, is [fatal] and whose
    message is a string or falsy, the score is at least
    [Math.round(100 * modifier)], where [modifier] is the product of the
    multipliers of all the dampeners that match the message, multiplied in
    their order as the source does; and whenever no dampener matches, the
    score is at least 100 and the record is classified [HIGH]. *)
Theorem fatal_score_bound (log : value) (l : string) :
  level_value log = VStr l → Str.trim (Str.toLowerCase l) = "fatal" →
  string_or_falsy (get log "message") →
  ∃ r n m,
    analyzeLogForErrors log = Normal r ∧ message_value log = VStr m ∧ score r = Int n
    ∧ Math_round (times 100 (product 1 (matching dampeners m))) <= n
    ∧ (matching dampeners m = [] → 100 <= n ∧ confidence r = HIGH ∧ isError r = true).
Proof.
  intros Hl Hfatal Hm.
  assert (Ht : truthy log = true).
  { destruct (truthy log) eqn:Ht; [done|].
    rewrite (level_value_falsy log Ht) in Hl. injection Hl as <-. discriminate Hfatal. }
  destruct (string_or_falsy_or _ "" Hm) as [m Hmsg]. fold (message_value log) in Hmsg.
  pose proof (analyze_strings log l m Ht Hl Hmsg) as Hrun. rewrite Hfatal in Hrun.
  destruct (with_modifiers m _) as [q r0] eqn:Hmod.
  pose proof (with_modifiers_eq m (accumulate "fatal" (Str.toLowerCase m) m)) as Hw.
  cbn zeta in Hw. rewrite Hmod in Hw. cbn [fst snd] in Hw.
  destruct Hw as (Hq & Hscore & _ & _ & Hconf). rewrite accumulate_confidence in Hconf.
  destruct (accumulate_fatal (Str.toLowerCase m) m) as (n0 & Hn0 & Hlo).
  destruct (classify_spec q r0 Hconf) as (Hs & He & Hc).
  cbn zeta in Hs, He, Hc. rewrite Hscore, Hn0 in Hs. cbn [round_times] in Hs.
  destruct (modifier_bounds m) as [Hqpos Hqd]. cbn zeta in Hqpos, Hqd.
  rewrite <- Hq in Hqpos, Hqd.
  assert (Hbound : Math_round (times (inject_Z 100) (product 1 (matching dampeners m)))
                   <= Math_round (times (inject_Z n0) q)).
  { apply scaled_round_lower; [done|done| |done].
    apply product_nonneg; [discriminate|]. apply matching_Forall, dampeners_nonneg. }
  exists (classify q r0), (Math_round (times (inject_Z n0) q)), m.
  split; [exact Hrun|]. split; [exact Hmsg|]. split; [exact Hs|]. split; [exact Hbound|].
  intros Hnone. rewrite Hnone in Hbound.
  change (Math_round (times (inject_Z 100) (product 1 []))) with 100 in Hbound.
  split; [exact Hbound|].
  rewrite He, Hc, Hs. cbn [at_least].
  change HIGH_CONFIDENCE_THRESHOLD with 50. change ERROR_SCORE_THRESHOLD with 25.
  destruct (Z.leb_spec 50 (Math_round (times (inject_Z n0) q))); [|lia].
  destruct (Z.leb_spec 25 (Math_round (times (inject_Z n0) q))); [done|lia].
Qed.

Lemma fatal_score_bound_witness :
  let log := VObj [("message", VStr "unhandled exception in worker");
                   ("log", VObj [("level", VStr "FATAL")]); ("level", VStr "info")] in
  ∃ r n, analyzeLogForErrors log = Normal r ∧ score r = Int n ∧ 100 <= n ∧ confidence r = HIGH.
Proof.
  intros log.
  destruct (fatal_score_bound log "FATAL") as (r & n & m & Hrun & Hm & Hscore & _ & Hnone).
  - reflexivity.
  - reflexivity.
  - right. by eexists.
  - exists r, n. split; [exact Hrun|]. split; [exact Hscore|].
    vm_compute in Hm. injection Hm as <-.
    destruct Hnone as (Hn & Hc & _); [vm_compute; reflexivity|]. by split.
Defined.

(** * Claims about the key/value map *)

Lemma rejected_key (key : string) :
  (String.length key <? 3)%nat || Str.mem key ["the"; "and"; "for"; "with"] = false
  ↔ acceptable key.
Proof.
  unfold acceptable. rewrite orb_false_iff, Nat.ltb_ge.
  split; intros [H1 H2]; (split; [done|]).
  - intros Hin%mem_true. congruence.
  - destruct (Str.mem key _) eqn:Hmem; [|done]. by apply mem_true in Hmem.
Qed.

Lemma store_pair_other (kvMap : gmap string KVEntry) (key k v : string) :
  k ≠ key → store_pair kvMap k v !! key = kvMap !! key.
Proof.
  intros Hne. unfold store_pair.
  destruct ((String.length k <? 3)%nat || Str.mem k _); [done|].
  destruct (kvMap !! k) as [existing|]; [|by rewrite lookup_insert_ne].
  cbn [isInvalid]. destruct (isInvalid existing && negb (isNullOrErrorValue v));
    by rewrite lookup_insert_ne.
Qed.

Lemma store_pair_same (kvMap : gmap string KVEntry) (key v : string) (e : KVEntry) :
  acceptable key → kvMap !! key = Some e →
  store_pair kvMap key v !! key
  = Some (if isInvalid e && negb (isNullOrErrorValue v)
          then {| kv_value := v; isInvalid := false; count := S (count e) |}
          else {| kv_value := kv_value e; isInvalid := isInvalid e; count := S (count e) |}).
Proof.
  intros Hacc%rejected_key He. unfold store_pair. rewrite Hacc, He. cbn [isInvalid count kv_value].
  destruct (isInvalid e && negb (isNullOrErrorValue v)); by rewrite lookup_insert_eq.
Qed.

Lemma store_pair_invariant (kvMap : gmap string KVEntry) (k v : string) :
  kv_invariant kvMap → kv_invariant (store_pair kvMap k v).
Proof.
  intros Hinv key e. destruct (decide (k = key)) as [->|Hne].
  - unfold store_pair.
    destruct ((String.length key <? 3)%nat || Str.mem key _) eqn:Hrej; [apply Hinv|].
    apply rejected_key in Hrej.
    destruct (kvMap !! key) as [existing|] eqn:Hex.
    + destruct (Hinv key existing Hex) as [_ Hflag]. cbn [isInvalid kv_value count].
      destruct (isInvalid existing && negb (isNullOrErrorValue v)) eqn:Hup;
        rewrite lookup_insert_eq; intros [= <-]; (split; [done|]); cbn.
      * apply andb_true_iff in Hup as [_ Hv]. by destruct (isNullOrErrorValue v).
      * done.
    + rewrite lookup_insert_eq. by intros [= <-].
  - rewrite store_pair_other by done. apply Hinv.
Qed.

Lemma store_all_invariant (kvMap : gmap string KVEntry) (pairs : list (string * string)) :
  kv_invariant kvMap → kv_invariant (store_all kvMap pairs).
Proof.
  revert kvMap. induction pairs as [|[k v] pairs IH]; intros kvMap Hinv; [done|].
  apply IH. by apply store_pair_invariant.
Qed.

Lemma extract_from_invariant Number_toString (logs : list value) (kvMap out : gmap string KVEntry) :
  kv_invariant kvMap →
  extract_from Number_toString kvMap logs = Some (Normal out) → kv_invariant out.
Proof.
  revert kvMap. induction logs as [|log logs IH]; intros kvMap Hinv Hrun.
  - by injection Hrun as <-.
  - cbn [extract_from] in Hrun. destruct (message_of log) as [message|e]; [|done].
    destruct (pairs_of_message kvPatterns _) as [pairs|]; [|done].
    cbn in Hrun. eapply IH; [|exact Hrun]. by apply (store_all_invariant kvMap pairs).
Qed.

(** A valid entry keeps its value whatever is stored later. *)
Lemma valid_entry_is_kept (kvMap : gmap string KVEntry) (pairs : list (string * string))
  (key : string) (e : KVEntry) :
  kvMap !! key = Some e → isInvalid e = false →
  ∃ e', store_all kvMap pairs !! key = Some e'
        ∧ kv_value e' = kv_value e ∧ isInvalid e' = false.
Proof.
  revert kvMap e. induction pairs as [|[k v] pairs IH]; intros kvMap e He Hvalid.
  - by exists e.
  - cbn [store_all fold_left fst snd].
    assert (Hstep : ∃ e1, store_pair kvMap k v !! key = Some e1
                          ∧ kv_value e1 = kv_value e ∧ isInvalid e1 = false).
    { destruct (decide (k = key)) as [->|Hne].
      - unfold store_pair. destruct ((String.length key <? 3)%nat || Str.mem key _);
          [by exists e|].
        rewrite He. cbn [isInvalid kv_value count]. rewrite Hvalid. cbn [andb].
        rewrite lookup_insert_eq. by eexists.
      - rewrite store_pair_other by done. by exists e. }
    destruct Hstep as (e1 & H1 & Hv1 & Hi1).
    destruct (IH _ e1 H1 Hi1) as (e' & H' & Hv' & Hi'). exists e'.
    split; [exact H'|]. split; [congruence|done].
Qed.

(** C8. In the map [extractKeyValuePairs] builds, every key has at least
    three characters and is no stopword, and the flag of an entry tells
    whether its value is invalid. Storing a pair leaves a valid entry with
    its value, whatever the later value is; it replaces the value of an
    invalid entry by a later valid value, and leaves it for a later
    invalid one. *)
Theorem key_value_map_discipline :
  (∀ Number_toString logs kvMap,
     extractKeyValuePairs Number_toString logs = Some (Normal kvMap) →
     ∀ key e, kvMap !! key = Some e →
       (3 <= String.length key)%nat ∧ (key ∉ ["the"; "and"; "for"; "with"])
       ∧ isInvalid e = isNullOrErrorValue (kv_value e))
  ∧ (∀ kvMap key e pairs,
       kvMap !! key = Some e → isInvalid e = false →
       ∃ e', store_all kvMap pairs !! key = Some e'
             ∧ kv_value e' = kv_value e ∧ isInvalid e' = false)
  ∧ (∀ kvMap key e v,
       kv_invariant kvMap → kvMap !! key = Some e → isInvalid e = true →
       ∃ e', store_pair kvMap key v !! key = Some e'
             ∧ isInvalid e' = isNullOrErrorValue v
             ∧ kv_value e' = if isNullOrErrorValue v then kv_value e else v)
  ∧ (∀ kvMap key v,
       ¬ acceptable key → store_pair kvMap key v = kvMap).
Proof.
  split; [|split; [|split]].
  - intros N logs kvMap Hrun key e He.
    assert (Hinv : kv_invariant kvMap).
    { eapply extract_from_invariant; [|exact Hrun]. intros k e0 H. by rewrite lookup_empty in H. }
    destruct (Hinv key e He) as [[H1 H2] H3]. done.
  - intros kvMap key e pairs. apply valid_entry_is_kept.
  - intros kvMap key e v Hinv He Hinvalid.
    destruct (Hinv key e He) as [Hacc _].
    rewrite (store_pair_same kvMap key v e Hacc He), Hinvalid. cbn [andb].
    destruct (isNullOrErrorValue v); cbn [negb]; by eexists.
  - intros kvMap key v Hrej. unfold store_pair.
    destruct ((String.length key <? 3)%nat || Str.mem key _) eqn:H; [done|].
    by apply rejected_key in H.
Qed.

Lemma key_value_map_discipline_witness :
  let logs := [VObj [("message", VStr "Session ID: undefined, user = bob; the: x")];
               VObj [("message", VStr "Session ID: 42, user = null")]] in
  ∃ kvMap,
    extractKeyValuePairs (fun _ => "0") logs = Some (Normal kvMap)
    ∧ kvMap !! "session id" = Some {| kv_value := "42"; isInvalid := false; count := 2 |}
    ∧ kvMap !! "user" = Some {| kv_value := "bob"; isInvalid := false; count := 2 |}
    ∧ kvMap !! "the" = None
    ∧ ∀ key e, kvMap !! key = Some e → (3 <= String.length key)%nat.
Proof.
  intros logs.
  set (pairs := [("session id", "undefined"); ("the", "x"); ("user", "bob");
                 ("session id", "42"); ("user", "null")]).
  assert (Hrun : extractKeyValuePairs (fun _ => "0") logs = Some (Normal (store_all ∅ pairs)))
    by (vm_compute; reflexivity).
  exists (store_all ∅ pairs). split; [exact Hrun|].
  destruct key_value_map_discipline as (Hkeys & _).
  repeat split; try (vm_compute; reflexivity).
  intros key e He. by destruct (Hkeys _ logs _ Hrun key e He) as (H & _).
Defined.

(** * The comparator in the object store: nothing is mutated *)

Module StoreFacts.
Import Store StoreSpec.

Lemma preserves_ret {A} σ0 (a : A) : preserves σ0 (ret a).
Proof. intros σ r σ' Hsub [= <- <-]. done. Qed.

Lemma preserves_lift {A} σ0 (c : completion A) : preserves σ0 (lift c).
Proof. intros σ r σ' Hsub [= <- <-]. done. Qed.

Lemma preserves_stuck {A} σ0 : preserves σ0 (@stuck A).
Proof. intros σ r σ' Hsub H. discriminate H. Qed.

Lemma preserves_load σ0 l : preserves σ0 (load l).
Proof. intros σ r σ' Hsub. unfold load. destruct (σ !! l); [|done]. by intros [= <- <-]. Qed.

Lemma preserves_bind {A B} σ0 (c : M A) (f : A → M B) :
  preserves σ0 c → (∀ a, preserves σ0 (f a)) → preserves σ0 (bind c f).
Proof.
  intros Hc Hf σ r σ' Hsub. unfold bind.
  destruct (c σ) as [[[a|e] σ1]|] eqn:Hrun; [| |done].
  - apply Hf. by eapply Hc.
  - intros [= <- <-]. by eapply Hc.
Qed.

Lemma fresh_unused (σ : store) : σ !! fresh (dom σ) = None.
Proof. apply not_elem_of_dom. apply is_fresh. Qed.

Lemma fresh_unused_below (σ0 σ : store) : σ0 ⊆ σ → σ0 !! fresh (dom σ) = None.
Proof.
  intros Hsub. destruct (σ0 !! fresh (dom σ)) as [o'|] eqn:H; [|done].
  pose proof (lookup_weaken _ _ _ _ H Hsub) as H'. by rewrite fresh_unused in H'.
Qed.

Lemma preserves_alloc {B} σ0 (o : hobject) (f : nat → M B) :
  (∀ l, σ0 !! l = None → preserves σ0 (f l)) → preserves σ0 (bind (alloc o) f).
Proof.
  intros Hf σ r σ' Hsub. unfold bind, alloc.
  pose proof (fresh_unused_below _ _ Hsub) as Hnew.
  apply (Hf _ Hnew). by apply insert_subseteq_r.
Qed.

Lemma preserves_assign σ0 l key v : σ0 !! l = None → preserves σ0 (assign l key v).
Proof.
  intros Hnew σ r σ' Hsub. unfold assign.
  destruct (σ !! l) as [[items|fields]|]; try done.
  intros [= <- <-]. by apply insert_subseteq_r.
Qed.

Lemma preserves_append σ0 l v : σ0 !! l = None → preserves σ0 (append l v).
Proof.
  intros Hnew σ r σ' Hsub. unfold append.
  destruct (σ !! l) as [[items|fields]|]; try done.
  intros [= <- <-]. by apply insert_subseteq_r.
Qed.

Lemma grows_ret {A} (a : A) : grows (ret a).
Proof. by intros σ r σ' [= <- <-]. Qed.

Lemma grows_lift {A} (c : completion A) : grows (lift c).
Proof. by intros σ r σ' [= <- <-]. Qed.

Lemma grows_load l : grows (load l).
Proof. intros σ r σ'. unfold load. destruct (σ !! l); [|done]. by intros [= <- <-]. Qed.

Lemma grows_alloc o : grows (alloc o).
Proof. intros σ r σ' [= <- <-]. rewrite dom_insert. set_solver. Qed.

Lemma grows_assign l key v : grows (assign l key v).
Proof.
  intros σ r σ'. unfold assign. destruct (σ !! l) as [[items|fields]|]; try done.
  intros [= <- <-]. rewrite dom_insert. set_solver.
Qed.

Lemma grows_append l v : grows (append l v).
Proof.
  intros σ r σ'. unfold append. destruct (σ !! l) as [[items|fields]|]; try done.
  intros [= <- <-]. rewrite dom_insert. set_solver.
Qed.

Lemma grows_bind {A B} (c : M A) (g : A → M B) :
  grows c → (∀ a, grows (g a)) → grows (bind c g).
Proof.
  intros Hc Hg σ r σ'. unfold bind.
  destruct (c σ) as [[[a|e] σ1]|] eqn:Hrun; [| |done].
  - intros Hk. transitivity (dom σ1); [by eapply Hc|by eapply Hg].
  - intros [= <- <-]. by eapply Hc.
Qed.

Lemma bind_normal_ex {A B} (c : M A) (g : A → M B) σ a σ1 :
  c σ = Some (Normal a, σ1) →
  (∃ b σ', g a σ1 = Some (Normal b, σ')) →
  ∃ b σ', bind c g σ = Some (Normal b, σ').
Proof. intros Hc Hg. unfold bind. by rewrite Hc. Qed.

Lemma bind_terminates {A B} (c : M A) (g : A → M B) σ :
  (∃ a σ1, c σ = Some (Normal a, σ1)) →
  (∀ a σ1, ∃ b σ', g a σ1 = Some (Normal b, σ')) →
  ∃ b σ', bind c g σ = Some (Normal b, σ').
Proof. intros (a & σ1 & Hc) Hg. unfold bind. rewrite Hc. apply Hg. Qed.

Section StoreComparatorFacts.
Context {engine : RegExpEngine}.
Variables (f ps : list string).

Lemma removeIgnoredFields_preserves fuel σ0 obj parent :
  preserves σ0 (removeIgnoredFields fuel obj f ps parent).
Proof.
  revert σ0 obj parent. induction fuel as [|fuel IH]; intros σ0 obj parent;
    [apply preserves_stuck|].
  destruct obj as [| | | | |l]; try apply preserves_ret.
  cbn [removeIgnoredFields]. apply preserves_bind; [apply preserves_load|].
  intros [items|fields].
  - apply preserves_alloc. intros mapped Hnew.
    apply preserves_bind; [|intros; apply preserves_ret].
    generalize 0%nat. induction items as [|item rest IHitems]; intros i;
      [apply preserves_ret|].
    apply preserves_bind; [apply IH|]. intros item'.
    apply preserves_bind; [by apply preserves_append|]. intros _. apply IHitems.
  - apply preserves_alloc. intros result Hnew.
    apply preserves_bind; [|intros; apply preserves_ret].
    induction fields as [|[key v] rest IHfields]; [apply preserves_ret|].
    apply preserves_bind; [apply preserves_lift|]. intros [|]; [apply IHfields|].
    apply preserves_bind; [apply IH|]. intros v'.
    apply preserves_bind; [by apply preserves_assign|]. intros _. apply IHfields.
Qed.

Lemma removeIgnoredFields_grows fuel obj parent :
  grows (removeIgnoredFields fuel obj f ps parent).
Proof.
  revert obj parent. induction fuel as [|fuel IH]; intros obj parent; [by intros σ r σ' H|].
  destruct obj as [| | | | |l]; try apply grows_ret.
  cbn [removeIgnoredFields]. apply grows_bind; [apply grows_load|].
  intros [items|fields].
  - apply grows_bind; [apply grows_alloc|]. intros mapped.
    apply grows_bind; [|intros; apply grows_ret].
    generalize 0%nat. induction items as [|item rest IHitems]; intros i; [apply grows_ret|].
    apply grows_bind; [apply IH|]. intros item'.
    apply grows_bind; [by apply grows_append|]. intros _. apply IHitems.
  - apply grows_bind; [apply grows_alloc|]. intros result.
    apply grows_bind; [|intros; apply grows_ret].
    induction fields as [|[key v] rest IHfields]; [apply grows_ret|].
    apply grows_bind; [apply grows_lift|]. intros [|]; [apply IHfields|].
    apply grows_bind; [apply IH|]. intros v'.
    apply grows_bind; [by apply grows_assign|]. intros _. apply IHfields.
Qed.

(** The result of filtering an object or an array is a new object. *)
Lemma removeIgnoredFields_fresh fuel l parent σ out σ' :
  removeIgnoredFields fuel (HRef l) f ps parent σ = Some (Normal out, σ') →
  ∃ l', out = HRef l' ∧ σ !! l' = None ∧ is_Some (σ' !! l').
Proof.
  destruct fuel as [|fuel]; [done|]. cbn [removeIgnoredFields]. unfold bind at 1, load.
  destruct (σ !! l) as [[items|fields]|]; [| |done].
  - unfold bind at 1, alloc. unfold bind at 1.
    match goal with |- context [?c items 0%nat (<[_:=_]> σ)] =>
      assert (Hgrows : ∀ items i, grows (c items i));
      [|destruct (c items 0%nat (<[fresh (dom σ):=HArray []]> σ))
          as [[[[]|e] σ1]|] eqn:Hloop; try done] end.
    { clear. intros items. induction items as [|item rest IHitems]; intros i;
        [apply grows_ret|].
      apply grows_bind; [apply removeIgnoredFields_grows|]. intros item'.
      apply grows_bind; [by apply grows_append|]. intros _. apply IHitems. }
    intros [= <- <-]. eexists. split; [done|]. split; [apply fresh_unused|].
    apply elem_of_dom. apply (Hgrows _ _ _ _ _ Hloop). rewrite dom_insert. set_solver.
  - unfold bind at 1, alloc. unfold bind at 1.
    match goal with |- context [?c fields (<[_:=_]> σ)] =>
      assert (Hgrows : ∀ fields, grows (c fields));
      [|destruct (c fields (<[fresh (dom σ):=HObject []]> σ))
          as [[[[]|e] σ1]|] eqn:Hloop; try done] end.
    { clear. intros fields. induction fields as [|[key v] rest IHfields]; [apply grows_ret|].
      apply grows_bind; [apply grows_lift|]. intros [|]; [apply IHfields|].
      apply grows_bind; [apply removeIgnoredFields_grows|]. intros v'.
      apply grows_bind; [by apply grows_assign|]. intros _. apply IHfields. }
    intros [= <- <-]. eexists. split; [done|]. split; [apply fresh_unused|].
    apply elem_of_dom. apply (Hgrows _ _ _ _ Hloop). rewrite dom_insert. set_solver.
Qed.

(** *** Termination on values that stand for trees *)

Lemma read_weaken n σ σ' v t : σ ⊆ σ' → read n σ v = Some t → read n σ' v = Some t.
Proof.
  intros Hsub. revert v t. induction n as [|n IH]; intros v t; destruct v; try done.
  cbn [read]. destruct (σ !! l) as [o|] eqn:Hl; [|done].
  rewrite (lookup_weaken _ _ _ _ Hl Hsub). destruct o as [items|fields].
  - destruct (mapM (read n σ) items) as [ts|] eqn:Hts; [|done].
    intros [= <-]. apply mapM_Some in Hts.
    assert (Hts' : mapM (read n σ') items = Some ts).
    { apply mapM_Some. eapply Forall2_impl; [exact Hts|]. intros x y. apply IH. }
    by rewrite Hts'.
  - destruct (mapM _ fields) as [ts|] eqn:Hts; [|done].
    intros [= <-]. apply mapM_Some in Hts.
    match goal with |- context [mapM ?g fields] => assert (Hts' : mapM g fields = Some ts) end.
    { apply mapM_Some. eapply Forall2_impl; [exact Hts|]. intros [k x] y. cbn.
      destruct (read n σ x) as [tx|] eqn:Hx; [|done]. by rewrite (IH _ _ Hx). }
    by rewrite Hts'.
Qed.

Lemma removeIgnoredFields_terminates n σ0 v parent σ :
  readable n σ0 v → σ0 ⊆ σ →
  ∃ out σ', removeIgnoredFields (S n) v f ps parent σ = Some (Normal out, σ').
Proof.
  revert σ0 v parent σ. induction n as [|n IH]; intros σ0 v parent σ [t Ht] Hsub;
    destruct v as [| | | | |l]; try (eexists _, _; reflexivity); [discriminate Ht|].
  cbn [read] in Ht. destruct (σ0 !! l) as [o|] eqn:Hl; [|done].
  pose proof (lookup_weaken _ _ _ _ Hl Hsub) as Hl'.
  pose proof (fresh_unused_below _ _ Hsub) as Hnew.
  remember (S n) as fuel eqn:Hfuel. cbn [removeIgnoredFields]. subst fuel.
  eapply bind_normal_ex; [by unfold load; rewrite Hl'|].
  destruct o as [items|fields].
  - destruct (mapM (read n σ0) items) as [ts|] eqn:Hts; [|done].
    assert (Hitems : Forall (readable n σ0) items).
    { apply mapM_Some in Hts. clear -Hts. induction Hts; constructor; [by eexists|done]. }
    eapply bind_normal_ex; [reflexivity|].
    apply bind_terminates; [|by intros; eexists _, _].
    assert (Hsubc : σ0 ⊆ <[fresh (dom σ):=HArray []]> σ) by by apply insert_subseteq_r.
    assert (Hm0 : is_array (<[fresh (dom σ):=HArray []]> σ) (fresh (dom σ)))
      by (eexists; by rewrite lookup_insert_eq).
    revert Hsubc Hm0. set (loc := fresh (dom σ)) in *. clearbody loc.
    generalize 0%nat. generalize (<[loc:=HArray []]> σ).
    { clear Hts Hl Hl'. induction items as [|item rest IHr]; intros σc i Hsubc [acc Hm];
        [by eexists _, _|].
      apply Forall_cons in Hitems as [Hitem Hrest].
      destruct (IH σ0 item (index_path parent i) σc Hitem Hsubc) as (item' & σ1 & Hrun).
      pose proof (removeIgnoredFields_preserves (S n) σc item (index_path parent i)
                    σc _ σ1 (reflexivity _) Hrun) as Hframe.
      pose proof (lookup_weaken _ _ _ _ Hm Hframe) as Hm1.
      eapply bind_normal_ex; [exact Hrun|].
      eapply bind_normal_ex; [by unfold append; rewrite Hm1|].
      apply (IHr Hrest).
      - apply insert_subseteq_r; [done|]. by transitivity σc.
      - eexists. by rewrite lookup_insert_eq. }
  - destruct (mapM _ fields) as [ts|] eqn:Hts; [|done].
    assert (Hfields : Forall (fun kv => readable n σ0 (snd kv)) fields).
    { apply mapM_Some in Hts. clear -Hts. induction Hts as [|[k x] y l l' Hxy Hrest IHl];
        constructor; [|done].
      cbn in *. destruct (read n σ0 x) eqn:Hx; [by eexists|done]. }
    eapply bind_normal_ex; [reflexivity|].
    apply bind_terminates; [|by intros; eexists _, _].
    assert (Hsubc : σ0 ⊆ <[fresh (dom σ):=HObject []]> σ) by by apply insert_subseteq_r.
    assert (Hm0 : is_object (<[fresh (dom σ):=HObject []]> σ) (fresh (dom σ)))
      by (eexists; by rewrite lookup_insert_eq).
    revert Hsubc Hm0. set (loc := fresh (dom σ)) in *. clearbody loc.
    generalize (<[loc:=HObject []]> σ).
    { clear Hts Hl Hl'. induction fields as [|[key v] rest IHr]; intros σc Hsubc [acc Hm];
        [by eexists _, _|].
      apply Forall_cons in Hfields as [Hv Hrest]. cbn [snd] in Hv.
      eapply bind_normal_ex; [unfold lift; rewrite shouldIgnoreField_eq; reflexivity|].
      cbn beta. destruct (ignored (join_path parent key) f ps); [apply (IHr Hrest); [done|by eexists]|].
      destruct (IH σ0 v (join_path parent key) σc Hv Hsubc) as (v' & σ1 & Hrun).
      pose proof (removeIgnoredFields_preserves (S n) σc v (join_path parent key)
                    σc _ σ1 (reflexivity _) Hrun) as Hframe.
      pose proof (lookup_weaken _ _ _ _ Hm Hframe) as Hm1.
      eapply bind_normal_ex; [exact Hrun|].
      eapply bind_normal_ex; [by unfold assign; rewrite Hm1|].
      apply (IHr Hrest).
      - apply insert_subseteq_r; [done|]. by transitivity σc.
      - eexists. by rewrite lookup_insert_eq. }
Qed.

(** *** The filter in the store computes the filter on trees *)

Lemma removeIgnoredFields_unfold fuel l parent :
  removeIgnoredFields (S fuel) (HRef l) f ps parent
  = bind (load l) (fun o =>
      match o with
      | HArray items =>
          bind (alloc (HArray [])) (fun mapped =>
          bind (map_items (fun v path => removeIgnoredFields fuel v f ps path) mapped parent
                  items 0)
            (fun _ => ret (HRef mapped)))
      | HObject fields =>
          bind (alloc (HObject [])) (fun result =>
          bind (entries (fun v path => removeIgnoredFields fuel v f ps path) f ps result parent
                  fields)
            (fun _ => ret (HRef result)))
      end).
Proof. reflexivity. Qed.

Lemma set_property_new {A} (k : string) (v : A) (acc : list (string * A)) :
  k ∉ acc.*1 → set_property k v acc = acc ++ [(k, v)].
Proof.
  induction acc as [|[k' v'] acc IH]; intros Hk; [done|].
  cbn [set_property]. destruct (String.eqb_spec k' k) as [->|Hne].
  - exfalso. apply Hk. cbn. left.
  - cbn. f_equal. apply IH. intros Hin. apply Hk. cbn. by right.
Qed.

Lemma new_part_weaken (σ σa σb : store) (target : nat) :
  σa ⊆ σb → delete target (σa ∖ σ) ⊆ delete target (σb ∖ σ).
Proof.
  intros Hsub. apply map_subseteq_spec. intros l o.
  rewrite !lookup_delete_Some, !lookup_difference_Some.
  intros (Hne & Hl & Hnone). split; [done|]. split; [|done]. by eapply lookup_weaken.
Qed.

Lemma new_part_insert (σ σa : store) (target : nat) (o : hobject) :
  delete target (σa ∖ σ) ⊆ delete target (<[target:=o]> σa ∖ σ).
Proof.
  apply map_subseteq_spec. intros l o'.
  rewrite !lookup_delete_Some, !lookup_difference_Some.
  intros (Hne & Hl & Hnone). split; [done|]. split; [|done]. by rewrite lookup_insert_ne.
Qed.

Lemma new_part_nested (σ σa σb : store) (target : nat) :
  σ ⊆ σa → is_Some (σa !! target) → σb ∖ σa ⊆ delete target (σb ∖ σ).
Proof.
  intros Hsub [o Ht]. apply map_subseteq_spec. intros l o'.
  rewrite lookup_delete_Some, !lookup_difference_Some.
  intros (Hl & Hnone). split; [congruence|]. split; [done|].
  destruct (σ !! l) as [o''|] eqn:Hσ; [|done].
  by rewrite (lookup_weaken _ _ _ _ Hσ Hsub) in Hnone.
Qed.

Lemma entries_refines n σ target parent (rec : hvalue → string → M hvalue) :
  σ !! target = None →
  ∀ rest trest pre acc tacc σc,
    NoDup (pre ++ rest).*1 →
    (∀ k, k ∈ acc.*1 → k ∈ pre.*1) →
    Forall2 (fun kv kt =>
               fst kt = fst kv
               ∧ ∀ σx, σ ⊆ σx →
                   ∃ out σx', rec (snd kv) (join_path parent (fst kv)) σx = Some (Normal out, σx')
                              ∧ σx ⊆ σx'
                              ∧ read n (σx' ∖ σx) out
                                = Some (filtered (snd kt) f ps (join_path parent (fst kv))))
      rest trest →
    σ ⊆ σc → σc !! target = Some (HObject acc) → entries_read n σ σc target acc tacc →
    ∃ σ' acc',
      entries rec f ps target parent rest σc = Some (Normal tt, σ')
      ∧ σ ⊆ σ' ∧ σ' !! target = Some (HObject acc')
      ∧ entries_read n σ σ' target acc' (tacc ++ filtered_fields f ps parent trest).
Proof.
  intros Hnew rest. induction rest as [|[key v] rest IH];
    intros trest pre acc tacc σc Hdup Hkeys Hrec Hsub Ht Hacc.
  - apply Forall2_nil_inv_l in Hrec as ->. exists σc, acc. rewrite app_nil_r. done.
  - apply Forall2_cons_inv_l in Hrec as ([tkey tv] & trest' & (Hk & Hv) & Hrest & ->).
    cbn [fst snd] in Hk, Hv. subst tkey.
    assert (Hdup' : NoDup ((pre ++ [(key, v)]) ++ rest).*1) by by rewrite <- app_assoc.
    cbn [entries filtered_fields]. unfold bind at 1, lift. rewrite shouldIgnoreField_eq.
    destruct (ignored (join_path parent key) f ps).
    + apply (IH trest' (pre ++ [(key, v)]) acc tacc σc); try done.
      intros k Hin. rewrite fmap_app. apply elem_of_app. left. by apply Hkeys.
    + destruct (Hv σc Hsub) as (out & σ1 & Hrun & Hsub1 & Hout).
      unfold bind at 1. rewrite Hrun.
      pose proof (lookup_weaken _ _ _ _ Ht Hsub1) as Ht1.
      unfold bind at 1, assign. rewrite Ht1.
      assert (Hfresh : key ∉ acc.*1).
      { intros Hin. apply Hkeys in Hin. rewrite !fmap_app in Hdup.
        apply NoDup_app in Hdup as (_ & Hdisj & _). apply (Hdisj key Hin). cbn. left. }
      rewrite (set_property_new key out acc Hfresh).
      destruct (IH trest' (pre ++ [(key, v)]) (acc ++ [(key, out)])
                  (tacc ++ [(key, filtered tv f ps (join_path parent key))])
                  (<[target:=HObject (acc ++ [(key, out)])]> σ1)) as (σ' & acc' & H1 & H2 & H3 & H4).
      * done.
      * intros k. rewrite !fmap_app, !elem_of_app. intros [Hin|Hin]; [left; by apply Hkeys|by right].
      * done.
      * apply insert_subseteq_r; [done|]. by transitivity σc.
      * by rewrite lookup_insert_eq.
      * apply Forall2_app.
        -- eapply Forall2_impl; [exact Hacc|]. intros kv kt [Hfst Hread]. split; [done|].
           eapply read_weaken; [|exact Hread].
           transitivity (delete target (σ1 ∖ σ)); [by apply new_part_weaken|apply new_part_insert].
        -- constructor; [|constructor]. split; [done|]. cbn [snd].
           eapply read_weaken; [|exact Hout].
           transitivity (delete target (σ1 ∖ σ)); [|apply new_part_insert].
           apply new_part_nested; [done|by eexists].
      * exists σ', acc'. rewrite <- app_assoc in H4. done.
Qed.

Lemma map_items_refines n σ target parent (rec : hvalue → string → M hvalue) :
  σ !! target = None →
  ∀ rest trest i acc tacc σc,
    Forall2 (fun v tv =>
               ∀ path σx, σ ⊆ σx →
                 ∃ out σx', rec v path σx = Some (Normal out, σx')
                            ∧ σx ⊆ σx'
                            ∧ read n (σx' ∖ σx) out = Some (filtered tv f ps path))
      rest trest →
    σ ⊆ σc → σc !! target = Some (HArray acc) → items_read n σ σc target acc tacc →
    ∃ σ' acc',
      map_items rec target parent rest i σc = Some (Normal tt, σ')
      ∧ σ ⊆ σ' ∧ σ' !! target = Some (HArray acc')
      ∧ items_read n σ σ' target acc' (tacc ++ filtered_items f ps parent trest i).
Proof.
  intros Hnew rest. induction rest as [|v rest IH]; intros trest i acc tacc σc Hrec Hsub Ht Hacc.
  - apply Forall2_nil_inv_l in Hrec as ->. exists σc, acc. rewrite app_nil_r. done.
  - apply Forall2_cons_inv_l in Hrec as (tv & trest' & Hv & Hrest & ->).
    cbn [map_items filtered_items].
    destruct (Hv (index_path parent i) σc Hsub) as (out & σ1 & Hrun & Hsub1 & Hout).
    unfold bind at 1. rewrite Hrun.
    pose proof (lookup_weaken _ _ _ _ Ht Hsub1) as Ht1.
    unfold bind at 1, append. rewrite Ht1.
    destruct (IH trest' (S i) (acc ++ [out])
                (tacc ++ [filtered tv f ps (index_path parent i)])
                (<[target:=HArray (acc ++ [out])]> σ1)) as (σ' & acc' & H1 & H2 & H3 & H4).
    + done.
    + apply insert_subseteq_r; [done|]. by transitivity σc.
    + by rewrite lookup_insert_eq.
    + apply Forall2_app.
      * eapply Forall2_impl; [exact Hacc|]. intros x tx Hread.
        eapply read_weaken; [|exact Hread].
        transitivity (delete target (σ1 ∖ σ)); [by apply new_part_weaken|apply new_part_insert].
      * constructor; [|constructor].
        eapply read_weaken; [|exact Hout].
        transitivity (delete target (σ1 ∖ σ)); [|apply new_part_insert].
        apply new_part_nested; [done|by eexists].
    + exists σ', acc'. rewrite <- app_assoc in H4. done.
Qed.

Lemma read_primitive n σ v t :
  (∀ l, v ≠ HRef l) → read n σ v = Some t →
  ∀ σ', read n σ' v = Some t ∧ filtered t f ps = fun _ => t.
Proof.
  intros Hv Hread σ'. destruct v; try (by exfalso; eapply Hv);
    destruct n; cbn in Hread |- *; injection Hread as <-; done.
Qed.

(** On a value that stands for a tree, in a store whose objects list
    their keys once, the filter returns; its result stands for the
    filtered tree, and does so in the part of the store that is new. *)
Lemma removeIgnoredFields_refines n σ0 v t parent σ :
  distinct_keys σ0 → read n σ0 v = Some t → σ0 ⊆ σ →
  ∃ out σ',
    removeIgnoredFields (S n) v f ps parent σ = Some (Normal out, σ')
    ∧ σ ⊆ σ'
    ∧ read n (σ' ∖ σ) out = Some (filtered t f ps parent).
Proof.
  intros Hwf. revert v t parent σ. induction n as [|n IH]; intros v t parent σ Ht Hsub.
  - destruct v; try discriminate Ht; injection Ht as <-; by eexists _, _.
  - destruct v as [| | | | |l]; try (injection Ht as <-; by eexists _, _).
    cbn [read] in Ht. destruct (σ0 !! l) as [o|] eqn:Hl; [|done].
    pose proof (lookup_weaken _ _ _ _ Hl Hsub) as Hl'.
    pose proof (fresh_unused σ) as Hnew.
    rewrite removeIgnoredFields_unfold. unfold bind at 1, load. rewrite Hl'.
    destruct o as [items|fields].
    + destruct (mapM (read n σ0) items) as [ts|] eqn:Hts; [|done]. injection Ht as <-.
      apply mapM_Some in Hts. unfold bind at 1, alloc.
      destruct (map_items_refines n σ (fresh (dom σ)) parent
                  (fun v path => removeIgnoredFields (S n) v f ps path) Hnew
                  items ts 0%nat [] [] (<[fresh (dom σ):=HArray []]> σ))
        as (σ' & acc' & H1 & H2 & H3 & H4).
      * eapply Forall2_impl; [exact Hts|]. intros x tx Hx path σx Hσx.
        apply IH; [done|]. by transitivity σ.
      * by apply insert_subseteq_r.
      * by rewrite lookup_insert_eq.
      * constructor.
      * unfold bind at 1. rewrite H1. exists (HRef (fresh (dom σ))), σ'.
        split; [done|]. split; [done|].
        cbn [read]. rewrite (proj2 (lookup_difference_Some _ _ _ _) (conj H3 Hnew)).
        rewrite filtered_arr. cbn [app] in H4.
        assert (Hm : mapM (read n (σ' ∖ σ)) acc' = Some (filtered_items f ps parent ts 0)).
        { apply mapM_Some. eapply Forall2_impl; [exact H4|]. intros x tx Hread.
          eapply read_weaken; [|exact Hread]. apply delete_subseteq. }
        by rewrite Hm.
    + destruct (mapM _ fields) as [ts|] eqn:Hts; [|done]. injection Ht as <-.
      apply mapM_Some in Hts. unfold bind at 1, alloc.
      destruct (entries_refines n σ (fresh (dom σ)) parent
                  (fun v path => removeIgnoredFields (S n) v f ps path) Hnew
                  fields ts [] [] [] (<[fresh (dom σ):=HObject []]> σ))
        as (σ' & acc' & H1 & H2 & H3 & H4).
      * cbn [app]. by eapply Hwf.
      * intros k Hk. done.
      * eapply Forall2_impl; [exact Hts|]. intros [k x] [tk tx] Hx. cbn [fst snd] in *.
        destruct (read n σ0 x) as [tx'|] eqn:Hread; [|done]. injection Hx as <- <-.
        split; [done|]. intros σx Hσx. apply IH; [done|]. by transitivity σ.
      * by apply insert_subseteq_r.
      * by rewrite lookup_insert_eq.
      * constructor.
      * unfold bind at 1. rewrite H1. exists (HRef (fresh (dom σ))), σ'.
        split; [done|]. split; [done|].
        cbn [read]. rewrite (proj2 (lookup_difference_Some _ _ _ _) (conj H3 Hnew)).
        rewrite filtered_obj. cbn [app] in H4.
        match goal with |- context [mapM ?g acc'] =>
          assert (Hm : mapM g acc' = Some (filtered_fields f ps parent ts)) end.
        { apply mapM_Some. eapply Forall2_impl; [exact H4|]. intros [k x] [tk tx] [Hk Hread].
          cbn [fst snd] in *. subst tk.
          by rewrite (read_weaken n _ _ x tx (delete_subseteq _ _) Hread). }
        by rewrite Hm.
Qed.

End StoreComparatorFacts.

Lemma runs_ret {A} σ0 (a : A) : runs σ0 (ret a).
Proof. intros σ Hsub. by eexists _, _. Qed.

Lemma runs_bind {A B} σ0 (c : M A) (g : A → M B) :
  runs σ0 c → (∀ a, runs σ0 (g a)) → runs σ0 (bind c g).
Proof.
  intros Hc Hg σ Hsub. destruct (Hc σ Hsub) as (a & σ1 & Hrun & Hsub1).
  unfold bind. rewrite Hrun. by apply Hg.
Qed.

Section StoreWorkflowFacts.
Context {engine : RegExpEngine}.
Variable diff : store → hvalue → hvalue → option (list (Diff hvalue)).
Variable loadDefaultIgnoreFields : Config.

Lemma removeIgnoredFields_runs n σ0 v f ps parent :
  readable n σ0 v → runs σ0 (removeIgnoredFields (S n) v f ps parent).
Proof.
  intros Hv σ Hsub.
  destruct (removeIgnoredFields_terminates f ps n σ0 v parent σ Hv Hsub) as (out & σ' & Hrun).
  exists out, σ'. split; [done|]. by eapply removeIgnoredFields_preserves.
Qed.

Lemma compareLogEntries_preserves fuel σ0 blueLog greenLog f ps :
  preserves σ0 (compareLogEntries diff fuel blueLog greenLog f ps).
Proof.
  apply preserves_bind; [apply removeIgnoredFields_preserves|]. intros filteredBlue.
  apply preserves_bind; [apply removeIgnoredFields_preserves|]. intros filteredGreen.
  intros σ r σ' Hsub [= <- <-]. done.
Qed.

Lemma compareLogEntries_runs n σ0 blueLog greenLog f ps :
  readable n σ0 blueLog → readable n σ0 greenLog →
  runs σ0 (compareLogEntries diff (S n) blueLog greenLog f ps).
Proof.
  intros Hb Hg.
  apply runs_bind; [by apply removeIgnoredFields_runs|]. intros filteredBlue.
  apply runs_bind; [by apply removeIgnoredFields_runs|]. intros filteredGreen.
  intros σ Hsub. by eexists _, _.
Qed.

Lemma compare_at_preserves fuel σ0 blueLogs greenLogs f ps i report :
  preserves σ0 (compare_at diff fuel blueLogs greenLogs f ps i report).
Proof.
  unfold compare_at. cbn zeta.
  destruct (negb (truthy (at_index blueLogs i))); [apply preserves_ret|].
  destruct (negb (truthy (at_index greenLogs i))); [apply preserves_ret|].
  apply preserves_bind; [apply compareLogEntries_preserves|]. intros comparison.
  destruct (hasDifferences comparison); [|apply preserves_ret].
  apply preserves_bind; [apply removeIgnoredFields_preserves|]. intros fb.
  apply preserves_bind; [apply removeIgnoredFields_preserves|]. intros fg.
  apply preserves_ret.
Qed.

Lemma at_index_readable n σ0 logs i :
  Forall (readable n σ0) logs → readable n σ0 (at_index logs i).
Proof.
  intros Hall. unfold at_index. destruct (logs !! i) as [v|] eqn:Hi.
  - by eapply Forall_lookup_1.
  - eexists. by destruct n.
Qed.

Lemma compare_at_runs n σ0 blueLogs greenLogs f ps i report :
  Forall (readable n σ0) blueLogs → Forall (readable n σ0) greenLogs →
  runs σ0 (compare_at diff (S n) blueLogs greenLogs f ps i report).
Proof.
  intros Hb Hg. unfold compare_at. cbn zeta.
  pose proof (at_index_readable n σ0 blueLogs i Hb) as Hbi.
  pose proof (at_index_readable n σ0 greenLogs i Hg) as Hgi.
  destruct (negb (truthy (at_index blueLogs i))); [apply runs_ret|].
  destruct (negb (truthy (at_index greenLogs i))); [apply runs_ret|].
  apply runs_bind; [by apply compareLogEntries_runs|]. intros comparison.
  destruct (hasDifferences comparison); [|apply runs_ret].
  apply runs_bind; [by apply removeIgnoredFields_runs|]. intros fb.
  apply runs_bind; [by apply removeIgnoredFields_runs|]. intros fg.
  apply runs_ret.
Qed.

Lemma compare_loop_preserves fuel σ0 blueLogs greenLogs f ps from n report :
  preserves σ0 (compare_loop diff fuel blueLogs greenLogs f ps from n report).
Proof.
  revert from report. induction n as [|n IH]; intros from report; [apply preserves_ret|].
  apply preserves_bind; [apply compare_at_preserves|]. intros report'. apply IH.
Qed.

Lemma compare_loop_runs m σ0 blueLogs greenLogs f ps from n report :
  Forall (readable m σ0) blueLogs → Forall (readable m σ0) greenLogs →
  runs σ0 (compare_loop diff (S m) blueLogs greenLogs f ps from n report).
Proof.
  intros Hb Hg. revert from report.
  induction n as [|n IH]; intros from report; [apply runs_ret|].
  apply runs_bind; [by apply compare_at_runs|]. intros report'. apply IH.
Qed.

Lemma subseteq_unchanged (σ σ' : store) : σ ⊆ σ' → unchanged σ σ'.
Proof. intros Hsub l o Hl. by eapply lookup_weaken. Qed.

Lemma unchanged_subseteq (σ σ' : store) : unchanged σ σ' → σ ⊆ σ'.
Proof. intros H. apply map_subseteq_spec. exact H. Qed.

(** C9: the comparison never mutates its inputs.  In the object store,
    whatever [diff] reports: (1) when [removeIgnoredFields],
    [compareLogEntries] or [compareWorkflowLogs] ends, normally or not,
    every object the store held before the call (the input records and
    everything they refer to) is unchanged; (2) the result of
    [removeIgnoredFields] on an object or an array is a reference the store
    did not hold before the call, a new record; (3) on inputs that stand
    for trees the three functions return, with fuel one more than the depth;
    (4) a value of an unchanged store stands for the same tree as before;
    (5) where no object lists a key twice, the result of
    [removeIgnoredFields] stands for the filtered tree, and is made of
    objects allocated by the call only. *)
Theorem comparison_leaves_inputs_unchanged :
  (∀ fuel obj f ps parent σ r σ',
     removeIgnoredFields fuel obj f ps parent σ = Some (r, σ') → unchanged σ σ') ∧
  (∀ fuel blueLog greenLog f ps σ r σ',
     compareLogEntries diff fuel blueLog greenLog f ps σ = Some (r, σ') → unchanged σ σ') ∧
  (∀ fuel blueLogs greenLogs options σ r σ',
     compareWorkflowLogs diff loadDefaultIgnoreFields fuel blueLogs greenLogs options σ
       = Some (r, σ') → unchanged σ σ') ∧
  (∀ fuel l f ps parent σ out σ',
     removeIgnoredFields fuel (HRef l) f ps parent σ = Some (Normal out, σ') →
     ∃ l', out = HRef l' ∧ σ !! l' = None ∧ is_Some (σ' !! l')) ∧
  (∀ n obj f ps parent σ, readable n σ obj →
     ∃ out σ', removeIgnoredFields (S n) obj f ps parent σ = Some (Normal out, σ')) ∧
  (∀ n blueLog greenLog f ps σ, readable n σ blueLog → readable n σ greenLog →
     ∃ comparison σ',
       compareLogEntries diff (S n) blueLog greenLog f ps σ = Some (Normal comparison, σ')) ∧
  (∀ n blueLogs greenLogs options σ,
     Forall (readable n σ) blueLogs → Forall (readable n σ) greenLogs →
     ∃ report σ',
       compareWorkflowLogs diff loadDefaultIgnoreFields (S n) blueLogs greenLogs options σ
         = Some (Normal report, σ')) ∧
  (∀ n σ σ' v t, unchanged σ σ' → read n σ v = Some t → read n σ' v = Some t) ∧
  (∀ n obj t f ps parent σ, distinct_keys σ → read n σ obj = Some t →
     ∃ out σ', removeIgnoredFields (S n) obj f ps parent σ = Some (Normal out, σ')
               ∧ read n (σ' ∖ σ) out = Some (filtered t f ps parent)).
Proof.
  repeat apply conj.
  - intros fuel obj f ps parent σ r σ' Hrun. apply subseteq_unchanged.
    by eapply removeIgnoredFields_preserves.
  - intros fuel blueLog greenLog f ps σ r σ' Hrun. apply subseteq_unchanged.
    by eapply compareLogEntries_preserves.
  - intros fuel blueLogs greenLogs options σ r σ' Hrun. apply subseteq_unchanged.
    by eapply compare_loop_preserves.
  - intros fuel l f ps parent σ out σ' Hrun.
    destruct (removeIgnoredFields_fresh f ps fuel l parent σ out σ' Hrun) as (l' & -> & Hnew & Hthere).
    by exists l'.
  - intros n obj f ps parent σ Hobj. by eapply removeIgnoredFields_terminates.
  - intros n blueLog greenLog f ps σ Hb Hg.
    destruct (compareLogEntries_runs n σ blueLog greenLog f ps Hb Hg σ (reflexivity _))
      as (c & σ' & Hrun & _).
    by exists c, σ'.
  - intros n blueLogs greenLogs options σ Hb Hg. unfold compareWorkflowLogs. cbn zeta.
    match goal with |- context [compare_loop _ _ _ _ ?f ?ps ?from ?m ?r] =>
      destruct (compare_loop_runs n σ blueLogs greenLogs f ps from m r Hb Hg σ (reflexivity _))
        as (report & σ' & Hrun & _) end.
    by exists report, σ'.
  - intros n σ σ' v t Hsame. apply read_weaken. by apply unchanged_subseteq.
  - intros n obj t f ps parent σ Hkeys Hread.
    destruct (removeIgnoredFields_refines f ps n σ obj t parent σ Hkeys Hread (reflexivity _))
      as (out & σ' & Hrun & _ & Hout).
    by exists out, σ'.
Qed.

End StoreWorkflowFacts.
Lemma example_store_distinct_keys : distinct_keys example_store.
Proof.
  intros l fields Hl.
  pose (P := fun (_ : nat) (o : hobject) =>
               match o with HObject fs => NoDup fs.*1 | HArray _ => True end).
  assert (H : map_Forall P example_store).
  { apply map_Forall_to_list.
    set (objects := map_to_list example_store). vm_compute in objects. subst objects.
    repeat constructor; cbn; apply (bool_decide_unpack _); vm_compute; reflexivity. }
  exact (H l _ Hl).
Qed.

Lemma comparison_leaves_inputs_unchanged_witness :
  (∃ report σ',
     compareWorkflowLogs (engine := reference_engine) (tree_diff 3) example_config 3
       [HRef 0] [HRef 3] no_options example_store = Some (Normal report, σ') ∧
     unchanged example_store σ' ∧
     mismatchedCount (summary report) = 1%nat ∧
     (fun d => path d) <$> (logDifferences report ≫= (fun d => ld_differences d))
     = ["user.name"])
  ∧ ∃ out σ',
      removeIgnoredFields (engine := reference_engine) 3 (HRef 0)
        ["timestamp"; "requestId"] ["^_"] "" example_store = Some (Normal out, σ')
      ∧ read 2 (σ' ∖ example_store) out
        = Some (VObj [("user", VObj [("name", VStr "ann")]);
                      ("tags", VArr [VStr "a"; VStr "b"])]).
Proof.
  destruct (@comparison_leaves_inputs_unchanged reference_engine (tree_diff 3) example_config)
    as (_ & _ & Hframe & _ & _ & _ & Hruns & _ & Hfilter).
  split.
  - destruct (Hruns 2%nat [HRef 0] [HRef 3] no_options example_store) as (report & σ' & Hrun).
    + constructor; [|constructor]. eexists. vm_compute. reflexivity.
    + constructor; [|constructor]. eexists. vm_compute. reflexivity.
    + exists report, σ'. split; [exact Hrun|]. split; [exact (Hframe _ _ _ _ _ _ _ Hrun)|].
      vm_compute in Hrun. injection Hrun as <- _. split; reflexivity.
  - assert (Hread : read 2 example_store (HRef 0)
                    = Some (VObj [("timestamp", VStr "t1");
                                  ("user", VObj [("name", VStr "ann"); ("requestId", VStr "r1")]);
                                  ("tags", VArr [VStr "a"; VStr "b"])]))
      by (vm_compute; reflexivity).
    destruct (Hfilter 2%nat (HRef 0) _ ["timestamp"; "requestId"] ["^_"] "" example_store
                example_store_distinct_keys Hread) as (out & σ' & Hrun & Hout).
    exists out, σ'. split; [exact Hrun|]. rewrite Hout. vm_compute. reflexivity.
Defined.

End StoreFacts.

(** * More about the comparator *)

Section RuleFacts.
Context {engine : RegExpEngine}.

Lemma ignored_monotone path f f' ps ps' :
  (∀ x, x ∈ f → x ∈ f') → (∀ x, x ∈ ps → x ∈ ps') →
  ignored path f ps = true → ignored path f' ps' = true.
Proof.
  intros Hf Hps. rewrite !ignored_true. unfold excluded_by_rules.
  intros [H|[(seg & Hseg & Hin)|(pat & regex & Hin & Hnew & Htest)]].
  - left. by apply Hf.
  - right; left. exists seg. split; [done|]. by apply Hf.
  - right; right. exists pat, regex. split; [by apply Hps|done].
Qed.

Lemma kept_monotone f f' ps ps' parent p :
  (∀ x, x ∈ f → x ∈ f') → (∀ x, x ∈ ps → x ∈ ps') →
  kept f' ps' parent p = true → kept f ps parent p = true.
Proof.
  intros Hf Hps. revert parent. induction p as [|[k|i] p IH]; intros parent; cbn [kept]; [done| |].
  - rewrite !andb_true_iff, !negb_true_iff. intros [Hk Hrest]. split; [|by apply IH].
    destruct (ignored (join_path parent k) f ps) eqn:Hig; [|done].
    by rewrite (ignored_monotone _ f f' ps ps' Hf Hps Hig) in Hk.
  - apply IH.
Qed.

(** X1. Adding exclusion rules never brings a field back: a path that
    [shouldIgnoreField] excludes under some exact names and patterns is
    excluded under any lists that contain them, and every position of the
    record filtered under the larger lists is a position of the record
    filtered under the smaller ones. *)
Theorem more_rules_exclude_more f f' ps ps' :
  (∀ x, x ∈ f → x ∈ f') → (∀ x, x ∈ ps → x ∈ ps') →
  (∀ path, shouldIgnoreField path f ps = Normal true →
           shouldIgnoreField path f' ps' = Normal true)
  ∧ (∀ record, ∃ out out',
       removeIgnoredFields record f ps "" = Normal out
       ∧ removeIgnoredFields record f' ps' "" = Normal out'
       ∧ ∀ p u', at_position out' p u' → ∃ u, at_position out p u).
Proof.
  intros Hf Hps. split.
  - intros path. rewrite !shouldIgnoreField_eq. intros [= Hig].
    by rewrite (ignored_monotone _ f f' ps ps' Hf Hps Hig).
  - intros record. exists (filtered record f ps ""), (filtered record f' ps' "").
    split; [apply removeIgnoredFields_eq|]. split; [apply removeIgnoredFields_eq|].
    intros p u'. rewrite at_position_filtered. intros (Hkept & u & Hu & _).
    exists (filtered u f ps (filter_path "" p)). apply at_position_filtered.
    split; [by eapply kept_monotone|]. by exists u.
Qed.




Lemma filtered_items_again f ps parent items i :
  Forall (fun x => ∀ parent, filtered (filtered x f ps parent) f ps parent
                            = filtered x f ps parent) items →
  filtered_items f ps parent (filtered_items f ps parent items i) i
  = filtered_items f ps parent items i.
Proof.
  intros Hall. revert i. induction Hall as [|x l Hx Hl IHl]; intros i; [done|].
  cbn [filtered_items]. by rewrite Hx, IHl.
Qed.

Lemma filtered_fields_again f ps parent fields :
  Forall (fun kv => ∀ parent, filtered (filtered (snd kv) f ps parent) f ps parent
                             = filtered (snd kv) f ps parent) fields →
  filtered_fields f ps parent (filtered_fields f ps parent fields)
  = filtered_fields f ps parent fields.
Proof.
  intros Hall. induction Hall as [|[k v] l Hx Hl IHl]; [done|].
  cbn [filtered_fields]. destruct (ignored (join_path parent k) f ps) eqn:Hig; [done|].
  cbn [filtered_fields]. rewrite Hig. cbn in Hx. by rewrite Hx, IHl.
Qed.

Lemma filtered_again obj f ps parent :
  filtered (filtered obj f ps parent) f ps parent = filtered obj f ps parent.
Proof.
  revert parent. induction obj as [| | | | |items IH|fields IH] using value_nested_ind;
    intros parent; try done.
  - rewrite !filtered_arr. f_equal. by apply filtered_items_again.
  - rewrite !filtered_obj. f_equal. by apply filtered_fields_again.
Qed.

(** X3. Filtering is idempotent: [removeIgnoredFields] applied to its own
    result, with the same rules and parent path, returns that result; so
    [compareLogEntries] on two filtered records returns what it returns on
    the records themselves. *)
Theorem filtering_twice_is_filtering_once f ps :
  (∀ obj parent, ∃ out,
     removeIgnoredFields obj f ps parent = Normal out
     ∧ removeIgnoredFields out f ps parent = Normal out)
  ∧ (∀ diff blueLog greenLog, ∃ filteredBlue filteredGreen,
       removeIgnoredFields blueLog f ps "" = Normal filteredBlue
       ∧ removeIgnoredFields greenLog f ps "" = Normal filteredGreen
       ∧ compareLogEntries diff filteredBlue filteredGreen f ps
         = compareLogEntries diff blueLog greenLog f ps).
Proof.
  split.
  - intros obj parent. exists (filtered obj f ps parent).
    by rewrite !removeIgnoredFields_eq, filtered_again.
  - intros diff blueLog greenLog. exists (filtered blueLog f ps ""), (filtered greenLog f ps "").
    rewrite !removeIgnoredFields_eq, !compareLogEntries_eq. unfold compared.
    by rewrite !filtered_again.
Qed.

End RuleFacts.

Lemma more_rules_exclude_more_witness :
  shouldIgnoreField (engine := reference_engine) "event.timestamp"
    ["timestamp"; "requestId"] ["^_"; "Id$"] = Normal true
  ∧ ∃ out out',
      removeIgnoredFields (engine := reference_engine)
        (VObj [("event", VObj [("timestamp", VStr "t"); ("sessionId", VStr "s")])])
        ["timestamp"] ["^_"] "" = Normal out
      ∧ removeIgnoredFields (engine := reference_engine)
          (VObj [("event", VObj [("timestamp", VStr "t"); ("sessionId", VStr "s")])])
          ["timestamp"; "requestId"] ["^_"; "Id$"] "" = Normal out'
      ∧ out = VObj [("event", VObj [("sessionId", VStr "s")])]
      ∧ out' = VObj [("event", VObj [])].
Proof.
  destruct (more_rules_exclude_more (engine := reference_engine)
              ["timestamp"] ["timestamp"; "requestId"] ["^_"] ["^_"; "Id$"])
    as [Hpath Hrecord].
  - intros x Hx. apply elem_of_cons. left. by apply list_elem_of_singleton in Hx.
  - intros x Hx. apply elem_of_cons. left. by apply list_elem_of_singleton in Hx.
  - split; [apply Hpath; vm_compute; reflexivity|].
    destruct (Hrecord (VObj [("event", VObj [("timestamp", VStr "t"); ("sessionId", VStr "s")])]))
      as (out & out' & Hout & Hout' & _).
    exists out, out'. split; [exact Hout|]. split; [exact Hout'|].
    assert (H1 : removeIgnoredFields (engine := reference_engine)
                   (VObj [("event", VObj [("timestamp", VStr "t"); ("sessionId", VStr "s")])])
                   ["timestamp"] ["^_"] ""
                 = Normal (VObj [("event", VObj [("sessionId", VStr "s")])]))
      by (vm_compute; reflexivity).
    assert (H2 : removeIgnoredFields (engine := reference_engine)
                   (VObj [("event", VObj [("timestamp", VStr "t"); ("sessionId", VStr "s")])])
                   ["timestamp"; "requestId"] ["^_"; "Id$"] ""
                 = Normal (VObj [("event", VObj [])]))
      by (vm_compute; reflexivity).
    rewrite H1 in Hout. rewrite H2 in Hout'. by injection Hout as <-; injection Hout' as <-.
Defined.

(** * The report, index by index *)

Section ReportFacts.
Context {engine : RegExpEngine}.
Variable diff : value -> value -> option (list (Diff value)).
Variables (blueLogs greenLogs : list value) (f ps : list string).

Lemma fold_logDifferences l report :
  let r := fold_left (step diff blueLogs greenLogs f ps) l report in
  logDifferences r
  = logDifferences report
    ++ List.map (difference_at diff blueLogs greenLogs f ps)
         (List.filter (mismatch diff blueLogs greenLogs f ps) l)
  ∧ matchedCount (summary r)
    = (matchedCount (summary report)
       + length (List.filter (match_at diff blueLogs greenLogs f ps) l))%nat
  ∧ blueLogCount (summary r) = blueLogCount (summary report)
  ∧ greenLogCount (summary r) = greenLogCount (summary report)
  ∧ countMismatch r = countMismatch report
  ∧ sequenceDifferences r = sequenceDifferences report
  ∧ ignoredFields r = ignoredFields report
  ∧ ignoredPatterns r = ignoredPatterns report.
Proof.
  revert report. induction l as [|i l IH]; intros report.
  - cbn. rewrite app_nil_r. repeat split; lia.
  - cbn [fold_left List.filter]. cbn zeta.
    destruct (IH (step diff blueLogs greenLogs f ps report i))
      as (H1 & H2 & H3 & H4 & H5 & H6 & H7 & H8).
    cbn zeta in H1, H2, H3, H4, H5, H6, H7, H8.
    rewrite H1, H2, H3, H4, H5, H6, H7, H8. clear IH H1 H2 H3 H4 H5 H6 H7 H8.
    unfold mismatch, match_at, step, is_pairing.
    destruct (pairing blueLogs greenLogs i); cbn [andb].
    + cbn. repeat split; lia.
    + cbn. repeat split; lia.
    + destruct (hasDifferences (compared diff (at_index blueLogs i) (at_index greenLogs i) f ps));
        cbn [negb List.map length logDifferences summary matchedCount blueLogCount greenLogCount
             countMismatch sequenceDifferences ignoredFields ignoredPatterns
             push_logDifference with_summary incr_mismatched incr_matched].
      * rewrite <- app_assoc. repeat split; lia.
      * repeat split; lia.
Qed.

Lemma truthy_at_index (logs : list value) (i : nat) :
  truthy (at_index logs i) = true → (i < length logs)%nat.
Proof.
  unfold at_index. destruct (logs !! i) as [v|] eqn:Hv; [|done].
  intros _. by eapply lookup_lt_Some.
Qed.

Lemma compared_within i :
  is_pairing Compared blueLogs greenLogs i = true →
  truthy (at_index blueLogs i) = true ∧ truthy (at_index greenLogs i) = true
  ∧ (i < length blueLogs)%nat ∧ (i < length greenLogs)%nat.
Proof.
  unfold is_pairing, pairing.
  destruct (truthy (at_index blueLogs i)) eqn:Hb; [|done].
  destruct (truthy (at_index greenLogs i)) eqn:Hg; [|done].
  intros _. repeat split; by apply truthy_at_index.
Qed.

Lemma sorted_filter_seq (P : nat → bool) (from n : nat) :
  StronglySorted lt (List.filter P (seq from n)).
Proof.
  revert from. induction n as [|n IH]; intros from; [constructor|].
  cbn [seq List.filter]. destruct (P from); [|apply IH].
  constructor; [apply IH|]. apply Forall_forall. intros j Hj.
  apply list_elem_of_In, filter_In in Hj as [Hj _]. apply in_seq in Hj. lia.
Qed.

End ReportFacts.

Section ReportClaims.
Context {engine : RegExpEngine}.
Variable diff : value -> value -> option (list (Diff value)).
Variable config : Config.

(** X4. The report of [compareWorkflowLogs] beside its counters. It
    records the two lengths, whether they differ, and the rules in force
    (the defaults followed by those of the options); [sequenceDifferences]
    stays empty and [options.matchField] has no effect. [logDifferences]
    lists, by increasing index, exactly the indices whose two entries are
    truthy and for which [compareLogEntries] finds differences; each such
    index lies within both sequences, and its entry holds the two records
    after filtering together with the differences found. [matchedCount]
    counts the compared indices without differences. *)
Theorem report_bookkeeping blueLogs greenLogs options :
  let ignoreFields := cfg_ignoreFields config ++ default [] (opt_ignoreFields options) in
  let ignorePatterns := cfg_ignorePatterns config ++ default [] (opt_ignorePatterns options) in
  let n := Nat.max (length blueLogs) (length greenLogs) in
  ∃ report,
    compareWorkflowLogs diff config blueLogs greenLogs options = Normal report
    ∧ blueLogCount (summary report) = length blueLogs
    ∧ greenLogCount (summary report) = length greenLogs
    ∧ countMismatch report = negb (length blueLogs =? length greenLogs)%nat
    ∧ sequenceDifferences report = []
    ∧ ignoredFields report = ignoreFields ∧ ignoredPatterns report = ignorePatterns
    ∧ (∀ matchField,
         compareWorkflowLogs diff config blueLogs greenLogs (with_matchField matchField options)
         = Normal report)
    ∧ StronglySorted lt (List.map (fun d => ld_index d) (logDifferences report))
    ∧ (∀ d, d ∈ logDifferences report ↔
         ∃ comparison filteredBlue filteredGreen,
           truthy (at_index blueLogs (ld_index d)) = true
           ∧ truthy (at_index greenLogs (ld_index d)) = true
           ∧ compareLogEntries diff (at_index blueLogs (ld_index d))
               (at_index greenLogs (ld_index d)) ignoreFields ignorePatterns = Normal comparison
           ∧ hasDifferences comparison = true
           ∧ removeIgnoredFields (at_index blueLogs (ld_index d)) ignoreFields ignorePatterns ""
             = Normal filteredBlue
           ∧ removeIgnoredFields (at_index greenLogs (ld_index d)) ignoreFields ignorePatterns ""
             = Normal filteredGreen
           ∧ d = {| ld_index := ld_index d; ld_blueLog := filteredBlue;
                    ld_greenLog := filteredGreen; ld_differences := differences comparison |})
    ∧ (∀ d, d ∈ logDifferences report →
         (ld_index d < length blueLogs)%nat ∧ (ld_index d < length greenLogs)%nat)
    ∧ matchedCount (summary report)
      = length (List.filter (match_at diff blueLogs greenLogs ignoreFields ignorePatterns)
                  (seq 0 n)).
Proof.
  intros ignoreFields ignorePatterns n.
  eexists. split; [apply compareWorkflowLogs_eq|].
  fold ignoreFields ignorePatterns n.
  destruct (fold_logDifferences diff blueLogs greenLogs ignoreFields ignorePatterns (seq 0 n)
              (initial_report (length blueLogs) (length greenLogs) ignoreFields ignorePatterns))
    as (H1 & H2 & H3 & H4 & H5 & H6 & H7 & H8).
  cbn zeta in H1, H2, H3, H4, H5, H6, H7, H8.
  rewrite H1, H2, H3, H4, H5, H6, H7, H8.
  cbn [initial_report logDifferences summary matchedCount blueLogCount greenLogCount countMismatch
       sequenceDifferences ignoredFields ignoredPatterns app Nat.add].
  assert (Hin : ∀ d, d ∈ List.map (difference_at diff blueLogs greenLogs ignoreFields ignorePatterns)
                        (List.filter (mismatch diff blueLogs greenLogs ignoreFields ignorePatterns)
                           (seq 0 n))
                ↔ mismatch diff blueLogs greenLogs ignoreFields ignorePatterns (ld_index d) = true
                  ∧ d = difference_at diff blueLogs greenLogs ignoreFields ignorePatterns
                          (ld_index d)).
  { intros d. rewrite list_elem_of_In, in_map_iff. split.
    - intros (i & <- & Hi). apply filter_In in Hi as [_ Hi]. by split.
    - intros [Hm Hd]. exists (ld_index d). split; [done|]. apply filter_In. split; [|done].
      apply in_seq. unfold mismatch in Hm. apply andb_true_iff in Hm as [Hc _].
      destruct (compared_within blueLogs greenLogs _ Hc) as (_ & _ & Hb & _). unfold n. lia. }
  repeat split.
  - intros matchField. rewrite compareWorkflowLogs_eq.
    cbn [with_matchField opt_ignoreFields opt_ignorePatterns].
    fold ignoreFields ignorePatterns n. done.
  - rewrite List.map_map. cbn [difference_at ld_index]. rewrite List.map_id.
    apply sorted_filter_seq.
  - intros (Hm & Hd)%Hin. unfold mismatch in Hm. apply andb_true_iff in Hm as [Hc Hdiff].
    destruct (compared_within blueLogs greenLogs _ Hc) as (Hb & Hg & _ & _).
    eexists _, _, _. split; [done|]. split; [done|].
    split; [apply compareLogEntries_eq|]. split; [done|].
    split; [apply removeIgnoredFields_eq|]. split; [apply removeIgnoredFields_eq|]. exact Hd.
  - intros (c & fb & fg & Hb & Hg & Hc & Hdiff & Hfb & Hfg & Hd). apply Hin.
    rewrite compareLogEntries_eq in Hc. injection Hc as <-.
    rewrite removeIgnoredFields_eq in Hfb, Hfg. injection Hfb as <-. injection Hfg as <-.
    split; [|exact Hd]. unfold mismatch, is_pairing, pairing. by rewrite Hb, Hg, Hdiff.
  - apply Hin in H as [Hm _]. unfold mismatch in Hm. apply andb_true_iff in Hm as [Hc _].
    by destruct (compared_within blueLogs greenLogs _ Hc) as (_ & _ & Hb & _).
  - apply Hin in H as [Hm _]. unfold mismatch in Hm. apply andb_true_iff in Hm as [Hc _].
    by destruct (compared_within blueLogs greenLogs _ Hc) as (_ & _ & _ & Hg).
Qed.

End ReportClaims.

(** * Chunks *)

Lemma slice_chunk {A} (logs : list A) (size i : Z) :
  0 < size → 0 <= i →
  slice logs i (i + size) = take (Z.to_nat size) (drop (Z.to_nat i) logs).
Proof.
  intros Hsize Hi. unfold slice. cbn zeta.
  destruct (Z.ltb_spec i 0); [lia|]. destruct (Z.ltb_spec (i + size) 0); [lia|].
  set (len := Z.of_nat (length logs)).
  destruct (Z.le_gt_cases len i) as [Hout|Hin].
  - rewrite (drop_ge logs (Z.to_nat i)) by (subst len; lia).
    rewrite drop_ge by (rewrite Z.min_r by lia; subst len; lia). by rewrite !take_nil.
  - rewrite (Z.min_l i len) by lia.
    destruct (Z.le_gt_cases (i + size) len) as [Hfull|Hpart].
    + rewrite Z.min_l by lia. f_equal. lia.
    + rewrite Z.min_r by lia.
      rewrite !take_ge; [done| |]; rewrite length_drop; subst len; lia.
Qed.

Lemma chunk_loop_spec {A} (logs : list A) (size : Z) :
  0 < size →
  ∀ fuel i chunks,
    0 <= i → Z.max 0 (Z.of_nat (length logs) - i) < Z.of_nat fuel →
    ∃ rest,
      chunk_loop fuel logs size i chunks = Some (chunks ++ rest)
      ∧ concat rest = drop (Z.to_nat i) logs
      ∧ (∀ j c, rest !! j = Some c →
           c = take (Z.to_nat size) (drop (Z.to_nat (i + Z.of_nat j * size)) logs)
           ∧ i + Z.of_nat j * size < Z.of_nat (length logs)).
Proof.
  intros Hsize fuel. induction fuel as [|fuel IH]; intros i chunks Hi Hfuel; [lia|].
  cbn [chunk_loop]. destruct (Z.ltb_spec i (Z.of_nat (length logs))) as [Hin|Hout].
  - destruct (IH (i + size) (chunks ++ [slice logs i (i + size)])) as (rest & Hrun & Hcat & Hat);
      [lia|lia|].
    exists (slice logs i (i + size) :: rest). split; [by rewrite Hrun, <- app_assoc|].
    rewrite slice_chunk by done. split.
    + cbn [concat]. rewrite Hcat.
      replace (Z.to_nat (i + size)) with (Z.to_nat i + Z.to_nat size)%nat by lia.
      rewrite <- drop_drop. apply take_drop.
    + intros [|j] c Hc.
      * injection Hc as <-. replace (i + Z.of_nat 0 * size) with i by lia. done.
      * cbn in Hc. destruct (Hat j c Hc) as [-> Hlt].
        replace (i + size + Z.of_nat j * size) with (i + Z.of_nat (S j) * size) in * by lia.
        done.
  - exists []. rewrite app_nil_r. split; [done|]. split.
    + rewrite drop_ge by lia. done.
    + intros j c Hc. by destruct j.
Qed.

(** X5. [chunkLogs] with a positive chunk size (20 when it is left out)
    returns, given one more iteration than there are entries; the chunks
    put end to end are the sequence it was given; chunk [j] holds the
    entries from position [j * chunkSize] on, at most [chunkSize] of them
    and at least one, and every chunk but the last holds exactly
    [chunkSize]. With a chunk size of zero or less the loop never ends on
    a sequence that is not empty. *)
Theorem chunks_cover_the_sequence {A} (logs : list A) (chunkSize : option Z) (fuel : nat) :
  let size := default MAX_LOG_ENTRIES_PER_CHUNK chunkSize in
  (0 < size → (length logs < fuel)%nat →
   ∃ chunks,
     chunkLogs fuel logs chunkSize = Some chunks
     ∧ concat chunks = logs
     ∧ (∀ j c, chunks !! j = Some c →
          c = take (Z.to_nat size) (drop (j * Z.to_nat size) logs)
          ∧ (0 < length c)%nat ∧ Z.of_nat (length c) <= size
          ∧ (S j < length chunks → Z.of_nat (length c) = size)%nat))
  ∧ (size <= 0 → logs ≠ [] → chunkLogs fuel logs chunkSize = None).
Proof.
  intros size. split.
  - intros Hsize Hfuel.
    destruct (chunk_loop_spec logs size Hsize fuel 0 []) as (chunks & Hrun & Hcat & Hat);
      [lia|lia|].
    exists chunks. split; [exact Hrun|]. split; [exact Hcat|].
    intros j c Hc. destruct (Hat j c Hc) as [Hceq Hlt].
    replace (Z.to_nat (0 + Z.of_nat j * size)) with (j * Z.to_nat size)%nat in Hceq by lia.
    split; [exact Hceq|].
    assert (Hlen : length c = Nat.min (Z.to_nat size) (length logs - j * Z.to_nat size))
      by (by rewrite Hceq, length_take, length_drop).
    split; [lia|]. split; [lia|].
    intros Hnext. destruct (lookup_lt_is_Some_2 chunks (S j) Hnext) as [c' Hc'].
    destruct (Hat (S j) c' Hc') as [_ Hlt']. lia.
  - intros Hsize Hlogs. unfold chunkLogs. fold size.
    assert (Hloop : ∀ fuel i chunks, i <= 0 → chunk_loop fuel logs size i chunks = None).
    { clear fuel. intros fuel. induction fuel as [|fuel IH]; intros i chunks Hi; [done|].
      cbn [chunk_loop]. destruct (Z.ltb_spec i (Z.of_nat (length logs))) as [Hin|Hout].
      - apply IH. lia.
      - destruct logs; [done|]. cbn [length] in Hout. lia. }
    by apply Hloop.
Qed.

Lemma chunks_cover_the_sequence_witness :
  chunkLogs 8 [1; 2; 3; 4; 5; 6; 7]%nat (Some 3) = Some [[1; 2; 3]; [4; 5; 6]; [7]]%nat
  ∧ chunkLogs 100 [1; 2; 3]%nat (Some 0) = None.
Proof.
  destruct (chunks_cover_the_sequence [1; 2; 3; 4; 5; 6; 7]%nat (Some 3) 8) as [Hpos _].
  destruct (chunks_cover_the_sequence [1; 2; 3]%nat (Some 0) 100) as [_ Hzero].
  split.
  - destruct Hpos as (chunks & Hrun & _); [reflexivity|cbn; lia|].
    rewrite Hrun. vm_compute in Hrun. by injection Hrun as <-.
  - apply Hzero; [reflexivity|discriminate].
Defined.

(** * More about the error scorer *)

Lemma has_category_false (cat : string) (cs : list (option string)) :
  has_category cat cs = false → Some cat ∉ cs.
Proof.
  unfold has_category. induction cs as [|[s|] cs IH]; cbn; intros H Hin.
  - by apply elem_of_nil in Hin.
  - apply orb_false_iff in H as [Hs Hcs]. apply elem_of_cons in Hin as [[= ->]|Hin].
    + by rewrite String.eqb_refl in Hs.
    + by apply IH.
  - apply elem_of_cons in Hin as [Hin|Hin]; [done|]. by apply IH.
Qed.

Lemma plus_NaN (x : option Z) : plus NaN x = NaN.
Proof. done. Qed.

Lemma level_category_listed (logLevel : string) (info : LevelInfo) :
  own_property logLevel LOG_LEVEL_SEVERITY = Some info → li_category info ∈ stage_categories.
Proof.
  intros H. apply own_property_elem in H. unfold stage_categories.
  apply elem_of_app. left. apply list_elem_of_In, in_map_iff.
  exists (logLevel, info). split; [done|]. by apply list_elem_of_In.
Qed.

Lemma score_level_tags (logLevel : string) :
  tags_invariant (score_level logLevel initial_result).
Proof.
  unfold score_level, tags_invariant. destruct (String.eqb logLevel "").
  { cbn. split; [constructor|]. split; [by intros c ?%elem_of_nil|by intros ?%elem_of_nil]. }
  unfold lookup_level. destruct (own_property logLevel LOG_LEVEL_SEVERITY) as [info|] eqn:Hinfo.
  - cbn. split; [apply NoDup_singleton|]. split.
    + intros c [= ->]%list_elem_of_singleton. by eapply level_category_listed.
    + by intros ?%list_elem_of_singleton.
  - destruct (Str.mem logLevel Object_prototype_properties); cbn.
    + split; [apply NoDup_singleton|]. split; [by intros c ?%list_elem_of_singleton|done].
    + split; [constructor|]. split; [by intros c ?%elem_of_nil|by intros ?%elem_of_nil].
Qed.

Lemma score_keywords_tags (messageLower : string) (kws : list (string * Z)) (r : ErrorAnalysis) :
  tags_invariant r → tags_invariant (fold_left (score_keyword messageLower) kws r).
Proof.
  revert r. induction kws as [|[kw sc] kws IH]; intros r Hr; [done|].
  cbn [fold_left]. apply IH. unfold score_keyword.
  destruct (Str.includes messageLower kw); [|done].
  destruct Hr as (H1 & H2 & H3). repeat split; cbn; [done|done|].
  intros Hnone. by rewrite (H3 Hnone).
Qed.

Lemma score_patterns_tags (message : string) (pats : list Pattern) (r : ErrorAnalysis) :
  (∀ p, p ∈ pats → category p ∈ stage_categories) →
  tags_invariant r → tags_invariant (fold_left (score_pattern message) pats r).
Proof.
  revert r. induction pats as [|p pats IH]; intros r Hcat Hr; [done|].
  cbn [fold_left]. apply IH; [intros q Hq; apply Hcat; by right|].
  unfold score_pattern. destruct (RegExp.test (regex p) message); [|done]. cbn zeta.
  destruct Hr as (H1 & H2 & H3).
  fold (has_category (category p) (categories (set_score (plus (score r) (Some (p_score p))) r))).
  cbn [categories set_score].
  destruct (has_category (category p) (categories r)) eqn:Hhas; cbn.
  - repeat split; [done|done|]. intros Hnone. by rewrite (H3 Hnone).
  - repeat split.
    + apply NoDup_app. split; [done|]. split; [|apply NoDup_singleton].
      intros c Hc [= ->]%list_elem_of_singleton. by apply has_category_false in Hhas.
    + intros c [Hc|[= ->]%list_elem_of_singleton]%elem_of_app; [by apply H2|].
      apply Hcat. by left.
    + intros [Hnone|Hnone%list_elem_of_singleton]%elem_of_app; [|done]. by rewrite (H3 Hnone).
Qed.

Lemma pattern_categories_listed p :
  p ∈ STRUCTURAL_PATTERNS → category p ∈ stage_categories.
Proof.
  intros Hp. unfold stage_categories. apply elem_of_app. right.
  apply list_elem_of_In, in_map. by apply list_elem_of_In.
Qed.

Lemma accumulate_tags logLevel messageLower message :
  tags_invariant (accumulate logLevel messageLower message).
Proof.
  unfold accumulate. apply score_patterns_tags; [apply pattern_categories_listed|].
  apply score_keywords_tags, score_level_tags.
Qed.

Lemma score_keywords_categories messageLower kws r :
  categories (fold_left (score_keyword messageLower) kws r) = categories r.
Proof.
  revert r. induction kws as [|[kw sc] kws IH]; intros r; [done|].
  cbn [fold_left]. rewrite IH. unfold score_keyword. by destruct (Str.includes messageLower kw).
Qed.

Lemma score_patterns_head message pats r :
  categories r ≠ [] →
  head (categories (fold_left (score_pattern message) pats r)) = head (categories r).
Proof.
  revert r. induction pats as [|p pats IH]; intros r Hne; [done|].
  cbn [fold_left].
  assert (Hstep : head (categories (score_pattern message r p)) = head (categories r)
                  ∧ categories (score_pattern message r p) ≠ []).
  { unfold score_pattern. destruct (RegExp.test (regex p) message); [|done]. cbn zeta.
    destruct (existsb _ _); cbn; [done|]. destruct (categories r); [done|]. done. }
  destruct Hstep as [Hhd Hne']. by rewrite IH.
Qed.

Lemma classify_categories q r0 :
  (categories r0 ≠ [] → categories (classify q r0) = categories r0)
  ∧ (categories r0 = [] → isError (classify q r0) = true →
     categories (classify q r0) = [Some "GENERAL_ERROR"])
  ∧ (categories r0 = [] → isError (classify q r0) = false → categories (classify q r0) = []).
Proof.
  unfold classify. cbn zeta.
  cbn [score set_score set_isError set_confidence isError categories].
  destruct (at_least (round_times (score r0) q) HIGH_CONFIDENCE_THRESHOLD),
    (at_least (round_times (score r0) q) ERROR_SCORE_THRESHOLD);
    cbn [score set_score set_isError set_confidence isError categories andb];
    destruct (categories r0) eqn:Hc0; cbn; rewrite ?Hc0; repeat split; done.
Qed.

Lemma general_error_apart : "GENERAL_ERROR" ∉ stage_categories.
Proof. apply (bool_decide_unpack _). vm_compute. reflexivity. Qed.

Lemma accumulate_head (l m : string) (info : LevelInfo) :
  lookup_level l = Own info →
  head (categories (accumulate l (Str.toLowerCase m) m)) = Some (Some (li_category info)).
Proof.
  intros Hown. unfold accumulate.
  assert (Hlev : categories (score_level l initial_result) = [Some (li_category info)]).
  { unfold score_level. destruct (String.eqb_spec l "") as [->|_]; [discriminate Hown|].
    by rewrite Hown. }
  rewrite score_patterns_head; rewrite score_keywords_categories, Hlev; done.
Qed.

(** The analysis of a truthy record that does not throw, stage by stage. *)
Lemma analyze_stages (log : value) (r : ErrorAnalysis) :
  truthy log = true → analyzeLogForErrors log = Normal r →
  ∃ l m q r0,
    level_value log = VStr l ∧ message_value log = VStr m
    ∧ with_modifiers m (accumulate (Str.trim (Str.toLowerCase l)) (Str.toLowerCase m) m) = (q, r0)
    ∧ r = classify q r0
    ∧ q = product (product 1 (matching amplifiers m)) (matching dampeners m)
    ∧ score r0 = score (accumulate (Str.trim (Str.toLowerCase l)) (Str.toLowerCase m) m)
    ∧ categories r0
      = categories (accumulate (Str.trim (Str.toLowerCase l)) (Str.toLowerCase m) m)
    ∧ confidence r0 = LOW.
Proof.
  intros Ht Hrun. destruct (analyze_cases log Ht) as [(l & m & Hl & Hm)|[e He]]; [|congruence].
  rewrite (analyze_strings log l m Ht Hl Hm) in Hrun.
  destruct (with_modifiers m _) as [q r0] eqn:Hmod. injection Hrun as <-.
  pose proof (with_modifiers_eq m (accumulate (Str.trim (Str.toLowerCase l))
                                     (Str.toLowerCase m) m)) as Hw.
  cbn zeta in Hw. rewrite Hmod in Hw. cbn [fst snd] in Hw.
  destruct Hw as (Hq & Hscore & Hcat & _ & Hconf). rewrite accumulate_confidence in Hconf.
  by exists l, m, q, r0.
Qed.

(** X6. The category tags of an analysis. No tag is listed twice; every
    tag is one of the catalog (a level category, a pattern category or
    [GENERAL_ERROR]); a record flagged as an error has at least one tag;
    a known level puts its category first; [GENERAL_ERROR] is the only tag
    when it is listed; and an [undefined] tag (from a level that names a
    member of [Object.prototype]) comes with the score [NaN] and no error
    flag. *)
Theorem tags_of_an_analysis (log : value) (r : ErrorAnalysis) :
  analyzeLogForErrors log = Normal r →
  NoDup (categories r)
  ∧ (∀ c, Some c ∈ categories r → c ∈ catalog_categories)
  ∧ (isError r = true → categories r ≠ [])
  ∧ (∀ l info,
       level_value log = VStr l → lookup_level (Str.trim (Str.toLowerCase l)) = Own info →
       head (categories r) = Some (Some (li_category info)))
  ∧ (Some "GENERAL_ERROR" ∈ categories r → categories r = [Some "GENERAL_ERROR"])
  ∧ (None ∈ categories r → score r = NaN ∧ isError r = false).
Proof.
  intros Hrun. destruct (truthy log) eqn:Ht.
  2:{ rewrite (analyze_falsy log Ht) in Hrun. injection Hrun as <-. cbn.
      split; [constructor|]. split; [by intros c ?%elem_of_nil|]. split; [done|].
      split; [|split; by intros ?%elem_of_nil].
      intros l info Hl. rewrite (level_value_falsy log Ht) in Hl. by injection Hl as <-. }
  destruct (analyze_stages log r Ht Hrun)
    as (l & m & q & r0 & Hl & Hm & Hmod & -> & Hq & Hs & Hc & Hlow).
  destruct (accumulate_tags (Str.trim (Str.toLowerCase l)) (Str.toLowerCase m) m)
    as (Hdup & Hlisted & Hnone).
  destruct (classify_spec q r0 Hlow) as (Hscore & Herr & _). cbn zeta in Hscore, Herr.
  destruct (classify_categories q r0) as (Hsame & Hgen & Hempty).
  rewrite <- Hc in Hdup, Hlisted, Hnone.
  assert (Hhead : ∀ l' info, level_value log = VStr l' →
                    lookup_level (Str.trim (Str.toLowerCase l')) = Own info →
                    head (categories r0) = Some (Some (li_category info))).
  { intros l' info Hl' Hown. rewrite Hl in Hl'. injection Hl' as <-.
    rewrite Hc. by apply accumulate_head. }
  destruct (categories r0) as [|c0 cs] eqn:Hcs.
  - destruct (isError (classify q r0)) eqn:He.
    + rewrite (Hgen eq_refl eq_refl).
      split; [apply NoDup_singleton|]. split.
      { intros c [= ->]%list_elem_of_singleton. unfold catalog_categories.
        apply elem_of_app. right. by left. }
      split; [done|]. split; [intros l' info Hl' Hown; by specialize (Hhead l' info Hl' Hown)|].
      split; [done|]. by intros ?%list_elem_of_singleton.
    + rewrite (Hempty eq_refl eq_refl).
      split; [constructor|]. split; [by intros c ?%elem_of_nil|]. split; [done|].
      split; [intros l' info Hl' Hown; by specialize (Hhead l' info Hl' Hown)|].
      split; by intros ?%elem_of_nil.
  - rewrite (Hsame ltac:(done)).
    split; [done|]. split.
    { intros c Hin. unfold catalog_categories. apply elem_of_app. left. by apply Hlisted. }
    split; [done|]. split; [exact Hhead|]. split.
    + intros Hin. apply Hlisted in Hin. by apply general_error_apart in Hin.
    + intros Hin. pose proof (Hnone Hin) as Hnan.
      split; [by rewrite Hscore, Hs, Hnan|by rewrite Herr, Hscore, Hs, Hnan].
Qed.

Lemma tags_of_an_analysis_witness :
  let log := VObj [("message", VStr "get session variable not found"); ("level", VStr "Error")] in
  ∃ r, analyzeLogForErrors log = Normal r
       ∧ categories r = [Some "ERROR"; Some "NOT_FOUND"; Some "SESSION_ERROR";
                         Some "STATE_RETRIEVAL_FAILURE"]
       ∧ NoDup (categories r)
       ∧ head (categories r) = Some (Some "ERROR").
Proof.
  intros log.
  assert (Hrun : analyzeLogForErrors log
                 = Normal {| score := Int 175;
                             categories := [Some "ERROR"; Some "NOT_FOUND"; Some "SESSION_ERROR";
                                            Some "STATE_RETRIEVAL_FAILURE"];
                             reasons := ["Log level: ERROR";
                                         "Keyword: " +:+ Str.dquote +:+ "not found" +:+ Str.dquote;
                                         "Pattern: NOT_FOUND"; "Pattern: SESSION_ERROR";
                                         "Pattern: STATE_RETRIEVAL_FAILURE"];
                             isError := true; confidence := HIGH |})
    by (vm_compute; reflexivity).
  eexists. split; [exact Hrun|]. split; [reflexivity|].
  destruct (tags_of_an_analysis log _ Hrun) as (Hdup & _ & _ & Hhead & _).
  split; [exact Hdup|]. apply (Hhead "Error" (level_info 80 "ERROR")); reflexivity.
Defined.

(** *** Amplifiers raise, dampeners lower *)

Local Open Scope Q_scope.

Lemma binary64_small_integer (n : Z) :
  (0 <= n < 2 ^ 53)%Z → binary64 (inject_Z n) == inject_Z n.
Proof.
  intros [Hlo Hhi]. unfold binary64.
  destruct (inject_Z n ?= 0) eqn:Hc.
  - apply Qeq_alt in Hc. by rewrite Hc.
  - apply Qlt_alt in Hc. change 0 with (inject_Z 0) in Hc. rewrite <- Zlt_Qlt in Hc. lia.
  - apply Qgt_alt in Hc. rewrite Qred_correct. unfold nearest64. cbn zeta.
    destruct (log2_floor_spec (inject_Z n) Hc) as [Hl _].
    assert (Hle : (log2_floor (inject_Z n) < 53)%Z).
    { apply pow2_lt_inv. eapply Qle_lt_trans; [exact Hl|].
      rewrite <- pow2_inject by lia. by rewrite <- Zlt_Qlt. }
    set (e := (log2_floor (inject_Z n) - 52)%Z) in *.
    assert (He : (e <= 0)%Z) by (subst e; lia).
    assert (Hdiv : inject_Z n / pow2 e == inject_Z (n * 2 ^ (- e))).
    { rewrite inject_Z_mult, pow2_inject by lia. unfold pow2. rewrite Qpower_opp.
      unfold Qdiv. reflexivity. }
    assert (Hr : round_half_even (inject_Z n / pow2 e) = (n * 2 ^ (- e))%Z).
    { rewrite <- (round_half_even_integer (n * 2 ^ (- e))).
      apply Z.le_antisymm; apply round_half_even_monotone; rewrite Hdiv; apply Qle_refl. }
    rewrite Hr, inject_Z_mult, pow2_inject by lia. rewrite <- Qmult_assoc, <- pow2_add.
    replace (- e + e)%Z with 0%Z by lia. unfold pow2. cbn. ring.
Qed.

Lemma Math_round_integer (n : Z) : Math_round (inject_Z n) = n.
Proof.
  unfold Math_round.
  pose proof (Qfloor_le (inject_Z n + (1 # 2))) as Hle.
  pose proof (Qlt_floor (inject_Z n + (1 # 2))) as Hlt.
  assert (H1 : (Qfloor (inject_Z n + (1 # 2)) < n + 1)%Z).
  { rewrite Zlt_Qlt. eapply Qle_lt_trans; [exact Hle|].
    rewrite inject_Z_plus. apply Qplus_lt_r. reflexivity. }
  assert (H2 : (n < Qfloor (inject_Z n + (1 # 2)) + 1)%Z).
  { rewrite Zlt_Qlt. eapply Qle_lt_trans; [|exact Hlt].
    rewrite <- (Qplus_0_r (inject_Z n)) at 1. apply Qplus_le_r. discriminate. }
  lia.
Qed.

Lemma product_at_most_one (mods : list Modifier) (q : Q) :
  0 <= q → q <= 1 → Forall (fun md => 0 <= multiplier md ∧ multiplier md <= 1) mods →
  product q mods <= 1.
Proof.
  unfold product. revert q. induction mods as [|md mods IH]; intros q Hq0 Hq1 Hall; [done|].
  apply Forall_cons in Hall as [[Hm0 Hm1] Hall]. cbn [List.map fold_left].
  apply IH; [by apply times_nonneg| |done].
  destruct binary64_integers as (_ & H1 & _). rewrite <- H1. unfold times.
  apply binary64_monotone; [by apply Qmult_le_0_compat|].
  apply Qle_trans with (1 * multiplier md); [by apply Qmult_le_compat_r|].
  by rewrite Qmult_1_l.
Qed.

Lemma dampeners_at_most_one :
  Forall (fun md => 0 <= multiplier md ∧ multiplier md <= 1) dampeners.
Proof. repeat constructor; vm_compute; discriminate. Qed.

Local Close Scope Q_scope.

Lemma score_level_within (logLevel : string) :
  score_within 0 100 (score_level logLevel initial_result).
Proof.
  unfold score_level, score_within. destruct (String.eqb logLevel "").
  { cbn. intros n [= <-]. lia. }
  unfold lookup_level. destruct (own_property logLevel LOG_LEVEL_SEVERITY) as [info|] eqn:Hinfo.
  - cbn. intros n [= <-].
    assert (Hall : forallb (fun kv => (0 <=? li_score (snd kv)) && (li_score (snd kv) <=? 100))
                     LOG_LEVEL_SEVERITY = true) by reflexivity.
    destruct (own_property_forallb _ _ _ _ Hall Hinfo) as (k & Hk). cbn in Hk. lia.
  - destruct (Str.mem logLevel Object_prototype_properties); cbn; [done|].
    intros n [= <-]. lia.
Qed.

Lemma score_keywords_within messageLower (kws : list (string * Z)) lo hi r :
  forallb (fun kv => 0 <=? snd kv) kws = true → score_within lo hi r →
  score_within lo (hi + fold_right Z.add 0 (List.map snd kws))
    (fold_left (score_keyword messageLower) kws r).
Proof.
  revert hi r. induction kws as [|[kw sc] kws IH]; intros hi r Hall Hr.
  - cbn. intros n Hn. specialize (Hr n Hn). lia.
  - cbn in Hall. apply andb_true_iff in Hall as [Hsc%Z.leb_le Hall].
    cbn [fold_left List.map fold_right snd].
    replace (hi + (sc + fold_right Z.add 0 (List.map snd kws)))
      with ((hi + sc) + fold_right Z.add 0 (List.map snd kws)) by lia.
    apply IH; [done|]. unfold score_keyword, score_within.
    destruct (Str.includes messageLower kw); cbn.
    + destruct (score r) as [n0|] eqn:Hs; [|done]. cbn. intros n [= <-].
      specialize (Hr n0 Hs). lia.
    + intros n Hn. specialize (Hr n Hn). lia.
Qed.

Lemma score_patterns_within message (pats : list Pattern) lo hi r :
  forallb (fun p => 0 <=? p_score p) pats = true → score_within lo hi r →
  score_within lo (hi + fold_right Z.add 0 (List.map p_score pats))
    (fold_left (score_pattern message) pats r).
Proof.
  revert hi r. induction pats as [|p pats IH]; intros hi r Hall Hr.
  - cbn. intros n Hn. specialize (Hr n Hn). lia.
  - cbn in Hall. apply andb_true_iff in Hall as [Hsc%Z.leb_le Hall].
    cbn [fold_left List.map fold_right].
    replace (hi + (p_score p + fold_right Z.add 0 (List.map p_score pats)))
      with ((hi + p_score p) + fold_right Z.add 0 (List.map p_score pats)) by lia.
    apply IH; [done|]. unfold score_pattern, score_within.
    destruct (RegExp.test (regex p) message); cbn zeta.
    + assert (Hsc' : ∀ x, score (push_reason x
                 (if existsb (fun c => match c with
                                       | Some s => String.eqb s (category p)
                                       | None => false
                                       end)
                       (categories (set_score (plus (score r) (Some (p_score p))) r))
                  then set_score (plus (score r) (Some (p_score p))) r
                  else push_category (Some (category p))
                         (set_score (plus (score r) (Some (p_score p))) r)))
               = plus (score r) (Some (p_score p))) by (intros x; by destruct (existsb _ _)).
      rewrite Hsc'. destruct (score r) as [n0|] eqn:Hs; [|done]. cbn. intros n [= <-].
      specialize (Hr n0 Hs). lia.
    + intros n Hn. specialize (Hr n Hn). lia.
Qed.

Lemma accumulate_within logLevel messageLower message :
  score_within 0 score_ceiling (accumulate logLevel messageLower message).
Proof.
  unfold accumulate, score_ceiling.
  apply score_patterns_within; [exact pattern_scores_nonneg|].
  apply score_keywords_within; [exact keyword_scores_nonneg|].
  apply score_level_within.
Qed.

Lemma score_ceiling_small : score_ceiling < 2 ^ 53.
Proof. vm_compute. reflexivity. Qed.

(** X7. Amplifiers only raise the score and dampeners only lower it. Let
    the base be the sum of the scores of the level, keywords and patterns
    a record matches. The final score is a number exactly when the base is
    one; it is then at least the base when no dampener matches the
    message, at most the base when no amplifier matches, and the base
    itself when neither does. *)
Theorem modifiers_raise_or_lower (log : value) (r : ErrorAnalysis) (l m : string) :
  analyzeLogForErrors log = Normal r →
  level_value log = VStr l → message_value log = VStr m → truthy log = true →
  let base := score (accumulate (Str.trim (Str.toLowerCase l)) (Str.toLowerCase m) m) in
  (base = NaN → score r = NaN)
  ∧ ∀ n0, base = Int n0 →
      ∃ n, score r = Int n
           ∧ (matching dampeners m = [] → n0 <= n)
           ∧ (matching amplifiers m = [] → n <= n0)
           ∧ (matching dampeners m = [] → matching amplifiers m = [] → n = n0).
Proof.
  intros Hrun Hl Hm Ht base.
  destruct (analyze_stages log r Ht Hrun)
    as (l' & m' & q & r0 & Hl' & Hm' & Hmod & -> & Hq & Hs & Hc & Hlow).
  rewrite Hl in Hl'. injection Hl' as <-. rewrite Hm in Hm'. injection Hm' as <-.
  destruct (classify_spec q r0 Hlow) as (Hscore & _). cbn zeta in Hscore.
  fold base in Hs. split.
  { intros Hnan. by rewrite Hscore, Hs, Hnan. }
  intros n0 Hbase. rewrite Hscore, Hs, Hbase. cbn [round_times].
  destruct (accumulate_within (Str.trim (Str.toLowerCase l)) (Str.toLowerCase m) m n0 Hbase)
    as [Hn0 Hceil].
  pose proof score_ceiling_small as Hsmall.
  pose proof (binary64_small_integer n0 ltac:(lia)) as Hfix.
  eexists. split; [reflexivity|].
  assert (Hup : matching dampeners m = [] →
                n0 <= Math_round (times (inject_Z n0) q)).
  { intros Hd. rewrite <- (Math_round_integer n0) at 1. apply Math_round_monotone.
    rewrite <- Hfix at 1. unfold times. apply binary64_monotone.
    - change 0%Q with (inject_Z 0). by rewrite <- Zle_Qle.
    - rewrite <- (Qmult_1_r (inject_Z n0)) at 1.
      rewrite !(Qmult_comm (inject_Z n0)). apply Qmult_le_compat_r.
      + rewrite Hq, Hd. cbn [product List.map fold_left].
        apply (product_at_least_one (matching amplifiers m) 1 (Qle_refl 1)).
        apply matching_Forall, amplifiers_at_least_one.
      + change 0%Q with (inject_Z 0). by rewrite <- Zle_Qle. }
  assert (Hdown : matching amplifiers m = [] →
                  Math_round (times (inject_Z n0) q) <= n0).
  { intros Ha. rewrite <- (Math_round_integer n0) at 2. apply Math_round_monotone.
    rewrite <- Hfix at 2. unfold times.
    assert (Hq0 : (0 <= q)%Q) by (rewrite Hq; apply modifier_bounds).
    apply binary64_monotone.
    - apply Qmult_le_0_compat; [|done]. change 0%Q with (inject_Z 0). by rewrite <- Zle_Qle.
    - rewrite <- (Qmult_1_r (inject_Z n0)) at 2.
      rewrite !(Qmult_comm (inject_Z n0)). apply Qmult_le_compat_r.
      + rewrite Hq, Ha. cbn [product List.map fold_left].
        apply (product_at_most_one (matching dampeners m) 1); [discriminate|apply Qle_refl|].
        apply matching_Forall, dampeners_at_most_one.
      + change 0%Q with (inject_Z 0). by rewrite <- Zle_Qle. }
  split; [exact Hup|]. split; [exact Hdown|].
  intros Hd Ha. specialize (Hup Hd). specialize (Hdown Ha). lia.
Qed.

Lemma modifiers_raise_or_lower_witness :
  let log := VObj [("message", VStr "unexpected timeout"); ("level", VStr "warn")] in
  ∃ r n, analyzeLogForErrors log = Normal r ∧ score r = Int n ∧ 89 <= n.
Proof.
  intros log.
  assert (Hrun : analyzeLogForErrors log
                 = Normal {| score := Int 116;
                             categories := [Some "WARNING"; Some "TIMEOUT"];
                             reasons := ["Log level: WARN";
                                         "Keyword: " +:+ Str.dquote +:+ "timeout" +:+ Str.dquote;
                                         "Pattern: TIMEOUT"; "Amplifier: severity increased"];
                             isError := true; confidence := HIGH |})
    by (vm_compute; reflexivity).
  destruct (modifiers_raise_or_lower log _ "warn" "unexpected timeout" Hrun) as [_ Hbase];
    [reflexivity|reflexivity|reflexivity|].
  destruct (Hbase 89) as (n & Hn & Hup & _); [vm_compute; reflexivity|].
  eexists _, n. split; [exact Hrun|]. split; [exact Hn|].
  apply Hup. vm_compute. reflexivity.
Defined.

(** * The key/value map in closed form *)









(** * Value divergences *)











Section CompareLogValuesFacts.
Variable Number_toString : spec_float → string.










End CompareLogValuesFacts.



(** * The error entries *)

Section SortFacts.
Context {A : Type} (cmp : A → A → Z) (key idx : A → Z).

Lemma Array_sort_snoc (l : list A) (x : A) :
  Array_sort cmp (l ++ [x]) = insert_sorted cmp x (Array_sort cmp l).
Proof. unfold Array_sort. by rewrite fold_left_app. Qed.

Lemma insert_sorted_perm (x : A) (s : list A) : insert_sorted cmp x s ≡ₚ s ++ [x].
Proof.
  induction s as [|y s IH]; [done|]. cbn [insert_sorted].
  destruct (cmp y x <=? 0).
  - cbn. by rewrite IH.
  - change (x :: y :: s) with ([x] ++ (y :: s)). apply Permutation_app_comm.
Qed.

Lemma Array_sort_perm (l : list A) : Array_sort cmp l ≡ₚ l.
Proof.
  induction l as [|x l IH] using rev_ind; [done|].
  by rewrite Array_sort_snoc, insert_sorted_perm, IH.
Qed.

Lemma insert_sorted_before (x : A) (s : list A) :
  (∀ y, y ∈ s → cmp y x = key x - key y ∧ idx y < idx x) →
  StronglySorted (before_by key idx) s →
  StronglySorted (before_by key idx) (insert_sorted cmp x s).
Proof.
  induction s as [|y s IH]; intros Hx Hs.
  - repeat constructor.
  - apply StronglySorted_inv in Hs as [Hs Hy]. cbn [insert_sorted].
    destruct (Hx y ltac:(left)) as [Hcmp Hidx].
    destruct (Z.leb_spec (cmp y x) 0) as [Hle|Hgt].
    + constructor.
      * apply IH; [|done]. intros z Hz. apply Hx. by right.
      * apply Forall_forall. intros z Hz. rewrite insert_sorted_perm in Hz.
        apply elem_of_app in Hz as [Hz|Hz%list_elem_of_singleton].
        -- by eapply Forall_forall in Hy.
        -- subst z. unfold before_by. lia.
    + constructor; [by constructor|]. constructor; [unfold before_by; lia|].
      apply Forall_forall. intros z Hz. eapply Forall_forall in Hy; [|done].
      unfold before_by in *. lia.
Qed.

Lemma sorted_snoc (R : A → A → Prop) (l : list A) (x : A) :
  StronglySorted R (l ++ [x]) → StronglySorted R l ∧ ∀ y, y ∈ l → R y x.
Proof.
  induction l as [|a l IH]; cbn; intros Hs.
  - split; [constructor|]. by intros y ?%elem_of_nil.
  - apply StronglySorted_inv in Hs as [Hs Ha]. destruct (IH Hs) as [Hl Hx].
    apply Forall_app in Ha as [Ha Hax]. split; [by constructor|].
    intros y [->|Hy]%elem_of_cons; [|by apply Hx].
    by inversion Hax.
Qed.

Lemma Array_sort_before (l : list A) :
  (∀ a b, a ∈ l → b ∈ l → cmp a b = key b - key a) →
  StronglySorted (fun a b => idx a < idx b) l →
  StronglySorted (before_by key idx) (Array_sort cmp l).
Proof.
  induction l as [|x l IH] using rev_ind; intros Hcmp Hl; [constructor|].
  rewrite Array_sort_snoc. apply sorted_snoc in Hl as [Hl Hx].
  apply insert_sorted_before.
  - intros y Hy. rewrite Array_sort_perm in Hy. split; [|by apply Hx].
    apply Hcmp; apply elem_of_app; [by left|right; by left].
  - apply IH; [|done]. intros a b Ha Hb. apply Hcmp; apply elem_of_app; by left.
Qed.

Lemma filter_length_perm (f : A → bool) (l l' : list A) :
  l ≡ₚ l' → length (List.filter f l) = length (List.filter f l').
Proof.
  induction 1 as [|x l l' _ IH|x y l|l l' l'' _ IH1 _ IH2]; cbn.
  - done.
  - destruct (f x); cbn; by rewrite IH.
  - by destruct (f x), (f y).
  - by rewrite IH1.
Qed.

End SortFacts.

Lemma own_set_same {A} (k : string) (v : A) (l : list (string * A)) :
  own_property k (set_property k v l) = Some v.
Proof.
  induction l as [|[k' v'] l IH]; cbn; [by rewrite String.eqb_refl|].
  destruct (String.eqb k' k) eqn:He; cbn; by rewrite He.
Qed.

Lemma own_set_other {A} (k k' : string) (v : A) (l : list (string * A)) :
  k ≠ k' → own_property k' (set_property k v l) = own_property k' l.
Proof.
  intros Hne. induction l as [|[k0 v0] l IH]; cbn.
  - by destruct (String.eqb_spec k k').
  - destruct (String.eqb_spec k0 k) as [->|Hk]; cbn.
    + by destruct (String.eqb_spec k k').
    + by rewrite IH.
Qed.

Lemma set_property_key {A} (k k' : string) (v : A) (l : list (string * A)) :
  k' ∈ (set_property k v l).*1 ↔ k' = k ∨ k' ∈ l.*1.
Proof.
  induction l as [|[k0 v0] l IH]; cbn.
  - rewrite list_elem_of_singleton. split; [by left|]. by intros [?|?%elem_of_nil].
  - destruct (String.eqb_spec k0 k) as [->|Hk]; cbn.
    + rewrite !elem_of_cons. tauto.
    + rewrite !elem_of_cons, IH. tauto.
Qed.

Lemma set_property_NoDup {A} (k : string) (v : A) (l : list (string * A)) :
  NoDup l.*1 → NoDup (set_property k v l).*1.
Proof.
  induction l as [|[k0 v0] l IH]; cbn; intros Hdup.
  - apply NoDup_singleton.
  - apply NoDup_cons in Hdup as [Hk0 Hdup].
    destruct (String.eqb_spec k0 k) as [->|Hk]; cbn.
    + by apply NoDup_cons.
    + apply NoDup_cons. split; [|by apply IH].
      rewrite set_property_key. by intros [?|?].
Qed.

Lemma stat_sum_set (k : string) (v : Stat) (l : list (string * Stat)) :
  stat_sum (set_property k v l)
  = stat_sum l - match own_property k l with Some old => stat_count old | None => 0 end
    + stat_count v.
Proof.
  unfold stat_sum. induction l as [|[k0 v0] l IH]; cbn [set_property own_property].
  - cbn. lia.
  - destruct (String.eqb_spec k0 k) as [->|Hk]; cbn [fold_right snd]; lia.
Qed.

Lemma catalog_not_inherited (c : string) :
  c ∈ catalog_categories → Str.mem c Object_prototype_properties = false.
Proof.
  assert (Hall : forallb (fun c => negb (Str.mem c Object_prototype_properties))
                   catalog_categories = true) by (vm_compute; reflexivity).
  intros Hc%list_elem_of_In. eapply forallb_forall in Hall; [|done].
  by apply negb_true_iff in Hall.
Qed.

Lemma analysis_categories_listed (log : value) (r : ErrorAnalysis) (c : string) :
  analyzeLogForErrors log = Normal r → Some c ∈ categories r → c ∈ catalog_categories.
Proof.
  intros Hrun. destruct (truthy log) eqn:Ht.
  2:{ rewrite (analyze_falsy log Ht) in Hrun. injection Hrun as <-. by intros ?%elem_of_nil. }
  destruct (analyze_stages log r Ht Hrun)
    as (l & m & q & r0 & Hl & Hm & Hmod & -> & Hq & Hs & Hc & Hlow).
  destruct (accumulate_tags (Str.trim (Str.toLowerCase l)) (Str.toLowerCase m) m)
    as (_ & Hlisted & _).
  destruct (classify_categories q r0) as (Hsame & Hgen & Hempty).
  rewrite <- Hc in Hlisted. unfold catalog_categories. rewrite elem_of_app.
  destruct (categories r0) as [|c0 cs] eqn:Hcs.
  - destruct (isError (classify q r0)) eqn:He.
    + rewrite (Hgen eq_refl eq_refl). intros [= ->]%list_elem_of_singleton. right. by left.
    + rewrite (Hempty eq_refl eq_refl). by intros ?%elem_of_nil.
  - rewrite (Hsame ltac:(done)). intros Hin. left. by apply Hlisted.
Qed.

Lemma primary_category_listed (log : value) (r : ErrorAnalysis) :
  analyzeLogForErrors log = Normal r → primary_category r ∈ catalog_categories.
Proof.
  intros Hrun. unfold primary_category.
  assert (Hgen : "GENERAL_ERROR" ∈ catalog_categories).
  { unfold catalog_categories. apply elem_of_app. right. by left. }
  destruct (categories r) as [|[c|] cs] eqn:Hcs; [done| |done].
  destruct (String.eqb c ""); [done|].
  apply (analysis_categories_listed log r c Hrun). rewrite Hcs. by left.
Qed.

Lemma category_count_snoc (c : string) (es : list ErrorEntry) (e : ErrorEntry) :
  category_count c (es ++ [e])
  = category_count c es + (if String.eqb (ee_category e) c then 1 else 0).
Proof.
  unfold category_count. rewrite List.filter_app, length_app. cbn [List.filter].
  unfold in_category at 2. destruct (String.eqb (ee_category e) c); cbn; lia.
Qed.

Lemma bump_counted (categoryStats : list (string * Stat)) (es : list ErrorEntry)
  (e : ErrorEntry) :
  counted_by categoryStats es →
  Str.mem (ee_category e) Object_prototype_properties = false →
  counted_by (bump (ee_category e) categoryStats) (es ++ [e]).
Proof.
  intros (Hdup & Hsum & Hown) Hcat.
  assert (Hproto : String.eqb (ee_category e) "__proto__" = false).
  { destruct (String.eqb_spec (ee_category e) "__proto__") as [Heq|]; [|done].
    rewrite Heq in Hcat. vm_compute in Hcat. discriminate. }
  assert (Hpos : 0 <= category_count (ee_category e) es) by (unfold category_count; lia).
  assert (Hbump : bump (ee_category e) categoryStats
                  = set_property (ee_category e)
                      (Count (category_count (ee_category e) es + 1)) categoryStats).
  { unfold bump. rewrite (Hown (ee_category e)), Hproto, Hcat.
    destruct (Z.eqb_spec (category_count (ee_category e) es) 0) as [->|]; done. }
  rewrite Hbump. split; [by apply set_property_NoDup|]. split.
  - rewrite stat_sum_set, Hsum, (Hown (ee_category e)), length_app. cbn [length].
    destruct (Z.eqb_spec (category_count (ee_category e) es) 0); cbn [stat_count]; lia.
  - intros c. rewrite category_count_snoc.
    destruct (String.eqb_spec (ee_category e) c) as [<-|Hne].
    + rewrite own_set_same.
      destruct (Z.eqb_spec (category_count (ee_category e) es + 1) 0); [lia|done].
    + rewrite own_set_other, Hown, Z.add_0_r; done.
Qed.

Lemma bumps_counted (es' es : list ErrorEntry) (categoryStats : list (string * Stat)) :
  counted_by categoryStats es →
  Forall (fun e => Str.mem (ee_category e) Object_prototype_properties = false) es' →
  counted_by (fold_left (fun s e => bump (ee_category e) s) es' categoryStats) (es ++ es').
Proof.
  revert es categoryStats. induction es' as [|e es' IH]; intros es categoryStats Hc Hall.
  - by rewrite app_nil_r.
  - apply Forall_cons in Hall as [He Hall]. cbn [fold_left].
    rewrite (cons_middle e es es'), app_assoc. apply IH; [|done]. by apply bump_counted.
Qed.

Lemma forEach_logs_spec (logs : list value) (i : nat)
  (st st' : list ErrorEntry * list (string * Stat)) :
  forEach_logs logs i st = Normal st' →
  Forall (fun log => ∃ r, analyzeLogForErrors log = Normal r) logs
  ∧ fst st' = fst st ++ flagged_entries logs i
  ∧ snd st' = fold_left (fun s e => bump (ee_category e) s) (flagged_entries logs i) (snd st).
Proof.
  revert i st. induction logs as [|log logs IH]; intros i st Hrun.
  - injection Hrun as <-. by rewrite app_nil_r.
  - cbn [forEach_logs flagged_entries] in *. unfold visit in Hrun.
    destruct (analyzeLogForErrors log) as [r|e] eqn:Ha; [|done].
    cbn in Hrun. destruct (isError r) eqn:He; cbn in Hrun.
    + apply IH in Hrun as (Hall & Hfst & Hsnd). cbn [fst snd] in Hfst, Hsnd.
      split; [constructor; [by eexists|done]|].
      split; [by rewrite Hfst, <- app_assoc|done].
    + apply IH in Hrun as (Hall & Hfst & Hsnd).
      split; [constructor; [by eexists|done]|done].
Qed.

Lemma forEach_logs_returns (logs : list value) (i : nat)
  (st : list ErrorEntry * list (string * Stat)) :
  Forall (fun log => ∃ r, analyzeLogForErrors log = Normal r) logs →
  ∃ st', forEach_logs logs i st = Normal st'.
Proof.
  revert i st. induction logs as [|log logs IH]; intros i st Hall; [by eexists|].
  apply Forall_cons in Hall as [[r Hr] Hall]. cbn [forEach_logs]. unfold visit.
  rewrite Hr. cbn. destruct (isError r); cbn; apply IH, Hall.
Qed.

Lemma forEach_logs_throws (logs : list value) (i : nat)
  (st : list ErrorEntry * list (string * Stat)) (e : exn) :
  forEach_logs logs i st = Throw e ↔
  ∃ j log, logs !! j = Some log ∧ analyzeLogForErrors log = Throw e
           ∧ ∀ k log', (k < j)%nat → logs !! k = Some log' →
                       ∃ r, analyzeLogForErrors log' = Normal r.
Proof.
  revert i st. induction logs as [|log logs IH]; intros i st.
  - split; [done|]. by intros (j & log & ? & _).
  - cbn [forEach_logs]. unfold visit.
    destruct (analyzeLogForErrors log) as [r|e'] eqn:Ha.
    + assert (Hnext : ∃ st', (analysis ← Normal r;
                               if isError analysis
                               then mret (st.1 ++ [error_entry log i analysis],
                                          bump (primary_category analysis) st.2)
                               else mret st) = Normal st')
        by (cbn; destruct (isError r); by eexists).
      destruct Hnext as [st' ->]. cbn. rewrite IH. split.
      * intros (j & log' & Hj & He & Hbefore). exists (S j), log'. split; [done|].
        split; [done|]. intros [|k] log'' Hk Hlook.
        -- injection Hlook as <-. by eexists.
        -- apply (Hbefore k); [lia|done].
      * intros ([|j] & log' & Hj & He & Hbefore).
        -- injection Hj as <-. congruence.
        -- exists j, log'. split; [done|]. split; [done|].
           intros k log'' Hk Hlook. apply (Hbefore (S k)); [lia|done].
    + cbn. split.
      * intros [= <-]. exists 0%nat, log. split; [done|]. split; [done|]. intros k ? Hk. lia.
      * intros ([|j] & log' & Hj & He & Hbefore).
        -- injection Hj as <-. congruence.
        -- destruct (Hbefore 0%nat log ltac:(lia) eq_refl) as [r Hr]. congruence.
Qed.

Lemma analysable_returns (log : value) :
  analysable log ↔ ∃ r, analyzeLogForErrors log = Normal r.
Proof.
  unfold analysable. split.
  - destruct (truthy log) eqn:Ht.
    + intros [?|(l & m & Hl & Hm)]; [done|].
      rewrite (analyze_strings log l m Ht Hl Hm). by eexists.
    + intros _. rewrite (analyze_falsy log Ht). by eexists.
  - intros [r Hr]. destruct (truthy log) eqn:Ht; [|by left].
    destruct (analyze_cases log Ht) as [?|[e He]]; [by right|congruence].
Qed.

Lemma flagged_entries_elem (logs : list value) (i : nat) (e : ErrorEntry) :
  e ∈ flagged_entries logs i ↔
  ∃ j log r, logs !! j = Some log ∧ analyzeLogForErrors log = Normal r
             ∧ isError r = true ∧ e = error_entry log (i + j) r.
Proof.
  revert i. induction logs as [|log logs IH]; intros i.
  - split; [by intros ?%elem_of_nil|]. by intros (j & ? & ? & ? & _).
  - cbn [flagged_entries]. rewrite elem_of_app, IH. split.
    + intros [Hhead|(j & log' & r & Hj & Hr & He & ->)].
      * destruct (analyzeLogForErrors log) as [r|] eqn:Ha; [|by apply elem_of_nil in Hhead].
        destruct (isError r) eqn:He; [|by apply elem_of_nil in Hhead].
        apply list_elem_of_singleton in Hhead. exists 0%nat, log, r.
        by rewrite Nat.add_0_r.
      * exists (S j), log', r. by rewrite Nat.add_succ_r.
    + intros ([|j] & log' & r & Hj & Hr & He & ->).
      * left. injection Hj as <-. rewrite Hr, He, Nat.add_0_r. by left.
      * right. exists j, log', r. by rewrite Nat.add_succ_r.
Qed.

Lemma flagged_entries_sorted (logs : list value) (i : nat) :
  StronglySorted (fun a b => ee_index a < ee_index b) (flagged_entries logs i).
Proof.
  revert i. induction logs as [|log logs IH]; intros i; [constructor|].
  cbn [flagged_entries].
  assert (Hafter : Forall (fun b => Z.of_nat i + 1 < ee_index b) (flagged_entries logs (S i))).
  { apply Forall_forall. intros b (j & log' & r & _ & _ & _ & ->)%flagged_entries_elem.
    cbn. lia. }
  destruct (analyzeLogForErrors log) as [r|]; [|apply IH].
  destruct (isError r); [|apply IH]. cbn [app]. constructor; [apply IH|exact Hafter].
Qed.

Lemma flagged_entries_length (logs : list value) (i : nat) :
  length (flagged_entries logs i) = length (List.filter flagged logs).
Proof.
  revert i. induction logs as [|log logs IH]; intros i; [done|].
  cbn [flagged_entries List.filter]. rewrite length_app, IH. unfold flagged at 2.
  destruct (analyzeLogForErrors log) as [r|]; [|done]. by destruct (isError r).
Qed.

Lemma length_substring (n : nat) (s : string) : (String.length (String.substring 0 n s) ≤ n)%nat.
Proof.
  revert s. induction n as [|n IH]; intros [|c s]; cbn; try lia.
  specialize (IH s). lia.
Qed.

Lemma length_append (s t : string) :
  String.length (s +:+ t) = (String.length s + String.length t)%nat.
Proof. induction s as [|c s IH]; [done|]. simpl. by f_equal. Qed.

Lemma excerpt_bounded (msg : string) : (String.length (excerpt_of msg) ≤ 303)%nat.
Proof.
  unfold excerpt_of. destruct (Nat.ltb_spec 300 (String.length msg)) as [Hlong|Hshort]; [|lia].
  rewrite length_append. pose proof (length_substring 300 msg). cbn [String.length]. lia.
Qed.

Lemma flagged_score (log : value) (r : ErrorAnalysis) :
  analyzeLogForErrors log = Normal r → isError r = true →
  ∃ n, score r = Int n ∧ 25 <= n
       ∧ (confidence r = HIGH ↔ 50 <= n) ∧ (confidence r = MEDIUM ↔ n < 50).
Proof.
  intros Hrun He. destruct (analyze_classified log r Hrun) as [Herr Hconf].
  rewrite He in Herr. symmetry in Herr. apply at_least_reaches in Herr as (n & Hn & Hge).
  exists n. split; [done|]. split; [exact Hge|]. rewrite Hconf, Hn.
  unfold at_least, HIGH_CONFIDENCE_THRESHOLD, ERROR_SCORE_THRESHOLD in *.
  destruct (Z.leb_spec 50 n), (Z.leb_spec 25 n); split; split; (done || lia).
Qed.

Lemma extractErrorEntries_run (logs : list value) (data : ErrorData) :
  extractErrorEntries logs = Normal data →
  let collected := flagged_entries logs 0 in
  Forall (fun log => ∃ r, analyzeLogForErrors log = Normal r) logs
  ∧ ed_entries data = Array_sort by_score collected
  ∧ stats data = fold_left (fun s e => bump (ee_category e) s) collected []
  ∧ totalErrors data = length (ed_entries data)
  ∧ highConfidenceCount data
    = length (List.filter (fun e => is_HIGH (ee_confidence e)) (ed_entries data)).
Proof.
  unfold extractErrorEntries. intros Hrun.
  destruct (forEach_logs logs 0 ([], [])) as [st|e] eqn:Hloop; [|done].
  injection Hrun as <-. apply forEach_logs_spec in Hloop as (Hall & Hfst & Hsnd).
  cbn [fst snd app] in Hfst, Hsnd. cbn [ed_entries stats totalErrors highConfidenceCount].
  by rewrite Hfst, Hsnd.
Qed.

Lemma flagged_entry_facts (logs : list value) (e : ErrorEntry) :
  e ∈ flagged_entries logs 0 →
  ∃ n, ee_score e = Int n ∧ 25 <= n
       ∧ (ee_confidence e = HIGH ↔ 50 <= n) ∧ (ee_confidence e = MEDIUM ↔ n < 50)
       ∧ 1 <= ee_index e <= Z.of_nat (length logs)
       ∧ ee_category e ∈ catalog_categories
       ∧ (length (ee_reasons e) ≤ 3)%nat
       ∧ (String.length (excerpt e) ≤ 303)%nat.
Proof.
  intros (i & log & r & Hi & Hr & He & ->)%flagged_entries_elem.
  destruct (flagged_score log r Hr He) as (n & Hn & Hge & Hhigh & Hmedium).
  exists n. cbn [error_entry ee_score ee_confidence ee_index ee_category ee_reasons excerpt].
  split; [done|]. split; [done|]. split; [done|]. split; [done|].
  apply lookup_lt_Some in Hi. split; [lia|]. split; [by eapply primary_category_listed|].
  split; [|apply excerpt_bounded]. rewrite length_take. lia.
Qed.

(** X11. The entries of [extractErrorEntries]. There is one entry for
    each record that the analysis flags, made from that record, its
    position and its analysis, and no other entry. The entries are ranked:
    a higher score comes first, and of two entries with the same score the
    one of the earlier record. Every entry has an integer score of at
    least 25, the confidence [HIGH] exactly from 50 on and [MEDIUM] below,
    a 1-based position within the sequence, a category of the catalog, at
    most three reasons and an excerpt of at most 303 characters. *)
Theorem error_entries_are_ranked (logs : list value) (data : ErrorData) :
  extractErrorEntries logs = Normal data →
  (∀ e, e ∈ ed_entries data ↔
        ∃ i log r, logs !! i = Some log ∧ analyzeLogForErrors log = Normal r
                   ∧ isError r = true ∧ e = error_entry log i r)
  ∧ StronglySorted ranked (ed_entries data)
  ∧ Forall (fun e =>
              ∃ n, ee_score e = Int n ∧ 25 <= n
                   ∧ (ee_confidence e = HIGH ↔ 50 <= n) ∧ (ee_confidence e = MEDIUM ↔ n < 50)
                   ∧ 1 <= ee_index e <= Z.of_nat (length logs)
                   ∧ ee_category e ∈ catalog_categories
                   ∧ (length (ee_reasons e) ≤ 3)%nat
                   ∧ (String.length (excerpt e) ≤ 303)%nat)
      (ed_entries data).
Proof.
  intros Hrun. destruct (extractErrorEntries_run logs data Hrun) as (_ & Hentries & _).
  rewrite Hentries. split; [|split].
  - intros e. by rewrite Array_sort_perm, flagged_entries_elem.
  - apply Array_sort_before; [|apply flagged_entries_sorted].
    intros a b Ha Hb.
    destruct (flagged_entry_facts logs a Ha) as (x & Hx & _).
    destruct (flagged_entry_facts logs b Hb) as (y & Hy & _).
    unfold by_score, entry_score. by rewrite Hx, Hy.
  - apply Forall_forall. intros e He. rewrite Array_sort_perm in He.
    by apply flagged_entry_facts.
Qed.

(** X12. The statistics of [extractErrorEntries]. [totalErrors] is the
    number of entries, which is the number of flagged records;
    [stats] names each category once and holds, for every category, the
    number of entries of that category (nothing for a category without
    entries, and never anything but a count), so that its counts add up to
    [totalErrors]; [highConfidenceCount] is the number of entries with a
    score of at least 50, and at most [totalErrors]. *)
Theorem error_statistics_count_the_entries (logs : list value) (data : ErrorData) :
  extractErrorEntries logs = Normal data →
  totalErrors data = length (ed_entries data)
  ∧ totalErrors data = length (List.filter flagged logs)
  ∧ NoDup (stats data).*1
  ∧ (∀ c, own_property c (stats data)
          = if category_count c (ed_entries data) =? 0 then None
            else Some (Count (category_count c (ed_entries data))))
  ∧ stat_sum (stats data) = Z.of_nat (totalErrors data)
  ∧ highConfidenceCount data
    = length (List.filter (fun e => 50 <=? entry_score e) (ed_entries data))
  ∧ (highConfidenceCount data ≤ totalErrors data)%nat.
Proof.
  intros Hrun.
  destruct (extractErrorEntries_run logs data Hrun) as (_ & Hentries & Hstats & Htotal & Hhigh).
  cbn zeta in Hentries, Hstats.
  pose proof (Array_sort_perm by_score (flagged_entries logs 0)) as Hperm.
  rewrite <- Hentries in Hperm.
  assert (Hcount : counted_by (stats data) (flagged_entries logs 0)).
  { rewrite Hstats. apply (bumps_counted (flagged_entries logs 0) [] []).
    - split; [constructor|]. split; [done|]. done.
    - apply Forall_forall. intros e He. apply catalog_not_inherited.
      by destruct (flagged_entry_facts logs e He) as (n & _ & _ & _ & _ & _ & Hcat & _). }
  destruct Hcount as (Hdup & Hsum & Hown).
  assert (Hlen : length (ed_entries data) = length (flagged_entries logs 0))
    by (by rewrite Hperm).
  split; [done|]. split; [by rewrite Htotal, Hlen, flagged_entries_length|].
  split; [done|]. split; [|split; [by rewrite Hsum, Htotal, Hlen|]].
  - intros c. rewrite (Hown c). unfold category_count.
    by rewrite (filter_length_perm (in_category c) _ _ Hperm).
  - rewrite Hhigh, Htotal. split; [|apply List.filter_length_le].
    f_equal. apply List.filter_ext_in. intros e He%list_elem_of_In. rewrite Hperm in He.
    destruct (flagged_entry_facts logs e He) as (n & Hn & _ & Hconf & _).
    unfold entry_score. rewrite Hn.
    destruct (Z.leb_spec 50 n) as [Hge|Hlt].
    + apply Hconf in Hge. by rewrite Hge.
    + destruct (ee_confidence e); [done|done|]. assert (50 <= n) by (by apply Hconf). lia.
Qed.

(** X13. When [extractErrorEntries] fails. It returns exactly for a
    sequence whose records can all be analysed: each one falsy, or with a
    level and a message that are strings or falsy. Otherwise it throws
    what the analysis of the first other record throws, and no later
    record is looked at. *)
Theorem extraction_stops_at_the_first_failure (logs : list value) :
  ((∃ data, extractErrorEntries logs = Normal data) ↔ Forall analysable logs)
  ∧ ∀ e, extractErrorEntries logs = Throw e ↔
         ∃ j log, logs !! j = Some log ∧ analyzeLogForErrors log = Throw e
                  ∧ ¬ analysable log
                  ∧ Forall analysable (take j logs)
                  ∧ extractErrorEntries (take (S j) logs) = Throw e.
Proof.
  assert (Hthrow : ∀ logs e, extractErrorEntries logs = Throw e
                             ↔ forEach_logs logs 0 ([], []) = Throw e).
  { intros logs' e. unfold extractErrorEntries.
    destruct (forEach_logs logs' 0 ([], [])) as [st|e']; cbn; unfold mret, completion_ret; split; congruence. }
  split.
  - split.
    + intros [data Hrun]. destruct (extractErrorEntries_run logs data Hrun) as (Hall & _).
      eapply Forall_impl; [exact Hall|]. intros log. by rewrite analysable_returns.
    + intros Hall. unfold extractErrorEntries.
      destruct (forEach_logs_returns logs 0 ([], [])) as [st ->]; [|by eexists].
      eapply Forall_impl; [exact Hall|]. intros log. by rewrite analysable_returns.
  - intros e. rewrite Hthrow, forEach_logs_throws. split.
    + intros (j & log & Hj & He & Hbefore). exists j, log. split; [done|]. split; [done|].
      split; [rewrite analysable_returns; intros [r Hr]; congruence|]. split.
      * apply Forall_forall. intros log' Hin. apply list_elem_of_lookup in Hin as [k Hk].
        apply lookup_take_Some in Hk as [Hk Hlt]. rewrite analysable_returns.
        by apply (Hbefore k).
      * rewrite Hthrow, forEach_logs_throws. exists j, log.
        split; [rewrite lookup_take_lt; [done|lia]|]. split; [done|].
        intros k log' Hk Hlook. apply lookup_take_Some in Hlook as [Hlook _].
        by apply (Hbefore k).
    + intros (j & log & Hj & He & _ & Hbefore & _). exists j, log. split; [done|].
      split; [done|]. intros k log' Hk Hlook. rewrite <- analysable_returns.
      eapply Forall_forall in Hbefore; [done|]. apply list_elem_of_lookup. exists k.
      by rewrite lookup_take_lt.
Qed.

Lemma error_entries_are_ranked_witness :
  let logs := [VObj [("message", VStr "all good")];
               VObj [("level", VStr "error"); ("message", VStr "failed to connect")];
               VNull;
               VObj [("level", VStr "fatal"); ("message", VStr "crash")];
               VObj [("level", VStr "ERROR"); ("message", VStr "failed to connect")]] in
  ∃ data,
    extractErrorEntries logs = Normal data
    ∧ List.map (fun e => (ee_index e, ee_score e)) (ed_entries data)
      = [(2, Int 129); (5, Int 129); (4, Int 120)]
    ∧ StronglySorted ranked (ed_entries data).
Proof.
  intros logs.
  assert (Hrun : ∃ data,
            extractErrorEntries logs = Normal data
            ∧ List.map (fun e => (ee_index e, ee_score e)) (ed_entries data)
              = [(2, Int 129); (5, Int 129); (4, Int 120)])
    by (eexists; split; vm_compute; reflexivity).
  destruct Hrun as (data & Hrun & Hranks). exists data. split; [exact Hrun|].
  split; [exact Hranks|].
  destruct (error_entries_are_ranked logs data Hrun) as (_ & Hsorted & _). exact Hsorted.
Defined.

Lemma error_statistics_count_the_entries_witness :
  let logs := [VObj [("level", VStr "error"); ("message", VStr "failed to connect")];
               VObj [("message", VStr "all good")];
               VObj [("level", VStr "fatal"); ("message", VStr "crash")];
               VObj [("level", VStr "ERROR"); ("message", VStr "failed to connect")]] in
  ∃ data,
    extractErrorEntries logs = Normal data
    ∧ stats data = [("ERROR", Count 2); ("FATAL", Count 1)]
    ∧ stat_sum (stats data) = Z.of_nat (totalErrors data)
    ∧ totalErrors data = length (List.filter flagged logs).
Proof.
  intros logs.
  assert (Hrun : ∃ data,
            extractErrorEntries logs = Normal data
            ∧ stats data = [("ERROR", Count 2); ("FATAL", Count 1)])
    by (eexists; split; vm_compute; reflexivity).
  destruct Hrun as (data & Hrun & Hstats). exists data. split; [exact Hrun|].
  split; [exact Hstats|].
  destruct (error_statistics_count_the_entries logs data Hrun)
    as (_ & Hflagged & _ & _ & Hsum & _).
  split; [exact Hsum|exact Hflagged].
Defined.

(** * The sections of a response *)

(** Whatever the matcher returns, its continuation has returned. *)
Lemma m_result (ic : bool) (P : RegExp.mstate → Prop) (r : RegExp.regex) :
  ∀ st k fin,
    (∀ st' fin', k st' = Some fin' → P fin') → RegExp.m ic r st k = Some fin → P fin.
Proof.
  induction r as [| c | | negated items | negated | | | r1 IH1 r2 IH2 | r1 IH1 r2 IH2
                  | [n|] r1 IH1 | r1 IH1 mn mx greedy];
    intros st k fin Hk Hm; cbn [RegExp.m] in Hm.
  - by eapply Hk.
  - destruct (RegExp.advance st) as [[a st']|]; [|done].
    destruct (Ascii.eqb _ _); [by eapply Hk|done].
  - destruct (RegExp.advance st) as [[a st']|]; [|done].
    destruct (RegExp.is_line_terminator a); [done|by eapply Hk].
  - destruct (RegExp.advance st) as [[a st']|]; [|done].
    destruct (xorb _ _); [by eapply Hk|done].
  - destruct (xorb _ _); [by eapply Hk|done].
  - destruct (RegExp.prev st); [done|by eapply Hk].
  - destruct (RegExp.rest st); [by eapply Hk|done].
  - eapply IH1; [|exact Hm]. intros st' fin' Hm'. eapply IH2; [exact Hk|exact Hm'].
  - destruct (RegExp.m ic r1 st k) as [fin'|] eqn:H1; cbn in Hm.
    + injection Hm as <-. eapply IH1; [exact Hk|exact H1].
    + eapply IH2; [exact Hk|exact Hm].
  - eapply IH1; [|exact Hm]. intros st' fin' Hm'. eapply Hk. exact Hm'.
  - eapply IH1; [exact Hk|exact Hm].
  - assert (Hloop : ∀ fuel mn mx st fin,
              (fix loop (fuel : nat) (mn : nat) (mx : option nat) (st : RegExp.mstate)
                 {struct fuel} : option RegExp.mstate :=
                 match fuel with
                 | O => None
                 | S fuel' =>
                     match mx with
                     | Some O => k st
                     | _ =>
                         let again := fun st' =>
                           if (mn =? 0)%nat
                              && (length (RegExp.rest st') =? length (RegExp.rest st))%nat
                           then None
                           else loop fuel' (pred mn) (pred <$> mx) st' in
                         if (0 <? mn)%nat then RegExp.m ic r1 st again
                         else if greedy then RegExp.or_else (RegExp.m ic r1 st again) (k st)
                         else RegExp.or_else (k st) (RegExp.m ic r1 st again)
                     end
                 end) fuel mn mx st = Some fin → P fin).
    { clear Hm. intros fuel. induction fuel as [|fuel IHfuel]; intros mn' mx' st0 fin0 Hm;
        [discriminate Hm|].
      simpl in Hm.
      destruct mx' as [[|mx']|]; [by eapply Hk| |];
        (destruct (0 <? mn')%nat;
         [eapply IH1; [|exact Hm]; intros st1 fin1; cbn beta; destruct (_ && _); [done|apply IHfuel]|];
         destruct greedy;
         [ match type of Hm with
           | RegExp.or_else ?a _ = _ => destruct a as [fin'|] eqn:H1
           end; cbn in Hm;
           [ injection Hm as <-; eapply IH1; [|exact H1];
             intros st1 fin1; cbn beta; destruct (_ && _); [done|apply IHfuel]
           | by eapply Hk ]
         | destruct (k st0) as [fin'|] eqn:H1; cbn in Hm;
           [ injection Hm as <-; by eapply Hk
           | eapply IH1; [|exact Hm];
             intros st1 fin1; cbn beta; destruct (_ && _); [done|apply IHfuel] ] ]). }
    eapply (Hloop (S (mn + length (RegExp.rest st))) mn mx st fin). exact Hm.
Qed.

Lemma ends_in_group_result (ic : bool) (P : RegExp.mstate → Prop) (r g : RegExp.regex) :
  ends_in_group r = Some g →
  (∀ from fin, RegExp.m ic g from (capture_from from) = Some fin → P fin) →
  ∀ st fin, RegExp.m ic r st Some = Some fin → P fin.
Proof.
  intros Hg Hgroup.
  induction r as [| c | | negated items | negated | | | r1 IH1 r2 IH2 | r1 IH1 r2 IH2
                  | [[|[|n]]|] r1 IH1 | r1 IH1 mn mx greedy];
    try discriminate Hg; intros st fin Hm; cbn [RegExp.m ends_in_group] in *.
  - eapply (m_result ic P r1); [|exact Hm]. intros st' fin' Hm'. eapply IH2; [exact Hg|exact Hm'].
  - injection Hg as <-. eapply Hgroup. exact Hm.
Qed.

Lemma m_words (ic : bool) (g : RegExp.regex) :
  ∀ ws st k fin,
    literal_words g = Some ws → RegExp.m ic g st k = Some fin →
    ∃ w cs st', w ∈ ws ∧ RegExp.rest st = cs ++ RegExp.rest st'
                ∧ List.map (RegExp.canon ic) cs = List.map (RegExp.canon ic) w
                ∧ k st' = Some fin.
Proof.
  induction g as [| c | | negated items | negated | | | r1 IH1 r2 IH2 | r1 IH1 r2 IH2
                  | index r1 IH1 | r1 IH1 mn mx greedy];
    intros ws st k fin Hws Hm; try discriminate Hws; cbn [RegExp.m literal_words] in *.
  - injection Hws as <-. unfold RegExp.advance in Hm.
    destruct (RegExp.rest st) as [|a tl] eqn:Hrest; [done|].
    destruct (Ascii.eqb_spec (RegExp.canon ic a) (RegExp.canon ic c)) as [Heq|]; [|done].
    exists [c], [a], (RegExp.MState (Some a) tl (RegExp.captures st)).
    split; [by left|]. split; [done|]. split; [cbn; by rewrite Heq|done].
  - destruct (literal_words r1) as [ws1|]; [|done].
    destruct (literal_words r2) as [ws2|]; [|done]. injection Hws as <-.
    destruct (IH1 ws1 st _ fin eq_refl Hm) as (w1 & cs1 & st1 & Hw1 & Hrest1 & Hcs1 & Hm2).
    destruct (IH2 ws2 st1 k fin eq_refl Hm2) as (w2 & cs2 & st2 & Hw2 & Hrest2 & Hcs2 & Hk).
    exists (w1 ++ w2), (cs1 ++ cs2), st2. split.
    + apply list_elem_of_bind. exists w1. split; [|done].
      apply list_elem_of_fmap. by exists w2.
    + split; [by rewrite Hrest1, Hrest2, app_assoc|].
      split; [by rewrite !List.map_app, Hcs1, Hcs2|done].
  - destruct (literal_words r1) as [ws1|]; [|done].
    destruct (literal_words r2) as [ws2|]; [|done]. injection Hws as <-.
    destruct (RegExp.m ic r1 st k) as [fin'|] eqn:H1; cbn in Hm.
    + injection Hm as <-.
      destruct (IH1 ws1 st k fin' eq_refl H1) as (w & cs & st' & Hw & Hrest & Hcs & Hk).
      exists w, cs, st'. split; [apply elem_of_app; by left|done].
    + destruct (IH2 ws2 st k fin eq_refl Hm) as (w & cs & st' & Hw & Hrest & Hcs & Hk).
      exists w, cs, st'. split; [apply elem_of_app; by right|done].
Qed.

Lemma toUpperCase_list (cs : list ascii) :
  Str.toUpperCase (string_of_list_ascii cs) = upper_word cs.
Proof.
  unfold upper_word, Str.toUpperCase.
  induction cs as [|c cs IH]; [done|]. cbn. by rewrite IH.
Qed.

Lemma group_words (g : RegExp.regex) (ws : list (list ascii)) (from fin : RegExp.mstate) :
  literal_words g = Some ws →
  RegExp.m true g from (capture_from from) = Some fin →
  captured_word (upper_word <$> ws) fin.
Proof.
  intros Hws Hm.
  destruct (m_words true g ws from _ fin Hws Hm) as (w & cs & st' & Hw & Hrest & Hcs & Hk).
  unfold capture_from in Hk. injection Hk as <-.
  exists (string_of_list_ascii cs). split.
  - cbn. f_equal. unfold RegExp.text_between. f_equal.
    rewrite Hrest, length_app. replace (_ + _ - _)%nat with (length cs) by lia.
    by rewrite take_app_length.
  - rewrite toUpperCase_list. apply list_elem_of_fmap. exists w. split; [|done].
    unfold upper_word. f_equal. exact Hcs.
Qed.

Lemma search_captures (P : list (nat * string) → Prop) (re : RegExp.t) :
  (∀ st fin, RegExp.m (RegExp.ignoreCase re) (RegExp.tree re) st Some = Some fin →
             P (RegExp.captures fin)) →
  ∀ inp pos before found,
    RegExp.search re pos before inp = Some found → P (RegExp.groups found).
Proof.
  intros Hm inp. induction inp as [|c inp IH]; intros pos before found Hfound;
    cbn [RegExp.search] in Hfound.
  - destruct (RegExp.m _ _ _ Some) as [fin|] eqn:Hfin; [|done].
    injection Hfound as <-. by eapply Hm.
  - destruct (RegExp.m _ _ _ Some) as [fin|] eqn:Hfin.
    + injection Hfound as <-. by eapply Hm.
    + by eapply IH.
Qed.

Lemma exec_word (re : RegExp.t) (g : RegExp.regex) (ws : list (list ascii))
  (s : string) (found : RegExp.result) :
  RegExp.ignoreCase re = true → ends_in_group (RegExp.tree re) = Some g →
  literal_words g = Some ws →
  RegExp.exec re s 0 = Some found →
  ∃ v, group_toUpperCase found = Normal v ∧ v ∈ upper_word <$> ws.
Proof.
  intros Hic Hg Hws Hfound. unfold RegExp.exec in Hfound.
  destruct (_ <? _)%nat; [done|].
  apply (search_captures
           (fun caps => ∃ s, snd <$> List.find (fun p => (fst p =? 1)%nat) caps = Some s
                             ∧ Str.toUpperCase s ∈ upper_word <$> ws)) in Hfound.
  - destruct Hfound as (text & Hfind & Hin). exists (Str.toUpperCase text).
    unfold group_toUpperCase, RegExp.group. by rewrite Hfind.
  - rewrite Hic. intros st fin Hfin.
    change (captured_word (upper_word <$> ws) fin).
    eapply (ends_in_group_result true (captured_word (upper_word <$> ws)) _ g Hg);
      [|exact Hfin].
    intros from fin'. by apply group_words.
Qed.

Lemma equivalence_words :
  ∃ g ws, RegExp.ignoreCase equivalence_pattern = true
          ∧ ends_in_group (RegExp.tree equivalence_pattern) = Some g
          ∧ literal_words g = Some ws
          ∧ upper_word <$> ws = ["YES"; "NO"; "PARTIAL"].
Proof.
  eexists _, _. split; [vm_compute; reflexivity|]. split; [vm_compute; reflexivity|].
  split; vm_compute; reflexivity.
Qed.

Lemma confidence_words :
  ∃ g ws, RegExp.ignoreCase confidence_pattern = true
          ∧ ends_in_group (RegExp.tree confidence_pattern) = Some g
          ∧ literal_words g = Some ws
          ∧ upper_word <$> ws = ["LOW"; "MEDIUM"; "HIGH"].
Proof.
  eexists _, _. split; [vm_compute; reflexivity|]. split; [vm_compute; reflexivity|].
  split; vm_compute; reflexivity.
Qed.

(** X14. [parseAnalysisResponse]. A falsy response gives [null]; a truthy
    response that is not a string throws. For a non-empty string the
    result holds the response as [raw] and empty lists; its
    [functionalEquivalence] is [null] exactly when the equivalence pattern
    finds nothing and is otherwise one of [YES], [NO], [PARTIAL] in upper
    case; its [confidenceLevel] is [UNKNOWN] exactly when the confidence
    pattern finds nothing and is otherwise one of [LOW], [MEDIUM],
    [HIGH]. *)
Theorem response_sections (analysis : value) :
  (truthy analysis = false → parseAnalysisResponse analysis = Normal None)
  ∧ (truthy analysis = true → (∀ s, analysis ≠ VStr s) →
     ∃ e, parseAnalysisResponse analysis = Throw e)
  ∧ ∀ s, analysis = VStr s → s ≠ "" →
      ∃ sections,
        parseAnalysisResponse analysis = Normal (Some sections)
        ∧ raw sections = s
        ∧ meaningfulDifferences sections = [] ∧ cosmeticVsFunctional sections = None
        ∧ rootCauseSuggestions sections = [] ∧ recommendations sections = []
        ∧ (if RegExp.test equivalence_pattern s
           then functionalEquivalence sections ∈ [Some "YES"; Some "NO"; Some "PARTIAL"]
           else functionalEquivalence sections = None)
        ∧ (if RegExp.test confidence_pattern s
           then confidenceLevel sections ∈ ["LOW"; "MEDIUM"; "HIGH"]
           else confidenceLevel sections = "UNKNOWN").
Proof.
  split; [|split].
  - intros Hfalsy. unfold parseAnalysisResponse. by rewrite Hfalsy.
  - intros Htruthy Hother. unfold parseAnalysisResponse. rewrite Htruthy. cbn [negb].
    destruct analysis; try by eexists. by destruct (Hother s).
  - intros s -> Hs. unfold parseAnalysisResponse. cbn [truthy].
    destruct (String.eqb_spec s "") as [|_]; [done|]. cbn [negb]. unfold RegExp.test.
    assert (Hfirst : ∀ found,
              RegExp.exec equivalence_pattern s 0 = Some found →
              ∃ v, group_toUpperCase found = Normal v ∧ v ∈ ["YES"; "NO"; "PARTIAL"]).
    { intros found Hfound. destruct equivalence_words as (g & ws & Hic & Hg & Hws & Hwords).
      rewrite <- Hwords. eapply exec_word; eassumption. }
    assert (Hsecond : ∀ found,
              RegExp.exec confidence_pattern s 0 = Some found →
              ∃ v, group_toUpperCase found = Normal v ∧ v ∈ ["LOW"; "MEDIUM"; "HIGH"]).
    { intros found Hfound. destruct confidence_words as (g & ws & Hic & Hg & Hws & Hwords).
      rewrite <- Hwords. eapply exec_word; eassumption. }
    destruct (RegExp.exec equivalence_pattern s 0) as [eqMatch|];
      destruct (RegExp.exec confidence_pattern s 0) as [confMatch|].
    + destruct (Hfirst _ eq_refl) as (v1 & -> & Hv1).
      destruct (Hsecond _ eq_refl) as (v2 & -> & Hv2). clear Hfirst Hsecond.
      eexists. split; [reflexivity|]. cbn. repeat (split; [reflexivity|]).
      split; [change (Some v1 ∈ Some <$> ["YES"; "NO"; "PARTIAL"]); by apply list_elem_of_fmap_2|exact Hv2].
    + destruct (Hfirst _ eq_refl) as (v1 & -> & Hv1). clear Hfirst Hsecond.
      eexists. split; [reflexivity|]. cbn. repeat (split; [reflexivity|]).
      split; [change (Some v1 ∈ Some <$> ["YES"; "NO"; "PARTIAL"]); by apply list_elem_of_fmap_2|reflexivity].
    + destruct (Hsecond _ eq_refl) as (v2 & -> & Hv2). clear Hfirst Hsecond.
      eexists. split; [reflexivity|]. cbn. repeat (split; [reflexivity|]). exact Hv2.
    + clear Hfirst Hsecond.
      eexists. split; [reflexivity|]. cbn. repeat (split; [reflexivity|]). reflexivity.
Qed.

Example response_sections_example :
  let response := "Functional equivalence: partial. Confidence:  High" in
  ∃ sections,
    parseAnalysisResponse (VStr response) = Normal (Some sections)
    ∧ functionalEquivalence sections = Some "PARTIAL"
    ∧ confidenceLevel sections = "HIGH".
Proof.
  eexists. split; [vm_compute; reflexivity|]. split; vm_compute; reflexivity.
Qed.

(** * The similarity of two vectors *)

Lemma Number_mul_comm (x y : spec_float) : Number_mul x y = Number_mul y x.
Proof.
  unfold Number_mul, SFmul.
  destruct x as [sx|sx| |sx mx ex], y as [sy|sy| |sy my ey];
    rewrite ?(xorb_comm sx sy), ?(Pos.mul_comm mx my), ?(Z.add_comm ex ey); reflexivity.
Qed.

Lemma products_swap (a b : list spec_float) (d na nb : spec_float) :
  length a = length b →
  ∀ d' na' nb',
    fold_left accumulate_products (zip a b) (d, na, nb) = (d', na', nb') →
    fold_left accumulate_products (zip b a) (d, nb, na) = (d', nb', na').
Proof.
  revert b d na nb. induction a as [|x a IH]; intros [|y b] d na nb Hlen d' na' nb' Hrun;
    try discriminate Hlen.
  - cbn in *. congruence.
  - cbn [zip zip_with fold_left accumulate_products] in *.
    rewrite (Number_mul_comm y x). apply IH; [|exact Hrun]. by injection Hlen.
Qed.

Lemma products_of_zeros (a b : list spec_float) (d na nb : spec_float) :
  Forall (fun x => is_zero x = true) a → zero_or_NaN d → na = S754_zero false →
  ∀ d' na' nb',
    fold_left accumulate_products (zip a b) (d, na, nb) = (d', na', nb') →
    zero_or_NaN d' ∧ na' = S754_zero false.
Proof.
  revert b d na nb. induction a as [|x a IH]; intros b d na nb Hzeros Hd -> d' na' nb' Hrun.
  - cbn in Hrun. injection Hrun as <- <- <-. done.
  - destruct b as [|y b]; [cbn in Hrun; injection Hrun as <- <- <-; done|].
    apply Forall_cons in Hzeros as [Hx Hzeros].
    cbn [zip zip_with fold_left accumulate_products] in Hrun.
    eapply (IH b); [exact Hzeros| | |exact Hrun].
    + destruct x as [sx| | |]; try discriminate Hx.
      destruct d as [sd| | |]; try done; destruct y as [sy|sy| |sy my ey]; cbn; try done;
        by destruct sd, sx, sy.
    + destruct x as [sx| | |]; try discriminate Hx. cbn. by rewrite xorb_nilpotent.
Qed.

(** X15. [cosineSimilarity] on vectors of numbers. Vectors of different
    lengths give [0]. The result does not depend on the order of the two
    vectors. When every component of one vector is zero (the empty vector
    included) the result is [NaN], whatever the other vector of that
    length holds. *)
Theorem similarity_of_vectors (a b : list spec_float) :
  (length a ≠ length b → cosineSimilarity a b = S754_zero false)
  ∧ cosineSimilarity a b = cosineSimilarity b a
  ∧ (length a = length b → Forall (fun x => is_zero x = true) a →
     cosineSimilarity a b = S754_nan).
Proof.
  split; [|split].
  - intros Hlen. unfold cosineSimilarity.
    by destruct (Nat.eqb_spec (length a) (length b)).
  - unfold cosineSimilarity. rewrite (Nat.eqb_sym (length b)).
    destruct (Nat.eqb_spec (length a) (length b)) as [Hlen|]; [|done]. cbn [negb].
    destruct (fold_left accumulate_products (zip a b) _) as [[d na] nb] eqn:Hrun.
    rewrite (products_swap a b _ _ _ Hlen d na nb Hrun).
    by rewrite (Number_mul_comm (Math_sqrt nb)).
  - intros Hlen Hzeros. unfold cosineSimilarity.
    destruct (Nat.eqb_spec (length a) (length b)) as [_|]; [|done]. cbn [negb].
    destruct (fold_left accumulate_products (zip a b) _) as [[d na] nb] eqn:Hrun.
    destruct (products_of_zeros a b (S754_zero false) _ (S754_zero false) Hzeros I eq_refl
                d na nb Hrun) as [Hd ->].
    destruct d as [sd| | |]; try done; cbn;
      destruct (Math_sqrt nb) as [s|s| |s m' e']; reflexivity.
Qed.

Example similarity_of_a_vector_with_itself :
  cosineSimilarity [Number_of_Z 3; Number_of_Z 4] [Number_of_Z 3; Number_of_Z 4]
  = Number_of_Z 1.
Proof. vm_compute. reflexivity. Qed.

(** * Values that count as invalid *)

Lemma prefix_cons (c : ascii) (p t : string) :
  String.prefix (String c p) (String c t) = String.prefix p t.
Proof. cbn [String.prefix]. by destruct (ascii_dec c c). Qed.

Lemma prefix_nil (t : string) : String.prefix "" t = true.
Proof. by destruct t. Qed.

Lemma trimEnd_cons (c : ascii) (s : string) :
  Str.trimEnd (String c s)
  = match Str.trimEnd s with
    | EmptyString => if Str.is_space c then EmptyString else String c EmptyString
    | t => String c t
    end.
Proof. reflexivity. Qed.

Lemma trimEnd_prefix (p x : string) :
  p ≠ "" → Str.trimEnd p = p → String.prefix p (Str.trimEnd (p +:+ x)) = true.
Proof.
  induction p as [|c p IH]; intros Hp Hfix; [done|].
  change (String c p +:+ x) with (String c (p +:+ x)).
  rewrite trimEnd_cons in Hfix |- *.
  destruct p as [|c' p'].
  - cbn [Str.trimEnd String.append] in *. destruct (Str.is_space c) eqn:Hc; [done|].
    change ("" +:+ x) with x. destruct (Str.trimEnd x); by rewrite prefix_cons, prefix_nil.
  - assert (Hp' : Str.trimEnd (String c' p') = String c' p').
    { revert Hfix. destruct (Str.trimEnd (String c' p')) as [|d t]; intros Hfix;
        [by destruct (Str.is_space c)|]. congruence. }
    specialize (IH ltac:(done) Hp').
    destruct (Str.trimEnd (String c' p' +:+ x)) as [|d t]; [done|].
    by rewrite prefix_cons.
Qed.

Lemma trimStart_append (p x : string) :
  p ≠ "" → Str.trimStart p = p → Str.trimStart (p +:+ x) = p +:+ x.
Proof.
  destruct p as [|c p]; [done|]. intros _ Hfix.
  change (String c p +:+ x) with (String c (p +:+ x)). cbn [Str.trimStart] in *.
  destruct (Str.is_space c) eqn:Hc; [|done].
  assert (Hlen : ∀ s, (String.length (Str.trimStart s) ≤ String.length s)%nat).
  { induction s as [|d s IHs]; cbn; [lia|]. destruct (Str.is_space d); cbn; lia. }
  specialize (Hlen p). rewrite Hfix in Hlen. cbn in Hlen. lia.
Qed.

Lemma toLowerCase_append (a b : string) :
  Str.toLowerCase (a +:+ b) = Str.toLowerCase a +:+ Str.toLowerCase b.
Proof.
  unfold Str.toLowerCase. induction a as [|c a IH]; [done|].
  rewrite append_cons. cbn [Str.map]. by rewrite IH, append_cons.
Qed.

Lemma indicators_are_trimmed_lower_case (ind : string) :
  ind ∈ nullIndicators →
  ind ≠ "" ∧ Str.toLowerCase ind = ind ∧ Str.trimStart ind = ind ∧ Str.trimEnd ind = ind.
Proof.
  assert (Hall : forallb (fun ind => negb (String.eqb ind "")
                                     && String.eqb (Str.toLowerCase ind) ind
                                     && String.eqb (Str.trimStart ind) ind
                                     && String.eqb (Str.trimEnd ind) ind)
                   nullIndicators = true) by (vm_compute; reflexivity).
  intros Hin%list_elem_of_In. eapply forallb_forall in Hall; [|exact Hin].
  apply andb_true_iff in Hall as [Hall H4]. apply andb_true_iff in Hall as [Hall H3].
  apply andb_true_iff in Hall as [H1 H2]. apply negb_true_iff in H1.
  split; [by apply String.eqb_neq|]. by rewrite !String.eqb_eq in *.
Qed.

(** X16. What [isNullOrErrorValue] takes for invalid. The empty value is
    invalid, while a value made of white space only is valid. A value
    that begins with one of the indicator words is invalid whatever
    follows the word, and in whatever letter case the word is written
    ([name], [Nancy] and [errors] are invalid values). *)
Theorem indicator_prefix_means_invalid :
  isNullOrErrorValue "" = true
  ∧ (∀ v, v ≠ "" → Str.trim v = "" → isNullOrErrorValue v = false)
  ∧ (∀ ind rest, ind ∈ nullIndicators → isNullOrErrorValue (ind +:+ rest) = true)
  ∧ (∀ word rest, Str.toLowerCase word ∈ nullIndicators →
       isNullOrErrorValue (word +:+ rest) = true).
Proof.
  assert (Hword : ∀ word rest, Str.toLowerCase word ∈ nullIndicators →
                    isNullOrErrorValue (word +:+ rest) = true).
  { intros word rest Hin.
    destruct (indicators_are_trimmed_lower_case _ Hin) as (Hne & Hlow & Hstart & Hend).
    unfold isNullOrErrorValue.
    destruct (String.eqb_spec (word +:+ rest) "") as [Hempty|_]; [done|].
    apply existsb_exists. exists (Str.toLowerCase word).
    split; [by apply list_elem_of_In|]. apply orb_true_iff. right.
    unfold Str.startsWith, Str.trim. rewrite toLowerCase_append.
    rewrite (trimStart_append _ _ Hne Hstart). by apply trimEnd_prefix. }
  split; [done|]. split; [|split; [|exact Hword]].
  - intros v Hv Hblank. unfold isNullOrErrorValue.
    destruct (String.eqb_spec v "") as [|_]; [done|].
    assert (Hlower : Str.trim (Str.toLowerCase v) = "").
    { assert (Hspace : ∀ c, Str.is_space (Str.lower_char c) = Str.is_space c).
      { intros c. destruct c as [[] [] [] [] [] [] [] []]; reflexivity. }
      assert (Hstart : ∀ s, Str.trimStart (Str.toLowerCase s)
                            = Str.toLowerCase (Str.trimStart s)).
      { induction s as [|c s IH]; [done|]. cbn. rewrite Hspace.
        by destruct (Str.is_space c). }
      assert (Hend : ∀ s, Str.trimEnd (Str.toLowerCase s) = Str.toLowerCase (Str.trimEnd s)).
      { induction s as [|c s IH]; [done|]. cbn [Str.toLowerCase Str.map Str.trimEnd].
        fold (Str.toLowerCase s). rewrite IH, Hspace.
        destruct (Str.trimEnd s); cbn; [by destruct (Str.is_space c)|done]. }
      unfold Str.trim in *. by rewrite Hstart, Hend, Hblank. }
    rewrite Hlower. vm_compute. reflexivity.
  - intros ind rest Hin. apply Hword.
    by destruct (indicators_are_trimmed_lower_case _ Hin) as (_ & -> & _).
Qed.
